(** * Square inventory scripts: catalog merge, import validator, SEO patch

    A shallow embedding of the decision logic of three scripts of the
    repository:

    - [scripts/utilities/create-merged-catalog.py]  (module [MergedCatalog])
    - [organized-inventory/03-project-files/scripts/square_import_value_validator.py]
      (module [ValueValidator])
    - [scripts/utilities/manual-seo-updates.py]     (module [ManualSeo])

    Spreadsheet rows are finite maps from column names to cells.  The columns
    the scripts read hold text, so a cell is either the pandas missing value
    or a text.  Python strings are modelled by [string], one [ascii] per
    character (code points below 256).  Reading and writing the spreadsheet
    files, the printed progress lines and the final ordering of the merged
    rows by item name are outside the model. *)

From Stdlib Require Import ZArith Ascii.
From stdpp Require Import gmap strings list fin_maps sorting.

Local Open Scope Z_scope.

(** ** Cells and rows *)

(** A spreadsheet cell as pandas hands it to the scripts: the missing value
    ([NaN]) or a text. *)
Inductive cell : Type :=
  | NaN : cell
  | Str (s : string) : cell.

#[global] Instance cell_eq_dec : EqDecision cell.
Proof. solve_decision. Defined.

(** A row ([pandas.Series]): column label to cell. *)
Abbreviation row := (gmap string cell).

(** ** The Python and pandas primitives the scripts call *)
Module Py.

(** [pd.isna(v)] *)
Definition isna (v : cell) : bool :=
  match v with NaN => true | Str _ => false end.

(** [str(v)]: the float NaN prints as the three letters nan. *)
Definition str (v : cell) : string :=
  match v with NaN => "nan" | Str s => s end.

(** Truth value of [v]: a float NaN is true, a text is true unless empty. *)
Definition truthy (v : cell) : bool :=
  match v with NaN => true | Str s => negb (String.eqb s "") end.

(** [len(s)] *)
Definition len (s : string) : Z := Z.of_nat (String.length s).

(** [needle in hay] on texts: substring search. *)
Fixpoint contains (needle hay : string) : bool :=
  match hay with
  | EmptyString => String.prefix needle hay
  | String _ hay' => String.prefix needle hay || contains needle hay'
  end.

(** [c.lower()] for one character below code point 256. *)
Definition lower_char (c : ascii) : ascii :=
  let n := Ascii.N_of_ascii c in
  if ((65 <=? n) && (n <=? 90)
      || (192 <=? n) && (n <=? 222) && negb (n =? 215))%N
  then Ascii.ascii_of_N (n + 32) else c.

(** [s.lower()] *)
Fixpoint lower (s : string) : string :=
  match s with
  | EmptyString => EmptyString
  | String c s' => String (lower_char c) (lower s')
  end.

(** [c.isspace()] for one character below code point 256. *)
Definition isspace (c : ascii) : bool :=
  let n := Ascii.N_of_ascii c in
  ((9 <=? n) && (n <=? 13) || (28 <=? n) && (n <=? 32)
   || (n =? 133) || (n =? 160))%N.

(** [s.lstrip()] *)
Fixpoint lstrip (s : string) : string :=
  match s with
  | EmptyString => EmptyString
  | String c s' => if isspace c then lstrip s' else s
  end.

(** [s.rstrip()] *)
Definition rstrip (s : string) : string :=
  String.rev (lstrip (String.rev s)).

(** [s.strip()] *)
Definition strip (s : string) : string := rstrip (lstrip s).

(** [sep.join(l)] *)
Fixpoint join (sep : string) (l : list string) : string :=
  match l with
  | [] => ""
  | [x] => x
  | x :: l' => x +:+ sep +:+ join sep l'
  end.

(** [row.get(k, '')] *)
Definition get (r : row) (k : string) : cell :=
  default (Str "") (r !! k).

(** [max(first :: rest, key=key)]: one left-to-right scan that replaces
    the running best only by a strictly greater key. *)
Definition max_by {A : Type} (key : A → Z) (first : A) (rest : list A) : A :=
  fold_left (λ best x, if key best <? key x then x else best) rest first.

(** [Series.unique()]: distinct values in order of first appearance. *)
Fixpoint unique_go (seen l : list string) : list string :=
  match l with
  | [] => []
  | x :: l' =>
      if bool_decide (x ∈ seen) then unique_go seen l'
      else x :: unique_go (x :: seen) l'
  end.
Definition unique (l : list string) : list string := unique_go [] l.

(** [s.split(sep)] for a separator of one character: the pieces between the
    separators, empty ones included. *)
Fixpoint split_go (sep : ascii) (piece : string) (s : string) : list string :=
  match s with
  | EmptyString => [String.rev piece]
  | String c s' =>
      if Ascii.eqb c sep then String.rev piece :: split_go sep "" s'
      else split_go sep (String c piece) s'
  end.
Definition split (sep : ascii) (s : string) : list string := split_go sep "" s.

(** [l.count(x)] *)
Definition count (x : string) (l : list string) : nat :=
  length (filter (λ y, y = x) l).

(** [s.replace(c, '')] for a text [c] of one character. *)
Fixpoint remove_char (c : ascii) (s : string) : string :=
  match s with
  | EmptyString => EmptyString
  | String a s' =>
      if Ascii.eqb a c then remove_char c s' else String a (remove_char c s')
  end.

End Py.

(** ** create-merged-catalog.py *)
Module MergedCatalog.

(** [clean_name] *)
Definition clean_name (name : cell) : string :=
  if Py.isna name then "" else Py.strip (Py.lower (Py.str name)).

(** [evaluate_description] *)
Definition evaluate_description (desc : cell) : Z :=
  if Py.isna desc || String.eqb (Py.str desc) "nan" || negb (Py.truthy desc)
  then 0
  else
    let desc_str := Py.str desc in
    let score := Py.len desc_str in
    let score := if Py.contains "." desc_str then score + 50 else score in
    let score := if 100 <? Py.len desc_str then score + 100 else score in
    score.

(** [evaluate_seo] *)
Definition evaluate_seo (title desc : cell) : Z :=
  let score := 0 in
  let score :=
    if negb (Py.isna title) && negb (String.eqb (Py.str title) "nan")
    then score + (100 + Py.len (Py.str title)) else score in
  let score :=
    if negb (Py.isna desc) && negb (String.eqb (Py.str desc) "nan")
    then score + (100 + Py.len (Py.str desc)) else score in
  score.

(** The three catalogs, in the order the script names them:
    [square_df], [palka_df], [tbd_df]. *)
Inductive tag : Type := Square | Palka | Tbd.

#[global] Instance tag_eq_dec : EqDecision tag.
Proof. solve_decision. Defined.

(** The dictionary key that names a catalog. *)
Definition tag_name (t : tag) : string :=
  match t with Square => "square" | Palka => "palka" | Tbd => "tbd" end.

(** One entry of [product_index]:
    [{'square': [...], 'palka': [...], 'tbd': [...]}]. *)
Record sources : Type := Sources {
  square : list row;
  palka : list row;
  tbd : list row
}.

(** [{'square': [], 'palka': [], 'tbd': []}] *)
Definition no_sources : sources := Sources [] [] [].

(** [sources[t]] *)
Definition rows_of (t : tag) (s : sources) : list row :=
  match t with Square => square s | Palka => palka s | Tbd => tbd s end.

(** [sources[t].append(r)] *)
Definition append_row (t : tag) (r : row) (s : sources) : sources :=
  match t with
  | Square => Sources (square s ++ [r]) (palka s) (tbd s)
  | Palka => Sources (square s) (palka s ++ [r]) (tbd s)
  | Tbd => Sources (square s) (palka s) (tbd s ++ [r])
  end.

(** The normalized key of a row: [clean_name(row.get('Item Name', ''))]. *)
Definition key_of (r : row) : string := clean_name (Py.get r "Item Name").

(** Body of one indexing loop, for the catalog [t]. *)
Definition index_row (t : tag)
    (product_index : gmap string sources) (r : row) : gmap string sources :=
  let name := key_of r in
  if negb (String.eqb name "") then
    let product_index :=
      match product_index !! name with
      | None => <[name := no_sources]> product_index
      | Some _ => product_index
      end in
    match product_index !! name with
    | Some s => <[name := append_row t r s]> product_index
    | None => product_index
    end
  else product_index.

(** One indexing loop: [for idx, row in df.iterrows(): ...]. *)
Definition index_rows (t : tag) (df : list row)
    (product_index : gmap string sources) : gmap string sources :=
  fold_left (index_row t) df product_index.

(** The three indexing loops, Square first, then Palka, then TBD. *)
Definition build_index (square_df palka_df tbd_df : list row)
    : gmap string sources :=
  index_rows Tbd tbd_df
    (index_rows Palka palka_df
       (index_rows Square square_df ∅)).

(** [sources[t][0] if sources[t] else None] *)
Definition best (t : tag) (s : sources) : option row := head (rows_of t s).

(** [best.get(k, '') if best is not None else ''] *)
Definition field_of (b : option row) (k : string) : cell :=
  match b with Some r => Py.get r k | None => Str "" end.

(** The row under construction together with [merge_notes]. *)
Definition merge_state : Type := row * list string.

(** The base of the merged row: Square's row, else Palka's, else TBD's. *)
Definition base_row (s : sources) : option row :=
  match best Square s with
  | Some r => Some r
  | None =>
      match best Palka s with
      | Some r => Some r
      | None => best Tbd s
      end
  end.

(** [descriptions[t]] and [desc_scores[t]] *)
Definition descriptions (s : sources) (t : tag) : cell :=
  field_of (best t s) "Description".
Definition desc_scores (s : sources) (t : tag) : Z :=
  evaluate_description (descriptions s t).

(** [max(desc_scores, key=desc_scores.get)] *)
Definition best_desc_source (s : sources) : tag :=
  Py.max_by (desc_scores s) Square [Palka; Tbd].

(** The DESCRIPTION block. *)
Definition merge_description (s : sources) (st : merge_state) : merge_state :=
  let '(merged_row, merge_notes) := st in
  let b := best_desc_source s in
  if 0 <? desc_scores s b
  then (<["Description" := descriptions s b]> merged_row,
        merge_notes ++ ["desc:" +:+ tag_name b])
  else st.

(** [seo_data[t]['title']], [seo_data[t]['desc']] and [seo_scores[t]] *)
Definition seo_title (s : sources) (t : tag) : cell :=
  field_of (best t s) "SEO Title".
Definition seo_desc (s : sources) (t : tag) : cell :=
  field_of (best t s) "SEO Description".
Definition seo_scores (s : sources) (t : tag) : Z :=
  evaluate_seo (seo_title s t) (seo_desc s t).

(** [max(seo_scores, key=seo_scores.get)] *)
Definition best_seo_source (s : sources) : tag :=
  Py.max_by (seo_scores s) Square [Palka; Tbd].

(** The SEO TITLE & DESCRIPTION block. *)
Definition merge_seo (s : sources) (st : merge_state) : merge_state :=
  let '(merged_row, merge_notes) := st in
  let b := best_seo_source s in
  if 0 <? seo_scores s b
  then (<["SEO Description" := seo_desc s b]>
          (<["SEO Title" := seo_title s b]> merged_row),
        merge_notes ++ ["seo:" +:+ tag_name b])
  else st.

(** The test [best is not None and not pd.isna(best.get('Categories', ''))]. *)
Definition has_categories (b : option row) : bool :=
  match b with
  | Some r => negb (Py.isna (Py.get r "Categories"))
  | None => false
  end.

(** The CATEGORIES block. *)
Definition merge_categories (s : sources) (st : merge_state) : merge_state :=
  let '(merged_row, merge_notes) := st in
  if has_categories (best Palka s)
  then (<["Categories" := field_of (best Palka s) "Categories"]> merged_row,
        merge_notes ++ ["cat:palka"])
  else if has_categories (best Square s)
  then (<["Categories" := field_of (best Square s) "Categories"]> merged_row,
        merge_notes ++ ["cat:square"])
  else st.

(** [[k for k, v in sources.items() if v]] *)
Definition present_tags (s : sources) : list string :=
  tag_name <$> filter (λ t, rows_of t s ≠ []) [Square; Palka; Tbd].

(** The merge metadata block. *)
Definition merge_metadata (s : sources) (st : merge_state) : row :=
  let '(merged_row, merge_notes) := st in
  <["_merge_notes" := Str (Py.join ", " merge_notes)]>
    (<["_merge_sources" := Str (Py.join ", " (present_tags s))]> merged_row).

(** Body of the merge loop for one entry of the index; [None] is the
    [continue] of the branch without any row. *)
Definition merge_product (s : sources) : option row :=
  match base_row s with
  | None => None
  | Some merged_row =>
      Some (merge_metadata s
              (merge_categories s
                 (merge_seo s
                    (merge_description s (merged_row, [])))))
  end.

(** Order of [sorted(product_index.items())]: by product name. *)
Definition item_le (x y : string * sources) : Prop :=
  String.le (fst x) (fst y).

#[global] Instance item_le_dec : RelDecision item_le.
Proof. intros x y. unfold item_le. apply _. Defined.

(** [sorted(product_index.items())] *)
Definition sorted_items (product_index : gmap string sources)
    : list (string * sources) :=
  merge_sort item_le (map_to_list product_index).

(** The list [merged_catalog] after the merge loop. *)
Definition merge_loop (product_index : gmap string sources) : list row :=
  omap (λ item, merge_product (snd item)) (sorted_items product_index).

(** The whole merge: the rows of [merged_catalog] for three catalogs. *)
Definition merged_catalog (square_df palka_df tbd_df : list row) : list row :=
  merge_loop (build_index square_df palka_df tbd_df).

End MergedCatalog.

(** ** square_import_value_validator.py and manual-seo-updates.py: tables *)

(** A table ([pandas.DataFrame]) with the default row labels 0, 1, 2, ...:
    the header and the rows.  A column label missing from a row's map is an
    empty cell. *)
Record dataframe : Type := DataFrame {
  columns : list string;
  rows : list row
}.

(** The cell of row [r] under the column [c]. *)
Definition cell_of (r : row) (c : string) : cell := default NaN (r !! c).

(** [df[c]]: the cells of one column, top to bottom. *)
Definition column (df : dataframe) (c : string) : list cell :=
  (λ r, cell_of r c) <$> rows df.

(** ** square_import_value_validator.py *)
Module ValueValidator.

(** [REQUIRED_COLUMNS] *)
Definition REQUIRED_COLUMNS : gset string :=
  list_to_set
    ["Reference Handle"; "Token"; "Item Name"; "Variation Name"; "SKU";
     "Description"; "Categories"; "Reporting Category"; "SEO Title";
     "SEO Description"; "Item Type"; "Sold Online"; "Available for Sale";
     "Square Online Item Visibility"].

(** [REQUIRED_VALUES], in the order the dictionary lists them. *)
Definition REQUIRED_VALUES : list (string * string) :=
  [("Square Online Item Visibility", "Visible");
   ("Sold Online", "Y");
   ("Available for Sale", "Y");
   ("Item Type", "Physical")].

(** The messages appended to [errors], before formatting. *)
Inductive problem : Type :=
  | MissingHeaders (names : list string)
  | UnexpectedValue (expected field : string) (found : list string)
  | MissingColumn (field : string).

#[global] Instance problem_eq_dec : EqDecision problem.
Proof. solve_decision. Defined.

(** [REQUIRED_COLUMNS - set(df.columns)] *)
Definition missing_headers (df : dataframe) : gset string :=
  REQUIRED_COLUMNS ∖ list_to_set (columns df).

(** [sorted(names)] on a set of texts. *)
Definition sorted (names : gset string) : list string :=
  merge_sort String.le (elements names).

(** [df[field].dropna().astype(str).str.strip().unique()] *)
Definition values (df : dataframe) (field : string) : list string :=
  Py.unique
    (Py.strip <$> (Py.str <$> filter (λ v, Py.isna v = false) (column df field))).

(** The header check. *)
Definition check_headers (df : dataframe) (errors : list problem)
    : list problem :=
  if decide (missing_headers df ≠ ∅)
  then errors ++ [MissingHeaders (sorted (missing_headers df))]
  else errors.

(** Body of the loop over [REQUIRED_VALUES.items()]. *)
Definition check_value (df : dataframe) (errors : list problem)
    (item : string * string) : list problem :=
  let '(field, expected) := item in
  if decide (field ∈ columns df) then
    if decide (expected ∈ values df field) then errors
    else errors ++ [UnexpectedValue expected field (values df field)]
  else errors ++ [MissingColumn field].

(** The list [errors] when both checks have run. *)
Definition collect_errors (df : dataframe) : list problem :=
  fold_left (check_value df) REQUIRED_VALUES (check_headers df []).

(** What the last statement prints: one line per problem, or the success
    line. *)
Inductive line : Type :=
  | Problem (p : problem)
  | AllCorrect.

(** [validate_values], from the loaded table on. *)
Definition validate_values (df : dataframe) : list line :=
  let errors := collect_errors df in
  if decide (errors ≠ []) then Problem <$> errors else [AllCorrect].

End ValueValidator.

(** ** manual-seo-updates.py *)
Module ManualSeo.

(** One entry of [seo_updates]. *)
Record seo_update : Type := SeoUpdate {
  name : string;
  seo_title : string;
  seo_description : string;
  keywords : string
}.

(** What the loop prints for an entry. *)
Inductive report : Type :=
  | Updated (name title desc : string)
  | NotFound (name : string).

(** [df.loc[idx, c] = v]: the column is created, empty, when the table does
    not have it.  The loop passes labels of the table only; for any other
    label (where pandas would append a row) the model changes no row. *)
Definition set_cell (df : dataframe) (idx : nat) (c : string) (v : cell)
    : dataframe :=
  DataFrame
    (if decide (c ∈ columns df) then columns df else columns df ++ [c])
    (alter (λ r : row, <[c := v]> r) idx (rows df)).

(** [df['Item Name'] == name]; a missing column raises [KeyError]. *)
Definition mask (df : dataframe) (name : string) : option (list bool) :=
  if decide ("Item Name" ∈ columns df)
  then Some ((λ v, bool_decide (v = Str name)) <$> column df "Item Name")
  else None.

(** [df[mask].index[0]], given [mask.any()]. *)
Definition first_index (mask : list bool) : option nat :=
  fst <$> list_find (λ b, b = true) mask.

(** The state the loop threads: the table, [updated_count], the printed
    lines. *)
Definition state : Type := dataframe * nat * list report.

(** Body of the update loop for one entry; [now] is what
    [datetime.now().isoformat()] returns in this iteration.  [None] is the
    [KeyError] of a table without an Item Name column. *)
Definition apply_update (now : string) (st : state) (update : seo_update)
    : option state :=
  let '(df, updated_count, out) := st in
  match mask df (name update) with
  | None => None
  | Some m =>
      match first_index m with
      | Some idx =>
          let df := set_cell df idx "SEO Title" (Str (seo_title update)) in
          let df :=
            set_cell df idx "SEO Description" (Str (seo_description update)) in
          let df := set_cell df idx "_seo_keywords" (Str (keywords update)) in
          let df := set_cell df idx "_seo_updated" (Str now) in
          Some (df, S updated_count,
                out ++ [Updated (name update) (seo_title update)
                          (seo_description update)])
      | None => Some (df, updated_count, out ++ [NotFound (name update)])
      end
  end.

(** The update loop; [clock i] is the time read in iteration [i]. *)
Fixpoint run_updates (clock : nat → string) (i : nat)
    (updates : list seo_update) (st : state) : option state :=
  match updates with
  | [] => Some st
  | update :: updates' =>
      match apply_update (clock i) st update with
      | Some st' => run_updates clock (S i) updates' st'
      | None => None
      end
  end.

(** The columns an update assigns. *)
Definition seo_columns : list string :=
  ["SEO Title"; "SEO Description"; "_seo_keywords"; "_seo_updated"].

(** [df[c].notna().sum()]; [None] is the [KeyError] of a table without the
    column. *)
Definition notna_sum (df : dataframe) (c : string) : option nat :=
  if decide (c ∈ columns df)
  then Some (length (filter (λ v, Py.isna v = false) (column df c)))
  else None.

(** [df[c].isna().sum()] *)
Definition isna_sum (df : dataframe) (c : string) : option nat :=
  if decide (c ∈ columns df)
  then Some (length (filter (λ v, Py.isna v = true) (column df c)))
  else None.

(** The three numbers of the SEO status, in the order they are printed;
    [None] when one of the three lines raises the [KeyError]. *)
Definition seo_status (df : dataframe) : option (nat * nat * nat) :=
  match notna_sum df "SEO Title", notna_sum df "SEO Description",
        isna_sum df "SEO Title" with
  | Some titles, Some descriptions, Some remaining =>
      Some (titles, descriptions, remaining)
  | _, _, _ => None
  end.

End ManualSeo.

(** ** safe_excel_write.py *)
Module SafeExcelWrite.

(** A table whose columns may share a label: the columns from left to
    right, each with its label and its cells from top to bottom. *)
Abbreviation table := (list (string * list cell)).

(** [df.columns = df.columns.astype(str).str.strip()] *)
Definition clean_headers (df : table) : table :=
  (λ col : string * list cell, (Py.strip col.1, col.2)) <$> df.

(** [fillna("")] followed by [astype(str)], on one cell. *)
Definition fill_str (v : cell) : cell :=
  match v with NaN => Str "" | Str s => Str s end.

(** [lambda x: x.strip() if isinstance(x, str) else x] *)
Definition strip_cell (v : cell) : cell :=
  match v with Str s => Str (Py.strip s) | NaN => NaN end.

(** [df.fillna("").astype(str)] followed by the [applymap]. *)
Definition clean_cells (df : table) : table :=
  (λ col : string * list cell,
     (col.1, strip_cell <$> (fill_str <$> col.2))) <$> df.

(** The [drop] of the columns labelled Unnamed: 0, if there is one. *)
Definition drop_unnamed (df : table) : table :=
  if decide ("Unnamed: 0" ∈ df.*1)
  then filter (λ col : string * list cell, col.1 ≠ "Unnamed: 0") df
  else df.

(** [df.loc[:, ~df.columns.duplicated()]]: of the columns with one label the
    leftmost stays. *)
Fixpoint keep_first_go (seen : list string) (df : table) : table :=
  match df with
  | [] => []
  | col :: df' =>
      if decide (col.1 ∈ seen) then keep_first_go seen df'
      else col :: keep_first_go (col.1 :: seen) df'
  end.
Definition keep_first (df : table) : table := keep_first_go [] df.

(** [safe_excel_write]: the caller's table after the call (its headers are
    cleaned in place) and the table handed to [to_excel]. *)
Definition safe_excel_write (df : table) : table * table :=
  let df := clean_headers df in
  let df_clean := clean_cells df in
  let df_clean := drop_unnamed df_clean in
  let df_clean := keep_first df_clean in
  (df, df_clean).

(** The table written to the file. *)
Definition written (df : table) : table := (safe_excel_write df).2.

End SafeExcelWrite.

(** ** compare-products-for-merge.py *)
Module CompareProducts.

(** One entry of [all_products]: the tags noted so far and the row kept for
    each catalog. *)
Record product : Type := Product {
  sources : list string;
  square : option row;
  palka : option row;
  tbd : option row
}.

(** [{'sources': [], 'square': None, 'palka': None, 'tbd': None}] *)
Definition no_product : product := Product [] None None None.

(** [all_products[name][t] = row] followed by the bookkeeping of
    ['sources']: Square's loop appends its tag for every row, the loops of
    Palka and TBD append theirs unless it is there. *)
Definition add_row (t : MergedCatalog.tag) (r : row) (p : product)
    : product :=
  match t with
  | MergedCatalog.Square =>
      Product (sources p ++ ["square"]) (Some r) (palka p) (tbd p)
  | MergedCatalog.Palka =>
      Product (if decide ("palka" ∈ sources p) then sources p
               else sources p ++ ["palka"])
        (square p) (Some r) (tbd p)
  | MergedCatalog.Tbd =>
      Product (if decide ("tbd" ∈ sources p) then sources p
               else sources p ++ ["tbd"])
        (square p) (palka p) (Some r)
  end.

(** Body of one collecting loop, for the catalog [t].  The script's own
    [clean_name] is the one of create-merged-catalog.py, letter for
    letter. *)
Definition collect_row (t : MergedCatalog.tag)
    (all_products : gmap string product) (r : row) : gmap string product :=
  let name := MergedCatalog.clean_name (Py.get r "Item Name") in
  if negb (String.eqb name "") then
    let all_products :=
      match all_products !! name with
      | None => <[name := no_product]> all_products
      | Some _ => all_products
      end in
    match all_products !! name with
    | Some p => <[name := add_row t r p]> all_products
    | None => all_products
    end
  else all_products.

(** The three collecting loops. *)
Definition collect (square_df palka_df tbd_df : list row)
    : gmap string product :=
  fold_left (collect_row MergedCatalog.Tbd) tbd_df
    (fold_left (collect_row MergedCatalog.Palka) palka_df
       (fold_left (collect_row MergedCatalog.Square) square_df ∅)).

(** [sum(1 for p in all_products.values() if len(p['sources']) == n)] *)
Definition count_with (n : nat) (all_products : gmap string product) : nat :=
  length (filter (λ item : string * product, length (sources item.2) = n)
            (map_to_list all_products)).

(** [single_source], [double_source], [triple_source] and
    [len(all_products)]. *)
Definition distribution (all_products : gmap string product)
    : nat * nat * nat * nat :=
  (count_with 1 all_products, count_with 2 all_products,
   count_with 3 all_products, size all_products).

End CompareProducts.

(** ** validate_square_headers.py *)
Module HeaderValidator.

(** [REQUIRED_FIELDS] *)
Definition REQUIRED_FIELDS : gset string :=
  list_to_set
    ["Reference Handle"; "Token"; "Item Name"; "Variation Name"; "SKU";
     "Description"; "Categories"; "Reporting Category"; "SEO Title";
     "SEO Description"; "Item Type"; "Sold Online"; "Available for Sale";
     "Square Online Item Visibility"].

(** [set([x for x in headers if headers.count(x) > 1])] *)
Definition duplicates (headers : list string) : gset string :=
  list_to_set (filter (λ x, (1 < Py.count x headers)%nat) headers).

(** [REQUIRED_FIELDS - set(headers)] *)
Definition missing (headers : list string) : gset string :=
  REQUIRED_FIELDS ∖ list_to_set headers.

(** The lines printed after the name of the file. *)
Inductive line : Type :=
  | DuplicateHeaders (names : list string)
  | NoDuplicateHeaders
  | MissingRequired (names : list string)
  | AllRequiredPresent
  | CheckComplete.

(** [validate_square_import], from the list [headers] on. *)
Definition validate_square_import (headers : list string) : list line :=
  [ if decide (duplicates headers ≠ ∅)
    then DuplicateHeaders (ValueValidator.sorted (duplicates headers))
    else NoDuplicateHeaders;
    if decide (missing headers ≠ ∅)
    then MissingRequired (ValueValidator.sorted (missing headers))
    else AllRequiredPresent;
    CheckComplete ].

End HeaderValidator.

(** ** normalize_categories.py *)
Module NormalizeCategories.

(** Body of the loop over [parts]: what is appended to [fixed_parts]. *)
Definition fix_part (p : string) : string :=
  if decide (p = "TRTR Curated") then "The Apothecary Cabinet"
  else if decide (p = "Labz") then "Curated Labz"
  else p.

(** [normalize_multi_category_cell]; a cell is empty or a text. *)
Definition normalize_multi_category_cell (cat : cell) : cell :=
  match cat with
  | NaN => NaN
  | Str cat =>
      let cat := Py.strip (Py.remove_char "\" cat) in
      let parts :=
        filter (λ c, c ≠ "") (Py.strip <$> Py.split "," cat) in
      let fixed_parts := fix_part <$> parts in
      Str (Py.join ", " (ValueValidator.sorted (list_to_set fixed_parts)))
  end.

(** [normalize_categories_column]: [None] stands for the [KeyError] of a
    table without the column. *)
Definition normalize_categories_column (df : dataframe) (column_name : string)
    : option dataframe :=
  if decide (column_name ∈ columns df) then
    Some (DataFrame (columns df)
            ((λ r : row,
                <[column_name :=
                    normalize_multi_category_cell (cell_of r column_name)]> r)
               <$> rows df))
  else None.

End NormalizeCategories.

(** ** Specification-side definitions *)

Import MergedCatalog.

(** The score of a description the way the specification words it: nothing
    for a missing, empty or "nan" text; otherwise the number of characters,
    50 more with a period in the text, 100 more beyond 100 characters. *)
Definition description_score (text : cell) : Z :=
  match text with
  | NaN => 0
  | Str s =>
      if decide (s = "" ∨ s = "nan") then 0
      else Py.len s
           + (if decide ("."%char ∈ String.list_ascii_of_string s) then 50 else 0)
           + (if decide (100 < Py.len s) then 100 else 0)
  end.


(** Position of a catalog in the fixed order square, palka, tbd. *)
Definition rank (t : tag) : nat :=
  match t with Square => 0 | Palka => 1 | Tbd => 2 end%nat.


(** The columns the merge loop assigns. *)
Definition merged_columns : list string :=
  ["Description"; "SEO Title"; "SEO Description"; "Categories";
   "_merge_sources"; "_merge_notes"].


(** What one SEO field adds to the score in [evaluate_seo]. *)
Definition seo_part (v : cell) : Z :=
  match v with
  | NaN => 0
  | Str s => if decide (s = "nan") then 0 else 100 + Py.len s
  end.


(** The rows of the catalog [t] among the three input tables. *)
Definition table (square_df palka_df tbd_df : list row) (t : tag) : list row :=
  match t with Square => square_df | Palka => palka_df | Tbd => tbd_df end.

(** The distinct normalized names of all rows of the three catalogs. *)
Definition normalized_names (square_df palka_df tbd_df : list row)
    : gset string :=
  list_to_set (key_of <$> (square_df ++ palka_df ++ tbd_df)).

(** The rows of a catalog whose normalized name is [k], in catalog order. *)
Definition rows_with_key (k : string) (df : list row) : list row :=
  filter (λ r, key_of r = k) df.

(** [sources[t].extend(new)]: several [append]s in a row. *)
Definition append_rows (t : tag) (new : list row) (s : sources) : sources :=
  match t with
  | Square => Sources (square s ++ new) (palka s) (tbd s)
  | Palka => Sources (square s) (palka s ++ new) (tbd s)
  | Tbd => Sources (square s) (palka s) (tbd s ++ new)
  end.

(** The merged row of an index entry that has a base row. *)
Definition merged_of (s : sources) : row := default ∅ (merge_product s).

(** What one entry of [REQUIRED_VALUES] adds to [errors]. *)
Definition value_problems (df : dataframe) (item : string * string)
    : list ValueValidator.problem :=
  ValueValidator.check_value df [] item.

(** A catalog row is the product an update names: its Item Name cell is
    that very text. *)
Definition names_product (name : string) (r : row) : Prop :=
  cell_of r "Item Name" = Str name.

#[global] Instance names_product_dec (name : string) (r : row) :
  Decision (names_product name r).
Proof. unfold names_product. apply _. Defined.

(** The four assignments of an update, as one change of the row [idx]. *)
Definition patch (now : string) (update : ManualSeo.seo_update) (r : row)
    : row :=
  <["_seo_updated" := Str now]>
    (<["_seo_keywords" := Str (ManualSeo.keywords update)]>
       (<["SEO Description" := Str (ManualSeo.seo_description update)]>
          (<["SEO Title" := Str (ManualSeo.seo_title update)]> r))).


(** An index entry cut down to the first row of each catalog. *)
Definition first_rows (s : sources) : sources :=
  Sources (take 1 (square s)) (take 1 (palka s)) (take 1 (tbd s)).

(** A catalog without the rows whose normalized name an earlier row of the
    same catalog already has. *)
Fixpoint first_seen_go (seen : list string) (df : list row) : list row :=
  match df with
  | [] => []
  | r :: df' =>
      if decide (key_of r ∈ seen) then first_seen_go seen df'
      else r :: first_seen_go (key_of r :: seen) df'
  end.
Definition first_seen (df : list row) : list row := first_seen_go [] df.

(** ** create-merged-catalog.py: counters, final order, statistics *)

(** The state of the merge loop: [merged_catalog], [merge_count] and
    [products_processed]. *)
Definition loop_state : Type := list row * nat * nat.

(** One iteration of the merge loop with its counters. *)
Definition merge_iteration (st : loop_state) (item : string * sources)
    : loop_state :=
  let '(merged_catalog, merge_count, products_processed) := st in
  let sources := item.2 in
  let products_processed := S products_processed in
  match merge_product sources with
  | None => (merged_catalog, merge_count, products_processed)
  | Some merged_row =>
      let merged_catalog := merged_catalog ++ [merged_row] in
      let merge_count :=
        if decide (1 < length (square sources) + length (palka sources)
                       + length (tbd sources))%nat
        then S merge_count else merge_count in
      (merged_catalog, merge_count, products_processed)
  end.

(** The merge loop over [sorted(product_index.items())]. *)
Definition run_merge_loop (product_index : gmap string sources) : loop_state :=
  fold_left merge_iteration (sorted_items product_index) ([], 0%nat, 0%nat).

(** Order of [sort_values('Item Name', na_position='last')]: texts by code
    points, rows without an item name last. *)
Definition name_le (x y : row) : Prop :=
  match cell_of x "Item Name", cell_of y "Item Name" with
  | Str a, Str b => String.le a b
  | _, NaN => True
  | NaN, Str _ => False
  end.

#[global] Instance name_le_dec : RelDecision name_le.
Proof.
  intros x y. unfold name_le.
  destruct (cell_of x "Item Name"), (cell_of y "Item Name"); apply _.
Defined.

(** [final_catalog]: [pd.DataFrame(merged_catalog)] sorted by
    [sort_values('Item Name', na_position='last')].  The table has the
    columns that its rows have: when no row has an Item Name, as for an
    empty list of rows, [sort_values] raises [KeyError], which is [None].
    pandas sorts with an unstable algorithm; rows with equal names are kept
    here in their order. *)
Definition final_catalog (square_df palka_df tbd_df : list row)
    : option (list row) :=
  let merged_catalog := merged_catalog square_df palka_df tbd_df in
  if decide (Exists (λ r : row, is_Some (r !! "Item Name")) merged_catalog)
  then Some (merge_sort name_le merged_catalog)
  else None.

(** [[note.split(':')[1] for note in final_catalog['_merge_notes']
      if field in str(note)]] with [field] one of desc:, seo:, cat:.
    A note that contains [field] has a colon, so the index 1 exists. *)
Definition note_sources (field : string) (notes : list cell) : list string :=
  (λ note, default "" (Py.split ":" (Py.str note) !! 1%nat))
  <$> filter (λ note, Py.contains field (Py.str note) = true) notes.

(** The number printed for [source] in a block of the merge statistics. *)
Definition statistic (field source : string) (catalog : list row) : nat :=
  Py.count source
    (note_sources field ((λ r, cell_of r "_merge_notes") <$> catalog)).

(** The [merge_notes] list at the end of an iteration. *)
Definition merge_notes_of (s : sources) (b : row) : list string :=
  (merge_categories s (merge_seo s (merge_description s (b, [])))).2.

(** The number of rows with normalized name [k] in the three catalogs. *)
Definition rows_total (sq pk tb : list row) (k : string) : nat :=
  (length (rows_with_key k sq) + length (rows_with_key k pk)
   + length (rows_with_key k tb))%nat.

(** Two rows carry item names, the first strictly before the second. *)
Definition name_lt (x y : row) : Prop :=
  ∃ a b, x !! "Item Name" = Some (Str a) ∧ y !! "Item Name" = Some (Str b)
         ∧ String.le a b ∧ a ≠ b.

(** The note of one block: absent, or the field followed by a tag. *)
Definition note_list (field : string) (winner : option tag) : list string :=
  match winner with
  | Some t => [field +:+ tag_name t]
  | None => []
  end.

(** The notes of an iteration whose blocks chose [d], [e] and [c]. *)
Definition notes_from (d e c : option tag) : list string :=
  note_list "desc:" d ++ note_list "seo:" e ++ note_list "cat:" c.

(** A row adds one to the number printed for [source] in the block of
    [field]. *)
Definition counted (field source : string) (m : row) : Prop :=
  Py.contains field (Py.str (cell_of m "_merge_notes")) = true
  ∧ default "" (Py.split ":" (Py.str (cell_of m "_merge_notes")) !! 1%nat)
    = source.

#[global] Instance counted_dec (field source : string) (m : row) :
  Decision (counted field source m).
Proof. unfold counted. apply _. Defined.

(** ** manual-seo-updates.py: the loop as a whole *)

(** The rows after the iteration for [u]: the first row that [u] names is
    patched, if there is one. *)
Definition patch_rows (now : string) (u : ManualSeo.seo_update)
    (rs : list row) : list row :=
  match list_find (names_product (ManualSeo.name u)) rs with
  | Some (j, _) => alter (patch now u) j rs
  | None => rs
  end.

(** The rows after the iterations for [updates], the first one numbered
    [i]. *)
Fixpoint patch_all (clock : nat → string) (i : nat)
    (updates : list ManualSeo.seo_update) (rs : list row) : list row :=
  match updates with
  | [] => rs
  | u :: updates' => patch_all clock (S i) updates' (patch_rows (clock i) u rs)
  end.

(** Some row of the table carries the name. *)
Definition listed (name : string) (rs : list row) : Prop :=
  ∃ r, r ∈ rs ∧ names_product name r.

#[global] Instance listed_dec (name : string) (rs : list row) :
  Decision (listed name rs).
Proof.
  refine (cast_if (decide (Exists (names_product name) rs)));
    unfold listed; rewrite Exists_exists in *; done.
Defined.

(** What the loop prints for [u] on a table with the rows [rs]. *)
Definition report_of (rs : list row) (u : ManualSeo.seo_update)
    : ManualSeo.report :=
  if decide (listed (ManualSeo.name u) rs)
  then ManualSeo.Updated (ManualSeo.name u) (ManualSeo.seo_title u)
         (ManualSeo.seo_description u)
  else ManualSeo.NotFound (ManualSeo.name u).

(** ** Texts as lists of characters (for the proofs about [strip]) *)

(** The characters of a text, and the text of a list of characters. *)
Abbreviation chars := String.list_ascii_of_string.
Abbreviation text := String.string_of_list_ascii.

(** [lstrip], [rstrip] and [strip] on lists of characters. *)
Fixpoint lstrip_chars (l : list ascii) : list ascii :=
  match l with
  | [] => []
  | c :: l' => if Py.isspace c then lstrip_chars l' else l
  end.
Definition rstrip_chars (l : list ascii) : list ascii :=
  reverse (lstrip_chars (reverse l)).
Definition strip_chars (l : list ascii) : list ascii :=
  rstrip_chars (lstrip_chars l).

(** A list of characters without white space at either end. *)
Definition trimmed (l : list ascii) : Prop :=
  lstrip_chars l = l ∧ rstrip_chars l = l.

(** A cell as [safe_excel_write] leaves it: a text without white space at
    either end. *)
Definition clean_cell (v : cell) : Prop := ∃ s, v = Str s ∧ Py.strip s = s.

(** A column as [safe_excel_write] leaves it. *)
Definition clean_column (col : string * list cell) : Prop :=
  Py.strip col.1 = col.1 ∧ Forall clean_cell col.2.

(** The entry of the compare script for a name, from the rows of the three
    catalogs with that name. *)
Definition compared (sq pk tb : list row) (k : string)
    : CompareProducts.product :=
  CompareProducts.Product
    (replicate (length (rows_with_key k sq)) "square"
     ++ (if decide (rows_with_key k pk = []) then [] else ["palka"])
     ++ (if decide (rows_with_key k tb = []) then [] else ["tbd"]))
    (last (rows_with_key k sq))
    (last (rows_with_key k pk))
    (last (rows_with_key k tb)).

(** How many times the compare script notes a name: once for every Square row
    with that name, once if Palka lists it and once if TBD does. *)
Definition listings (sq pk tb : list row) (k : string) : nat :=
  (length (rows_with_key k sq)
   + (if decide (rows_with_key k pk = []) then 0 else 1)
   + (if decide (rows_with_key k tb = []) then 0 else 1))%nat.

(** The category names of a text: the stripped, non-empty pieces between
    its commas, backslashes removed. *)
Definition category_parts (s : string) : list string :=
  filter (λ c, c ≠ "")
    (Py.strip <$> Py.split "," (Py.strip (Py.remove_char "\" s))).

(** A category name as the normalisation writes it. *)
Definition category_name (p : string) : Prop :=
  Py.strip p = p ∧ p ≠ ""
  ∧ (","%char ∉ chars p) ∧ ("\"%char ∉ chars p)
  ∧ p ≠ "TRTR Curated" ∧ p ≠ "Labz".

(** A text with a first and a last character that are no white space. *)
Definition edged (s : string) : Prop :=
  (∃ c, head (chars s) = Some c ∧ Py.isspace c = false)
  ∧ (∃ c, last (chars s) = Some c ∧ Py.isspace c = false).

(** A text the normalisation can hand back as one name of a cell. *)
Definition part_like (p : string) : Prop :=
  Py.strip p = p ∧ p ≠ ""
  ∧ (","%char ∉ chars p) ∧ ("\"%char ∉ chars p).

(** The names the normalisation writes into a cell. *)
Definition category_names (s : string) : list string :=
  ValueValidator.sorted
    (list_to_set (NormalizeCategories.fix_part <$> category_parts s)).

(** The number of rows with a value under the column [f]. *)
Definition filled (f : string) (rs : list row) : nat :=
  length (filter (λ r, Py.isna (cell_of r f) = false) rs).

(** ** Sample catalogs used by the examples below *)
Module Samples.
Import MergedCatalog.

(** A product that Square and Palka describe with the same text. *)
Definition lamp : row :=
  <["Item Name" := Str "Lamp"]> (<["Description" := Str "Warm light."]> ∅).
Definition lamp_twice : sources := Sources [lamp] [lamp] [].

(** A product that all three catalogs list, each under its own category. *)
Definition crystal_square : row :=
  <["Item Name" := Str "Crystal"]>
    (<["Categories" := Str "Home Decor"]> (<["SKU" := Str "S-1"]> ∅)).
Definition crystal_palka : row :=
  <["Item Name" := Str "Crystal"]>
    (<["Categories" := Str "Crystals, Candles"]> ∅).
Definition crystal_tbd : row :=
  <["Item Name" := Str "Crystal"]> (<["Categories" := Str "Misc"]> ∅).
Definition crystal : sources :=
  Sources [crystal_square] [crystal_palka] [crystal_tbd].

(** The same product when Palka's row has no category, when Palka does not
    list it, and when only TBD lists it. *)
Definition crystal_palka_null : row :=
  <["Item Name" := Str "Crystal"]> (<["Categories" := NaN]> ∅).
Definition crystal_uncurated : sources :=
  Sources [crystal_square] [crystal_palka_null] [crystal_tbd].
Definition crystal_no_palka : sources :=
  Sources [crystal_square] [] [crystal_tbd].
Definition crystal_tbd_only : sources := Sources [] [] [crystal_tbd].

(** A product that only Square lists, with an SEO title and no SEO
    description. *)
Definition titled : row :=
  <["Item Name" := Str "Lamp"]>
    (<["SEO Title" := Str "Nice Lamp"]> (<["SEO Description" := NaN]> ∅)).
Definition titled_only : sources := Sources [titled] [] [].

(** The lamp again, later in the same catalog, under another spelling. *)
Definition lamp_again : row :=
  <["Item Name" := Str " LAMP"]> (<["Description" := Str "Second."]> ∅).

(** A table without a Token column whose Sold Online cells all read N. *)
Definition not_sold_online : dataframe :=
  DataFrame ["Item Name"; "Sold Online"]
    [ <["Item Name" := Str "Lamp"]> (<["Sold Online" := Str "N"]> ∅);
      <["Item Name" := Str "Bowl"]> (<["Sold Online" := Str " N "]> ∅);
      <["Item Name" := Str "Sage"]> (<["Sold Online" := NaN]> ∅) ].

(** A merged catalog that lists the sunset lamp twice. *)
Definition catalog : dataframe :=
  DataFrame ["Item Name"; "SKU"; "SEO Title"]
    [ <["Item Name" := Str "7 Chakras Engraved Crescent Moon Selenite Plate"]>
        (<["SKU" := Str "P-7"]> ∅);
      <["Item Name" := Str "16 Colors Sunset Projection Lamp Sunset Lamp"]>
        (<["SKU" := Str "L-16"]> (<["SEO Title" := Str "Lamp"]> ∅));
      <["Item Name" := Str "16 Colors Sunset Projection Lamp Sunset Lamp"]>
        (<["SKU" := Str "L-16b"]> ∅) ].

(** The fourth entry of the script's [seo_updates]. *)
Definition sunset_lamp : ManualSeo.seo_update :=
  ManualSeo.SeoUpdate
    "16 Colors Sunset Projection Lamp Sunset Lamp"
    "16-Color Sunset Projection Lamp | RGB Mood Lighting"
    "Transform any room with 16 dynamic sunset colors. Crystal lens creates stunning rainbow & sunset effects. Remote control included."
    "sunset lamp, projection lamp, rgb mood light, sunset projector, bedroom ambient lighting".

(** An earlier draft for the same product, and the last entry of the
    script's [seo_updates]. *)
Definition sunset_lamp_draft : ManualSeo.seo_update :=
  ManualSeo.SeoUpdate
    "16 Colors Sunset Projection Lamp Sunset Lamp"
    "Sunset Lamp"
    "A lamp."
    "lamp".
Definition selenite_plate : ManualSeo.seo_update :=
  ManualSeo.SeoUpdate
    "7 Chakras Engraved Crescent Moon Selenite Plate"
    "Selenite Crescent Moon Plate | 7 Chakra Symbols Engraved"
    "Hand-carved Moroccan selenite moon with chakra engravings. High-vibration crystal for meditation & energy work. Ritual altar piece."
    "selenite moon plate, chakra selenite, crescent moon crystal, meditation plate, altar decor".

(** A row whose item name is a single space. *)
Definition unnamed : row :=
  <["Item Name" := Str " "]> (<["SKU" := Str "X-0"]> ∅).

(** Two products whose names differ in case. *)
Definition apple : row := <["Item Name" := Str "apple"]> ∅.
Definition zebra : row := <["Item Name" := Str "Zebra"]> ∅.

End Samples.

(** * Properties *)

(** ** Python primitives *)

Lemma prefix_empty (s : string) : String.prefix "" s = true.
Proof. by destruct s. Qed.

(** Searching for a one-character needle is membership of that character. *)
Lemma contains_char (c : ascii) (s : string) :
  Py.contains (String c "") s = true ↔ c ∈ String.list_ascii_of_string s.
Proof.
  induction s as [|a s IH]; simpl.
  - split; [done|]. by intros ?%elem_of_nil.
  - rewrite elem_of_cons, orb_true_iff, IH.
    destruct (Ascii.ascii_dec c a) as [->|Hne].
    + rewrite prefix_empty. split; auto.
    + split; intros [H|H]; auto; done.
Qed.

Lemma len_nonneg (s : string) : 0 ≤ Py.len s.
Proof. unfold Py.len. lia. Qed.

Lemma eqb_string_decide (s1 s2 : string) :
  String.eqb s1 s2 = bool_decide (s1 = s2).
Proof.
  destruct (String.eqb_spec s1 s2).
  - by rewrite bool_decide_eq_true_2.
  - by rewrite bool_decide_eq_false_2.
Qed.

(** ** Description scoring *)

(** C3. [evaluate_description] computes the specified score: 0 for a null
    cell, the empty text and the text "nan"; for any other text its length,
    plus 50 when it contains a period, plus 100 when it is longer than 100
    characters. *)
Theorem evaluate_description_score (desc : cell) :
  evaluate_description desc = description_score desc.
Proof.
  destruct desc as [|s]; [done|].
  unfold evaluate_description, description_score; simpl.
  rewrite !eqb_string_decide.
  destruct (decide (s = "" ∨ s = "nan")) as [[->| ->]|Hs]; [done..|].
  rewrite !bool_decide_eq_false_2 by naive_solver. simpl.
  destruct (decide (_ ∈ _)) as [Hp|Hp].
  - apply contains_char in Hp. rewrite Hp.
    destruct (decide (100 < Py.len s)) as [Hl|Hl];
      [apply Z.ltb_lt in Hl|apply Z.ltb_nlt in Hl]; rewrite Hl; lia.
  - rewrite <-contains_char in Hp. apply not_true_is_false in Hp. rewrite Hp.
    destruct (decide (100 < Py.len s)) as [Hl|Hl];
      [apply Z.ltb_lt in Hl|apply Z.ltb_nlt in Hl]; rewrite Hl; lia.
Qed.

(** The second description of the specification's example beats the first. *)
Example evaluate_description_example :
  evaluate_description (Str "A short one.") = 62 ∧
  evaluate_description (Str
    "A considerably longer description without punctuation that exceeds one hundred characters in total length")
  = 205.
Proof. split; reflexivity. Qed.

(** A text of white space only is not empty: it scores its length. *)
Example evaluate_description_spaces :
  evaluate_description (Str "   ") = 3.
Proof. reflexivity. Qed.

(** ** The scan that picks the best source *)

(** The scan over the three catalogs returns the first one that reaches the
    highest score. *)
Lemma max_by_first_maximal (f : tag → Z) :
  let b := Py.max_by f Square [Palka; Tbd] in
  (∀ t, f t ≤ f b) ∧ (∀ t, (rank t < rank b)%nat → f t < f b).
Proof.
  unfold Py.max_by; simpl.
  destruct (Z.ltb_spec (f Square) (f Palka)) as [H1|H1];
    [destruct (Z.ltb_spec (f Palka) (f Tbd)) as [H2|H2]
    |destruct (Z.ltb_spec (f Square) (f Tbd)) as [H2|H2]];
    (split; intros [] ; simpl; lia).
Qed.

(** Only one catalog is maximal with every earlier catalog lower. *)
Lemma first_maximal_unique (f : tag → Z) (t1 t2 : tag) :
  (∀ t, f t ≤ f t1) → (∀ t, (rank t < rank t1)%nat → f t < f t1) →
  (∀ t, f t ≤ f t2) → (∀ t, (rank t < rank t2)%nat → f t < f t2) →
  t1 = t2.
Proof.
  intros Hm1 Hf1 Hm2 Hf2.
  destruct (decide (rank t1 < rank t2)%nat) as [Hlt|Hge].
  { pose proof (Hf2 t1 Hlt). pose proof (Hm1 t2). lia. }
  destruct (decide (rank t2 < rank t1)%nat) as [Hlt|Hge'].
  { pose proof (Hf1 t2 Hlt). pose proof (Hm2 t1). lia. }
  destruct t1, t2; simpl in *; first [reflexivity | lia].
Qed.

Lemma best_desc_source_maximal (s : sources) (t : tag) :
  desc_scores s t ≤ desc_scores s (best_desc_source s).
Proof. apply (max_by_first_maximal (desc_scores s)). Qed.

Lemma best_desc_source_first (s : sources) (t : tag) :
  (rank t < rank (best_desc_source s))%nat →
  desc_scores s t < desc_scores s (best_desc_source s).
Proof. apply (max_by_first_maximal (desc_scores s)). Qed.

Lemma best_seo_source_maximal (s : sources) (t : tag) :
  seo_scores s t ≤ seo_scores s (best_seo_source s).
Proof. apply (max_by_first_maximal (seo_scores s)). Qed.

Lemma best_seo_source_first (s : sources) (t : tag) :
  (rank t < rank (best_seo_source s))%nat →
  seo_scores s t < seo_scores s (best_seo_source s).
Proof. apply (max_by_first_maximal (seo_scores s)). Qed.

(** C5. Of two catalogs whose descriptions score the same nonzero value the
    later one in the order square, palka, tbd never wins; when no catalog
    scores higher the winner is the first catalog with that score, and when
    the remaining catalog scores lower the winner is the earlier of the two
    and its text and note are what the merge writes.  The winner depends on
    the three scores only. *)
Theorem description_tie_break (s : sources) (t1 t2 : tag) :
  (rank t1 < rank t2)%nat →
  desc_scores s t1 = desc_scores s t2 →
  0 < desc_scores s t1 →
  best_desc_source s ≠ t2
  ∧ ((∀ t, desc_scores s t ≤ desc_scores s t1) →
     (rank (best_desc_source s) ≤ rank t1)%nat
     ∧ desc_scores s (best_desc_source s) = desc_scores s t1)
  ∧ ((∀ t, t ≠ t1 → t ≠ t2 → desc_scores s t < desc_scores s t1) →
     best_desc_source s = t1
     ∧ ∀ merged_row merge_notes,
         merge_description s (merged_row, merge_notes)
         = (<["Description" := descriptions s t1]> merged_row,
            merge_notes ++ ["desc:" +:+ tag_name t1]))
  ∧ (∀ s', (∀ t, desc_scores s' t = desc_scores s t) →
           best_desc_source s' = best_desc_source s).
Proof.
  intros Hrank Htie Hpos.
  assert (Hne : best_desc_source s ≠ t2).
  { intros Hb. pose proof (best_desc_source_first s t1) as Hf.
    rewrite Hb in Hf. specialize (Hf Hrank). lia. }
  split; [done|]. split; [|split].
  - intros Hmax.
    pose proof (best_desc_source_maximal s t1) as Hge.
    pose proof (Hmax (best_desc_source s)) as Hle.
    split; [|lia].
    destruct (decide (rank (best_desc_source s) ≤ rank t1)%nat) as [|Hgt];
      [done|].
    pose proof (best_desc_source_first s t1) as Hf. lia.
  - intros Hlow.
    assert (Hb : best_desc_source s = t1).
    { destruct (decide (best_desc_source s = t1)) as [|Hne1]; [done|].
      pose proof (Hlow _ Hne1 Hne) as Hlt.
      pose proof (best_desc_source_maximal s t1). lia. }
    split; [done|]. intros merged_row merge_notes.
    unfold merge_description. rewrite Hb.
    by apply Z.ltb_lt in Hpos as ->.
  - intros s' Hs'. unfold best_desc_source, Py.max_by; simpl.
    by rewrite !Hs'.
Qed.

(** Witness of [description_tie_break]: Square and Palka carry the same
    description and TBD has no row. *)
Lemma description_tie_break_witness :
  best_desc_source Samples.lamp_twice ≠ Palka.
Proof.
  apply (description_tie_break Samples.lamp_twice Square Palka);
    [simpl; lia | reflexivity | reflexivity].
Defined.

(** ** The merged row and its base *)

Lemma merge_product_Some (s : sources) (merged : row) :
  merge_product s = Some merged ↔
  ∃ b, base_row s = Some b
       ∧ merged = merge_metadata s
                    (merge_categories s
                       (merge_seo s (merge_description s (b, [])))).
Proof.
  unfold merge_product. destruct (base_row s) as [b|]; split.
  - intros H. exists b. split; [done|]. symmetry. by apply (inj Some).
  - intros (b' & Hb' & ->). apply (inj Some) in Hb'. by subst b'.
  - done.
  - by intros (b' & ? & _).
Qed.

Lemma merge_description_frame (s : sources) (st : merge_state) (f : string) :
  f ≠ "Description" → (merge_description s st).1 !! f = st.1 !! f.
Proof.
  intros Hf. destruct st as [r n]. unfold merge_description.
  destruct (0 <? _); simpl; [by rewrite lookup_insert_ne|done].
Qed.

Lemma merge_seo_frame (s : sources) (st : merge_state) (f : string) :
  f ≠ "SEO Title" → f ≠ "SEO Description" →
  (merge_seo s st).1 !! f = st.1 !! f.
Proof.
  intros Hf1 Hf2. destruct st as [r n]. unfold merge_seo.
  destruct (0 <? _); simpl; [by rewrite !lookup_insert_ne|done].
Qed.

Lemma merge_categories_frame (s : sources) (st : merge_state) (f : string) :
  f ≠ "Categories" → (merge_categories s st).1 !! f = st.1 !! f.
Proof.
  intros Hf. destruct st as [r n]. unfold merge_categories.
  repeat case_match; simpl; by rewrite ?lookup_insert_ne.
Qed.

Lemma merge_metadata_frame (s : sources) (st : merge_state) (f : string) :
  f ≠ "_merge_sources" → f ≠ "_merge_notes" →
  merge_metadata s st !! f = st.1 !! f.
Proof.
  intros Hf1 Hf2. destruct st as [r n]. unfold merge_metadata.
  by rewrite !lookup_insert_ne.
Qed.

(** The merge loop assigns the merged columns only. *)
Lemma merge_product_frame (s : sources) (merged b : row) (f : string) :
  merge_product s = Some merged →
  base_row s = Some b →
  f ∉ merged_columns →
  merged !! f = b !! f.
Proof.
  intros Hm Hb Hf.
  apply merge_product_Some in Hm as (b' & Hb' & ->).
  assert (b' = b) as -> by congruence.
  unfold merged_columns in Hf.
  rewrite !not_elem_of_cons in Hf.
  destruct Hf as (? & ? & ? & ? & ? & ? & _).
  by rewrite merge_metadata_frame, merge_categories_frame, merge_seo_frame,
    merge_description_frame by done.
Qed.

Lemma item_name_not_merged : "Item Name" ∉ merged_columns.
Proof. apply (bool_decide_unpack _). vm_compute. exact I. Qed.

(** C7. Every column of a merged row other than Description, SEO Title,
    SEO Description, Categories, _merge_sources and _merge_notes holds what
    the base row holds there, the base row being Square's first row for the
    key when there is one, else Palka's, else TBD's. *)
Theorem passthrough_frame (s : sources) (merged b : row) (f : string) :
  merge_product s = Some merged →
  base_row s = Some b →
  f ∉ merged_columns →
  merged !! f = b !! f
  ∧ base_row s = match best Square s, best Palka s with
                 | Some r, _ => Some r
                 | None, Some r => Some r
                 | None, None => best Tbd s
                 end.
Proof.
  intros Hm Hb Hf. split.
  - by apply merge_product_frame with s.
  - unfold base_row. by repeat case_match.
Qed.

(** Witness of [passthrough_frame]: the SKU of the Square row survives. *)
Lemma passthrough_frame_witness :
  ∃ merged, merge_product Samples.crystal = Some merged
            ∧ merged !! "SKU" = Samples.crystal_square !! "SKU".
Proof.
  eexists. split; [reflexivity|].
  apply (passthrough_frame Samples.crystal _ Samples.crystal_square "SKU");
    [reflexivity | reflexivity |].
  apply (bool_decide_unpack _). vm_compute. exact I.
Defined.

(** ** SEO scoring *)

Lemma evaluate_seo_parts (title desc : cell) :
  evaluate_seo title desc = seo_part title + seo_part desc.
Proof.
  assert (Hpart : ∀ v acc,
    (if negb (Py.isna v) && negb (String.eqb (Py.str v) "nan")
     then acc + (100 + Py.len (Py.str v)) else acc) = acc + seo_part v).
  { intros [|x] acc; simpl; [lia|].
    rewrite eqb_string_decide. case_decide as Hx.
    - rewrite bool_decide_eq_true_2 by done. simpl. lia.
    - by rewrite bool_decide_eq_false_2 by done. }
  unfold evaluate_seo. rewrite !Hpart. lia.
Qed.

Lemma seo_part_nonneg (v : cell) : 0 ≤ seo_part v.
Proof.
  destruct v as [|s]; simpl; [done|].
  pose proof (len_nonneg s). case_decide; lia.
Qed.

(** Without a positive score the SEO block assigns nothing. *)
Lemma merge_seo_no_winner (s : sources) (st : merge_state) :
  (∀ t, seo_scores s t = 0) → merge_seo s st = st.
Proof.
  intros H0. destruct st as [r n]. unfold merge_seo.
  by rewrite H0.
Qed.

(** C1. An empty text counts as a present SEO field: [evaluate_seo] gives
    the pair of empty texts, which stands for a catalog without a row for
    the product, 200 points.  A product that only Square lists, with a
    nine-character SEO title and no SEO description, scores 109 there, so
    the absent Palka catalog wins and the merged row gets an empty SEO
    title and the note seo:palka. *)
Theorem evaluate_seo_counts_blank :
  evaluate_seo (Str "") (Str "") = 200
  ∧ seo_scores Samples.titled_only Square = 109
  ∧ seo_scores Samples.titled_only Palka = 200
  ∧ best_seo_source Samples.titled_only = Palka
  ∧ Samples.titled !! "SEO Title" = Some (Str "Nice Lamp")
  ∧ (λ merged : row,
       (merged !! "SEO Title", merged !! "SEO Description",
        merged !! "_merge_sources", merged !! "_merge_notes"))
    <$> merged_catalog [Samples.titled] [] []
    = [(Some (Str ""), Some (Str ""),
        Some (Str "square"), Some (Str "seo:palka, cat:square"))].
Proof.
  do 5 (split; [reflexivity|]). vm_compute. reflexivity.
Qed.

(** ** Category selection *)

(** C2. The merged row takes the category of Palka's first row for the
    product when Palka has a row and that category is not null.  When Palka
    has no row for the product, or the category of its first row is null,
    the merged row takes the category of Square's first row, if Square has a
    row whose category is not null.  When that fails for Square as well, the
    category block assigns nothing and the row keeps the category of its
    base row.  TBD's rows are never read by the block. *)
Theorem categories_precedence (s : sources) (merged : row) :
  merge_product s = Some merged →
  (∀ p, best Palka s = Some p →
        Py.isna (Py.get p "Categories") = false →
        merged !! "Categories" = Some (Py.get p "Categories"))
  ∧ (∀ a, (palka s = []
           ∨ ∃ p, head (palka s) = Some p ∧ Py.get p "Categories" = NaN) →
          best Square s = Some a →
          Py.isna (Py.get a "Categories") = false →
          merged !! "Categories" = Some (Py.get a "Categories"))
  ∧ (∀ b, (palka s = []
           ∨ ∃ p, head (palka s) = Some p ∧ Py.get p "Categories" = NaN) →
          (square s = []
           ∨ ∃ a, head (square s) = Some a ∧ Py.get a "Categories" = NaN) →
          base_row s = Some b →
          merged !! "Categories" = b !! "Categories")
  ∧ (∀ tbd' st,
        merge_categories (Sources (square s) (palka s) tbd') st
        = merge_categories s st).
Proof.
  intros Hm. apply merge_product_Some in Hm as (b & Hb & ->).
  rewrite merge_metadata_frame by done.
  set (st := merge_seo s (merge_description s (b, []))).
  assert (Hst : st.1 !! "Categories" = b !! "Categories").
  { unfold st. by rewrite merge_seo_frame, merge_description_frame. }
  destruct st as [r n]. simpl in Hst.
  assert (Hnone : ∀ t,
    (rows_of t s = []
     ∨ ∃ x, head (rows_of t s) = Some x ∧ Py.get x "Categories" = NaN) →
    has_categories (best t s) = false).
  { intros t [Hnil|(x & Hx & Hna)]; unfold has_categories, best.
    - by rewrite Hnil.
    - by rewrite Hx, Hna. }
  split; [|split; [|split]].
  - intros p Hp Hna. unfold merge_categories, has_categories.
    rewrite Hp, Hna. simpl. by rewrite lookup_insert_eq.
  - intros a HP Ha Hna. unfold merge_categories.
    rewrite (Hnone Palka HP).
    unfold has_categories. rewrite Ha, Hna. simpl.
    by rewrite lookup_insert_eq.
  - intros b' HP HS Hb'. unfold merge_categories.
    rewrite (Hnone Palka HP), (Hnone Square HS).
    simpl. congruence.
  - intros tbd' st'. by destruct s.
Qed.

(** Witness of [categories_precedence]: Palka's "Crystals, Candles" wins
    over Square's "Home Decor" whatever TBD holds; when Palka's row has a
    null category, or Palka has no row, Square's "Home Decor" is taken; when
    Square has no row either, TBD's "Misc" stays, being the category of the
    base row. *)
Lemma categories_precedence_witness :
  (∃ merged, merge_product Samples.crystal = Some merged
             ∧ merged !! "Categories" = Some (Str "Crystals, Candles"))
  ∧ (∃ merged, merge_product Samples.crystal_uncurated = Some merged
               ∧ merged !! "Categories" = Some (Str "Home Decor"))
  ∧ (∃ merged, merge_product Samples.crystal_no_palka = Some merged
               ∧ merged !! "Categories" = Some (Str "Home Decor"))
  ∧ (∃ merged, merge_product Samples.crystal_tbd_only = Some merged
               ∧ merged !! "Categories" = Some (Str "Misc")).
Proof.
  split; [|split; [|split]].
  - eexists. split; [reflexivity|].
    apply (proj1 (categories_precedence Samples.crystal _ eq_refl)
             Samples.crystal_palka); reflexivity.
  - eexists. split; [reflexivity|].
    apply (proj1 (proj2 (categories_precedence Samples.crystal_uncurated _
                           eq_refl))
             Samples.crystal_square); [|reflexivity|reflexivity].
    right. exists Samples.crystal_palka_null. split; reflexivity.
  - eexists. split; [reflexivity|].
    apply (proj1 (proj2 (categories_precedence Samples.crystal_no_palka _
                           eq_refl))
             Samples.crystal_square); [|reflexivity|reflexivity].
    left. reflexivity.
  - eexists. split; [reflexivity|].
    rewrite (proj1 (proj2 (proj2 (categories_precedence
                                    Samples.crystal_tbd_only _ eq_refl)))
               Samples.crystal_tbd); [reflexivity|..].
    + left. reflexivity.
    + left. reflexivity.
    + reflexivity.
Defined.

(** ** The product index *)

Lemma append_rows_nil (t : tag) (s : sources) : append_rows t [] s = s.
Proof. destruct t, s; simpl; by rewrite app_nil_r. Qed.

Lemma append_rows_cons (t : tag) (r : row) (new : list row) (s : sources) :
  append_rows t (r :: new) s = append_rows t new (append_row t r s).
Proof. destruct t, s; simpl; by rewrite <-app_assoc. Qed.

Lemma index_row_lookup (t : tag) (idx : gmap string sources) (r : row)
    (k : string) :
  index_row t idx r !! k =
    if decide (key_of r = k ∧ k ≠ "")
    then Some (append_row t r (default no_sources (idx !! k)))
    else idx !! k.
Proof.
  unfold index_row. rewrite eqb_string_decide.
  destruct (decide (key_of r = "")) as [He|He].
  - rewrite bool_decide_eq_true_2 by done. simpl.
    rewrite decide_False; [done|]. intros [<- ?]. done.
  - rewrite bool_decide_eq_false_2 by done. simpl.
    destruct (idx !! key_of r) as [s|] eqn:Hs.
    + rewrite Hs. destruct (decide (key_of r = k)) as [<-|Hk].
      * rewrite decide_True by done. by rewrite lookup_insert_eq, Hs.
      * rewrite decide_False by (by intros [? ?]).
        by rewrite lookup_insert_ne.
    + rewrite lookup_insert_eq. destruct (decide (key_of r = k)) as [<-|Hk].
      * rewrite decide_True by done. by rewrite lookup_insert_eq, Hs.
      * rewrite decide_False by (by intros [? ?]).
        by rewrite !lookup_insert_ne.
Qed.

(** One indexing loop appends to the entry of [k] the rows of the catalog
    whose normalized name is [k], in order, and leaves the empty name out. *)
Lemma index_rows_lookup (t : tag) (df : list row) (idx : gmap string sources)
    (k : string) :
  index_rows t df idx !! k =
    if decide (k = "" ∨ rows_with_key k df = [])
    then idx !! k
    else Some (append_rows t (rows_with_key k df)
                 (default no_sources (idx !! k))).
Proof.
  revert idx. induction df as [|r df IH]; intros idx.
  - simpl. by rewrite decide_True by (by right).
  - unfold index_rows in *. simpl. rewrite IH, index_row_lookup.
    unfold rows_with_key. rewrite filter_cons.
    destruct (decide (k = "")) as [->|Hk].
    + rewrite !decide_True by (by left).
      rewrite decide_False; [done|]. by intros [_ ?].
    + destruct (decide (key_of r = k)) as [Hr|Hr].
      * rewrite (decide_True (P := key_of r = k ∧ k ≠ "")) by done.
        rewrite (decide_False (P := k = "" ∨ r :: _ = [])); [|by intros [?|?]].
        rewrite append_rows_cons. simpl.
        destruct (filter _ df) as [|r' l] eqn:Hf.
        -- rewrite decide_True by (by right). by rewrite append_rows_nil.
        -- rewrite decide_False; [done|]. by intros [?|?].
      * rewrite (decide_False (P := key_of r = k ∧ k ≠ "")); [|by intros [? _]].
        done.
Qed.

(** The entry of [k] in the finished index holds, per catalog, exactly the
    rows with that normalized name; the empty name has no entry. *)
Lemma build_index_lookup (sq pk tb : list row) (k : string) :
  build_index sq pk tb !! k =
    if decide (k ≠ ""
               ∧ (rows_with_key k sq ≠ [] ∨ rows_with_key k pk ≠ []
                  ∨ rows_with_key k tb ≠ []))
    then Some (Sources (rows_with_key k sq) (rows_with_key k pk)
                 (rows_with_key k tb))
    else None.
Proof.
  unfold build_index. rewrite !index_rows_lookup, lookup_empty.
  destruct (decide (k = "")) as [->|Hk].
  - rewrite !decide_True by (by left).
    rewrite decide_False; [done|]. by intros [? _].
  - destruct (rows_with_key k sq) as [|a sq'],
             (rows_with_key k pk) as [|b pk'],
             (rows_with_key k tb) as [|c tb'];
      repeat first
        [ rewrite (decide_True (P := k = "" ∨ [] = [])) by (by right)
        | rewrite (decide_False (P := k = "" ∨ _ :: _ = []));
            [|by intros [?|?]] ];
      simpl.
    + rewrite decide_False; [done|]. intros [_ [?|[?|?]]]; done.
    + by rewrite decide_True by (split; [done|by right; right]).
    + by rewrite decide_True by (split; [done|by right; left]).
    + by rewrite decide_True by (split; [done|by right; left]).
    + by rewrite decide_True by (split; [done|by left]).
    + by rewrite decide_True by (split; [done|by left]).
    + by rewrite decide_True by (split; [done|by left]).
    + by rewrite decide_True by (split; [done|by left]).
Qed.

Lemma rows_with_key_nonempty (k : string) (df : list row) :
  rows_with_key k df ≠ [] ↔ k ∈ key_of <$> df.
Proof.
  unfold rows_with_key. rewrite list_elem_of_fmap. split.
  - intros Hne. destruct (filter _ df) as [|r l] eqn:Hf; [done|].
    assert (Hr : r ∈ filter (λ r, key_of r = k) df) by (rewrite Hf; left).
    apply list_elem_of_filter in Hr as [Hk Hr]. by exists r.
  - intros (r & -> & Hr) Hnil.
    assert (Hin : r ∈ filter (λ r', key_of r' = key_of r) df)
      by (by apply list_elem_of_filter).
    rewrite Hnil in Hin. by apply elem_of_nil in Hin.
Qed.

Lemma head_rows_with_key (k : string) (df : list row) (r : row) :
  head (rows_with_key k df) = Some r → key_of r = k ∧ r ∈ df.
Proof.
  intros Hh. apply head_Some_elem_of in Hh.
  by apply list_elem_of_filter in Hh.
Qed.

(** A row with a non-empty normalized name has a text as item name. *)
Lemma key_of_nonempty (r : row) :
  key_of r ≠ "" → ∃ n, r !! "Item Name" = Some (Str n).
Proof.
  unfold key_of, Py.get.
  destruct (r !! "Item Name") as [[|n]|]; simpl; [done| |done].
  intros _. by exists n.
Qed.

Lemma key_of_item_name (r r' : row) :
  r !! "Item Name" = r' !! "Item Name" → key_of r = key_of r'.
Proof. unfold key_of, Py.get. by intros ->. Qed.

(** Every entry of the index has a base row, which carries the entry's
    name and is the first row of its catalog with that name. *)
Lemma index_entry_base (sq pk tb : list row) (k : string) (s : sources) :
  build_index sq pk tb !! k = Some s →
  k ≠ ""
  ∧ s = Sources (rows_with_key k sq) (rows_with_key k pk) (rows_with_key k tb)
  ∧ ∃ b t, base_row s = Some b ∧ best t s = Some b ∧ key_of b = k
           ∧ b ∈ table sq pk tb t.
Proof.
  rewrite build_index_lookup. case_decide as Hd; [|done].
  intros Hs. apply (inj Some) in Hs. subst s.
  destruct Hd as [Hk Hne]. split; [done|]. split; [done|].
  unfold base_row, best; simpl.
  destruct (head (rows_with_key k sq)) as [a|] eqn:Ha.
  { exists a, Square. simpl. rewrite Ha.
    by apply head_rows_with_key in Ha as [? ?]. }
  destruct (head (rows_with_key k pk)) as [b|] eqn:Hb.
  { exists b, Palka. simpl. rewrite Hb.
    by apply head_rows_with_key in Hb as [? ?]. }
  destruct (head (rows_with_key k tb)) as [c|] eqn:Hc.
  { exists c, Tbd. simpl. rewrite Hc.
    by apply head_rows_with_key in Hc as [? ?]. }
  apply head_None in Ha, Hb, Hc. by destruct Hne as [?|[?|?]].
Qed.

Lemma merge_product_base (s : sources) (b : row) :
  base_row s = Some b → merge_product s = Some (merged_of s).
Proof.
  intros Hb. unfold merged_of, merge_product. by rewrite Hb.
Qed.

(** ** The merge loop *)

Lemma sorted_items_perm (idx : gmap string sources) :
  sorted_items idx ≡ₚ map_to_list idx.
Proof. apply merge_sort_Permutation. Qed.

Lemma elem_of_sorted_items (idx : gmap string sources) (k : string)
    (s : sources) :
  (k, s) ∈ sorted_items idx ↔ idx !! k = Some s.
Proof. by rewrite sorted_items_perm, elem_of_map_to_list. Qed.

Lemma omap_total {A B : Type} (f : A → option B) (g : A → B) (l : list A) :
  (∀ x, x ∈ l → f x = Some (g x)) → omap f l = g <$> l.
Proof.
  induction l as [|x l IH]; intros Hf; [done|].
  simpl. rewrite (Hf x) by left. simpl. f_equal.
  apply IH. intros y Hy. apply Hf. by right.
Qed.

(** No entry of the index takes the [continue] branch: the merge loop
    yields one row per entry, in the order of the sorted names. *)
Lemma merged_catalog_fmap (sq pk tb : list row) :
  merged_catalog sq pk tb
  = (λ item, merged_of item.2) <$> sorted_items (build_index sq pk tb).
Proof.
  unfold merged_catalog, merge_loop. apply omap_total.
  intros [k s] Hks. simpl. apply elem_of_sorted_items in Hks.
  apply index_entry_base in Hks as (_ & _ & b & t & Hb & _).
  by apply merge_product_base with b.
Qed.

(** The merged row of an entry carries the item name of its base row. *)
Lemma merged_of_item_name (sq pk tb : list row) (k : string) (s : sources) :
  build_index sq pk tb !! k = Some s →
  ∃ b t n, base_row s = Some b ∧ best t s = Some b
           ∧ b ∈ table sq pk tb t
           ∧ b !! "Item Name" = Some (Str n)
           ∧ merged_of s !! "Item Name" = Some (Str n)
           ∧ clean_name (Str n) = k ∧ k ≠ "".
Proof.
  intros Hks.
  apply index_entry_base in Hks as (Hk & _ & b & t & Hb & Ht & Hkey & Hin).
  destruct (key_of_nonempty b) as [n Hn]; [by rewrite Hkey|].
  exists b, t, n. repeat split; try done.
  - rewrite <-Hn.
    apply merge_product_frame with s;
      [by apply merge_product_base with b|done|apply item_name_not_merged].
  - rewrite <-Hkey. unfold key_of, Py.get. by rewrite Hn.
Qed.

Lemma merged_of_key (sq pk tb : list row) (k : string) (s : sources) :
  build_index sq pk tb !! k = Some s → key_of (merged_of s) = k.
Proof.
  intros Hks.
  apply merged_of_item_name in Hks as (b & t & n & _ & _ & _ & _ & Hm & Hc & _).
  unfold key_of, Py.get. by rewrite Hm.
Qed.

Lemma merged_catalog_keys (sq pk tb : list row) :
  key_of <$> merged_catalog sq pk tb
  = (sorted_items (build_index sq pk tb)).*1.
Proof.
  rewrite merged_catalog_fmap, <-list_fmap_compose.
  apply Forall_fmap_ext_1, Forall_forall. intros [k s] Hks. simpl.
  apply elem_of_sorted_items in Hks. by apply merged_of_key in Hks.
Qed.

(** ** Item names of the merged rows *)

(** C8. Every row of the merged catalog has a text as Item Name: the item
    name, in its original casing, of the row that seeded it, whose normalized
    form is the non-empty name the row was indexed under.  No row with an
    empty normalized name is ever in the index. *)
Theorem item_name_non_null (sq pk tb : list row) :
  Forall (λ m, ∃ k s b t n,
            build_index sq pk tb !! k = Some s
            ∧ merge_product s = Some m
            ∧ base_row s = Some b
            ∧ b ∈ table sq pk tb t
            ∧ b !! "Item Name" = Some (Str n)
            ∧ m !! "Item Name" = Some (Str n)
            ∧ clean_name (Str n) = k ∧ k ≠ "")
         (merged_catalog sq pk tb)
  ∧ ∀ k s t r, build_index sq pk tb !! k = Some s →
               r ∈ rows_of t s → key_of r = k ∧ key_of r ≠ "".
Proof.
  split.
  - apply Forall_forall. intros m Hm.
    rewrite merged_catalog_fmap in Hm.
    apply list_elem_of_fmap in Hm as ([k s] & -> & Hks). simpl.
    apply elem_of_sorted_items in Hks.
    destruct (merged_of_item_name _ _ _ _ _ Hks)
      as (b & t & n & Hb & _ & Hin & Hn & Hm & Hc & Hk).
    exists k, s, b, t, n. repeat split; try done.
    by apply merge_product_base with b.
  - intros k s t r Hks Hr.
    apply index_entry_base in Hks as (Hk & -> & _).
    assert (key_of r = k) as Hkey.
    { destruct t; simpl in Hr;
        by apply list_elem_of_filter in Hr as [? _]. }
    split; [done|]. by rewrite Hkey.
Qed.

(** Witness of [item_name_non_null]: the merged crystal keeps a text as
    item name. *)
Lemma item_name_non_null_witness :
  Forall (λ m : row, ∃ n, m !! "Item Name" = Some (Str n))
    (merged_catalog [Samples.crystal_square] [Samples.crystal_palka]
       [Samples.crystal_tbd]).
Proof.
  eapply Forall_impl;
    [exact (proj1 (item_name_non_null [Samples.crystal_square]
                     [Samples.crystal_palka] [Samples.crystal_tbd]))|].
  intros m (k & s & b & t & n & _ & _ & _ & _ & _ & Hm & _).
  by exists n.
Defined.

(** ** One merged row per name *)

Lemma elem_of_normalized_names (sq pk tb : list row) (k : string) :
  k ∈ normalized_names sq pk tb ↔
  rows_with_key k sq ≠ [] ∨ rows_with_key k pk ≠ [] ∨ rows_with_key k tb ≠ [].
Proof.
  unfold normalized_names.
  rewrite elem_of_list_to_set, !fmap_app, !elem_of_app.
  by rewrite !rows_with_key_nonempty.
Qed.

Lemma dom_build_index (sq pk tb : list row) :
  dom (build_index sq pk tb) = normalized_names sq pk tb ∖ {[""]}.
Proof.
  apply set_eq. intros k.
  rewrite elem_of_dom, elem_of_difference, elem_of_singleton,
    elem_of_normalized_names, build_index_lookup.
  case_decide as Hd.
  - split; [intros _; by destruct Hd|by eauto].
  - split; [by intros [? ?]|]. intros [? ?]. by destruct Hd.
Qed.

(** An entry that only the catalog [t] feeds is tagged with [t] alone. *)
Lemma present_tags_single (s : sources) (t : tag) :
  rows_of t s ≠ [] → (∀ t', t' ≠ t → rows_of t' s = []) →
  present_tags s = [tag_name t].
Proof.
  intros Ht Hothers. unfold present_tags.
  destruct s as [a b c], t.
  - assert (b = []) as -> by (by apply (Hothers Palka)).
    assert (c = []) as -> by (by apply (Hothers Tbd)).
    simpl in Ht. by destruct a.
  - assert (a = []) as -> by (by apply (Hothers Square)).
    assert (c = []) as -> by (by apply (Hothers Tbd)).
    simpl in Ht. by destruct b.
  - assert (a = []) as -> by (by apply (Hothers Square)).
    assert (b = []) as -> by (by apply (Hothers Palka)).
    simpl in Ht. by destruct c.
Qed.

Lemma merged_of_sources (s : sources) (b : row) :
  base_row s = Some b →
  merged_of s !! "_merge_sources" = Some (Str (Py.join ", " (present_tags s))).
Proof.
  intros Hb. pose proof (merge_product_base s b Hb) as Hm.
  apply merge_product_Some in Hm as (b' & _ & ->).
  destruct (merge_categories _ _) as [r n]. unfold merge_metadata.
  rewrite lookup_insert_ne by done. by rewrite lookup_insert_eq.
Qed.

(** C4, as stated, fails: a row whose item name is blank has the empty
    normalized name, which counts among the distinct normalized names of the
    catalogs but gets no merged row. *)
Lemma union_of_keys_counterexample :
  normalized_names [Samples.unnamed] [] [] = {[""]}
  ∧ length (merged_catalog [Samples.unnamed] [] []) = 0%nat
  ∧ length (merged_catalog [Samples.unnamed] [] [])
    ≠ size (normalized_names [Samples.unnamed] [] []).
Proof.
  split; [|split].
  - apply set_eq. intros k.
    rewrite elem_of_normalized_names, elem_of_singleton.
    rewrite !rows_with_key_nonempty, !fmap_nil, fmap_cons, fmap_nil.
    rewrite list_elem_of_singleton.
    assert (key_of Samples.unnamed = "") as -> by reflexivity.
    split; [intros [?|[?%elem_of_nil|?%elem_of_nil]]; done|by left].
  - vm_compute. reflexivity.
  - vm_compute. discriminate.
Qed.

(** C4, amended. The merged catalog has exactly one row per distinct
    non-empty normalized item name of the three catalogs: the names of its
    rows are pairwise different, they are the non-empty normalized names that
    occur in some catalog, and their number is that of these names; a name
    that only one catalog lists yields a row whose _merge_sources is that
    catalog's tag alone. *)
Theorem union_of_keys (sq pk tb : list row) :
  NoDup (key_of <$> merged_catalog sq pk tb)
  ∧ (∀ k, k ∈ key_of <$> merged_catalog sq pk tb
          ↔ k ≠ "" ∧ k ∈ normalized_names sq pk tb)
  ∧ length (merged_catalog sq pk tb)
    = size (normalized_names sq pk tb ∖ {[""]})
  ∧ Forall (λ m, ∀ t,
              (∀ t', t' ≠ t →
                     rows_with_key (key_of m) (table sq pk tb t') = []) →
              m !! "_merge_sources" = Some (Str (tag_name t)))
           (merged_catalog sq pk tb).
Proof.
  split; [|split; [|split]].
  - rewrite merged_catalog_keys, sorted_items_perm.
    apply NoDup_fst_map_to_list.
  - intros k. rewrite merged_catalog_keys, sorted_items_perm.
    assert (k ∈ (map_to_list (build_index sq pk tb)).*1
            ↔ k ∈ dom (build_index sq pk tb)) as ->.
    { rewrite elem_of_dom, list_elem_of_fmap. split.
      - intros ([k' s] & -> & Hks). simpl.
        apply elem_of_map_to_list in Hks. by exists s.
      - intros [s Hs]. exists (k, s). split; [done|].
        by apply elem_of_map_to_list. }
    rewrite dom_build_index, elem_of_difference, elem_of_singleton.
    split; intros [? ?]; done.
  - rewrite merged_catalog_fmap, length_fmap, sorted_items_perm.
    by rewrite length_map_to_list, <-dom_build_index, size_dom.
  - apply Forall_forall. intros m Hm t Hothers.
    rewrite merged_catalog_fmap in Hm.
    apply list_elem_of_fmap in Hm as ([k s] & -> & Hks). simpl in *.
    apply elem_of_sorted_items in Hks.
    rewrite (merged_of_key _ _ _ _ _ Hks) in Hothers.
    destruct (index_entry_base _ _ _ _ _ Hks)
      as (Hk & Hs & b & t0 & Hb & _).
    rewrite (merged_of_sources s b Hb).
    rewrite (present_tags_single s t); [done| |].
    + rewrite build_index_lookup in Hks. case_decide as Hd; [|done].
      destruct Hd as [_ Hne]. subst s.
      destruct t; simpl in *.
      * destruct Hne as [?|[Hn|Hn]]; [done|..];
          [by destruct (Hn (Hothers Palka ltac:(done)))|by destruct (Hn (Hothers Tbd ltac:(done)))].
      * destruct Hne as [Hn|[?|Hn]]; [|done|];
          [by destruct (Hn (Hothers Square ltac:(done)))|by destruct (Hn (Hothers Tbd ltac:(done)))].
      * destruct Hne as [Hn|[Hn|?]]; [| |done];
          [by destruct (Hn (Hothers Square ltac:(done)))|by destruct (Hn (Hothers Palka ltac:(done)))].
    + intros t' Ht'. subst s. specialize (Hothers t' Ht').
      by destruct t'.
Qed.

(** Witness of [union_of_keys]: a lamp that only Square lists is merged
    into a row tagged square. *)
Lemma union_of_keys_witness :
  Forall (λ m : row, m !! "_merge_sources" = Some (Str "square"))
    (merged_catalog [Samples.lamp] [] []).
Proof.
  eapply Forall_impl;
    [exact (proj2 (proj2 (proj2 (union_of_keys [Samples.lamp] [] []))))|].
  intros m Hm. apply (Hm Square). by intros [].
Defined.

(** ** First-seen rows *)

Lemma head_filter_list_find {A : Type} (P : A → Prop)
    `{!∀ x, Decision (P x)} (l : list A) :
  head (filter P l) = snd <$> list_find P l.
Proof.
  induction l as [|x l IH]; [done|].
  rewrite filter_cons. simpl. case_decide; [done|].
  rewrite IH. by destruct (list_find P l) as [[i y]|].
Qed.

Lemma present_tags_first_rows (s : sources) :
  present_tags (first_rows s) = present_tags s.
Proof. by destruct s as [[|a ?] [|b ?] [|c ?]]. Qed.

Lemma best_first_rows (t : tag) (s : sources) :
  best t (first_rows s) = best t s.
Proof. by destruct t, s as [[|a ?] [|b ?] [|c ?]]. Qed.

(** The merged row reads the first row of each catalog only. *)
Lemma merge_product_first_rows (s : sources) :
  merge_product (first_rows s) = merge_product s.
Proof.
  assert (Hd : ∀ t, descriptions (first_rows s) t = descriptions s t)
    by (intros t; unfold descriptions; by rewrite best_first_rows).
  assert (Hds : ∀ t, desc_scores (first_rows s) t = desc_scores s t)
    by (intros t; unfold desc_scores; by rewrite Hd).
  assert (Hbd : best_desc_source (first_rows s) = best_desc_source s)
    by (unfold best_desc_source, Py.max_by; simpl; by rewrite !Hds).
  assert (Hst : ∀ t, seo_title (first_rows s) t = seo_title s t)
    by (intros t; unfold seo_title; by rewrite best_first_rows).
  assert (Hsd : ∀ t, seo_desc (first_rows s) t = seo_desc s t)
    by (intros t; unfold seo_desc; by rewrite best_first_rows).
  assert (Hss : ∀ t, seo_scores (first_rows s) t = seo_scores s t)
    by (intros t; unfold seo_scores; by rewrite Hst, Hsd).
  assert (Hbs : best_seo_source (first_rows s) = best_seo_source s)
    by (unfold best_seo_source, Py.max_by; simpl; by rewrite !Hss).
  assert (H1 : ∀ st, merge_description (first_rows s) st
                     = merge_description s st).
  { intros [r n]. unfold merge_description. by rewrite Hbd, Hds, Hd. }
  assert (H2 : ∀ st, merge_seo (first_rows s) st = merge_seo s st).
  { intros [r n]. unfold merge_seo. by rewrite Hbs, Hss, Hst, Hsd. }
  assert (H3 : ∀ st, merge_categories (first_rows s) st
                     = merge_categories s st).
  { intros [r n]. unfold merge_categories. by rewrite !best_first_rows. }
  assert (H4 : ∀ st, merge_metadata (first_rows s) st = merge_metadata s st).
  { intros [r n]. unfold merge_metadata.
    by rewrite present_tags_first_rows. }
  unfold merge_product, base_row. rewrite !best_first_rows.
  destruct (best Square s), (best Palka s), (best Tbd s);
    by rewrite ?H1, ?H2, ?H3, ?H4.
Qed.

Lemma rows_with_key_first_seen_go (k : string) (seen : list string)
    (df : list row) :
  rows_with_key k (first_seen_go seen df)
  = if decide (k ∈ seen) then [] else take 1 (rows_with_key k df).
Proof.
  unfold rows_with_key. revert seen.
  induction df as [|r df IH]; intros seen; simpl.
  - by case_decide.
  - rewrite (filter_cons _ r df).
    destruct (decide (key_of r ∈ seen)) as [Hr|Hr].
    + rewrite IH. destruct (decide (k ∈ seen)) as [Hk|Hk]; [done|].
      rewrite decide_False; [done|]. intros Heq. by subst k.
    + rewrite filter_cons. destruct (decide (key_of r = k)) as [<-|Hne].
      * rewrite IH, decide_True by left. by rewrite decide_False.
      * rewrite IH. destruct (decide (k ∈ seen)) as [Hk|Hk].
        -- by rewrite decide_True by (by right).
        -- rewrite decide_False; [done|].
           by intros [?|?]%elem_of_cons.
Qed.

Lemma rows_with_key_first_seen (k : string) (df : list row) :
  rows_with_key k (first_seen df) = take 1 (rows_with_key k df).
Proof.
  unfold first_seen. rewrite rows_with_key_first_seen_go.
  rewrite decide_False; [done|]. apply not_elem_of_nil.
Qed.

Lemma take_1_nil_iff {A : Type} (l : list A) : take 1 l ≠ [] ↔ l ≠ [].
Proof. by destruct l. Qed.

(** Indexing the de-duplicated catalogs gives the index entries cut down to
    their first rows. *)
Lemma build_index_first_seen (sq pk tb : list row) :
  build_index (first_seen sq) (first_seen pk) (first_seen tb)
  = first_rows <$> build_index sq pk tb.
Proof.
  apply map_eq. intros k.
  rewrite lookup_fmap, !build_index_lookup, !rows_with_key_first_seen.
  destruct (decide (k ≠ ""
                    ∧ (rows_with_key k sq ≠ [] ∨ rows_with_key k pk ≠ []
                       ∨ rows_with_key k tb ≠ []))) as [Hd|Hd].
  - rewrite decide_True; [done|]. by rewrite !take_1_nil_iff.
  - rewrite decide_False; [done|]. by rewrite !take_1_nil_iff.
Qed.

#[local] Instance item_le_trans : Transitive item_le.
Proof. intros x y z. unfold item_le. apply transitivity. Qed.

#[local] Instance item_le_total : Total item_le.
Proof. intros x y. unfold item_le. apply total, _. Qed.

(** Sorting the items by name commutes with a change of the entries. *)
Lemma sorted_items_fmap (f : sources → sources) (idx : gmap string sources) :
  sorted_items (f <$> idx) = prod_map id f <$> sorted_items idx.
Proof.
  apply (Sorted_unique_strong item_le).
  - intros [k1 s1] [k2 s2] H1 H2 Hle1 Hle2.
    unfold item_le in *. simpl in *.
    assert (k1 = k2) as -> by (by apply (anti_symm String.le)).
    f_equal. apply (map_to_list_unique (f <$> idx) k2).
    + by rewrite <-sorted_items_perm.
    + rewrite map_to_list_fmap. by rewrite <-sorted_items_perm.
  - apply (Sorted_merge_sort item_le).
  - eapply Sorted_fmap; [|apply (Sorted_merge_sort item_le)].
    by intros [k1 s1] [k2 s2].
  - rewrite sorted_items_perm, map_to_list_fmap.
    by rewrite <-sorted_items_perm.
Qed.

(** C6. For every name in the index and every catalog, the row the merge
    uses is the first row of that catalog with that normalized name; the
    merged row is the same when the later rows are removed from the entry,
    and the whole merged catalog is the same when every catalog is first
    stripped of the rows whose normalized name an earlier row already has. *)
Theorem first_seen_row_wins (sq pk tb : list row) :
  (∀ k s, build_index sq pk tb !! k = Some s →
          (∀ t, best t s
                = snd <$> list_find (λ r, key_of r = k) (table sq pk tb t))
          ∧ merge_product s = merge_product (first_rows s))
  ∧ merged_catalog sq pk tb
    = merged_catalog (first_seen sq) (first_seen pk) (first_seen tb).
Proof.
  split.
  - intros k s Hks. split; [|by rewrite merge_product_first_rows].
    apply index_entry_base in Hks as (_ & -> & _).
    intros t. unfold best.
    destruct t; simpl; apply head_filter_list_find.
  - unfold merged_catalog, merge_loop.
    rewrite build_index_first_seen, sorted_items_fmap.
    induction (sorted_items (build_index sq pk tb)) as [|[k s] l IH];
      [done|].
    simpl. rewrite merge_product_first_rows.
    destruct (merge_product s); [f_equal|]; apply IH.
Qed.

(** Witness of [first_seen_row_wins]: a second lamp row in Square's catalog
    does not change the merged catalog. *)
Lemma first_seen_row_wins_witness :
  merged_catalog [Samples.lamp; Samples.lamp_again] [] []
  = merged_catalog (first_seen [Samples.lamp; Samples.lamp_again])
      (first_seen []) (first_seen []).
Proof.
  exact (proj2 (first_seen_row_wins [Samples.lamp; Samples.lamp_again] [] [])).
Defined.

(** ** The value validator *)

Import ValueValidator.

Lemma check_value_app (df : dataframe) (errors : list problem)
    (item : string * string) :
  check_value df errors item = errors ++ value_problems df item.
Proof.
  unfold value_problems, check_value. destruct item as [field expected].
  repeat case_decide; simpl; by rewrite ?app_nil_r.
Qed.

(** The loop over the required values only ever appends. *)
Lemma fold_check_value (df : dataframe) (items : list (string * string))
    (errors : list problem) :
  fold_left (check_value df) items errors
  = errors ++ (items ≫= value_problems df).
Proof.
  revert errors. induction items as [|item items IH]; intros errors; simpl.
  - by rewrite app_nil_r.
  - by rewrite IH, check_value_app, <-app_assoc.
Qed.

(** The list of problems is the header problem, if any, followed by the
    problems of the four required values in their order. *)
Lemma collect_errors_eq (df : dataframe) :
  collect_errors df
  = check_headers df [] ++ (REQUIRED_VALUES ≫= value_problems df).
Proof. apply fold_check_value. Qed.

Lemma elem_of_sorted (names : gset string) (c : string) :
  c ∈ sorted names ↔ c ∈ names.
Proof.
  unfold sorted. by rewrite merge_sort_Permutation, elem_of_elements.
Qed.

Lemma elem_of_missing_headers (df : dataframe) (c : string) :
  c ∈ missing_headers df ↔ c ∈ REQUIRED_COLUMNS ∧ c ∉ columns df.
Proof.
  unfold missing_headers.
  by rewrite elem_of_difference, elem_of_list_to_set.
Qed.

Lemma missing_header_reported (df : dataframe) (c : string) :
  c ∈ REQUIRED_COLUMNS → c ∉ columns df →
  MissingHeaders (sorted (missing_headers df)) ∈ collect_errors df
  ∧ c ∈ sorted (missing_headers df).
Proof.
  intros Hreq Hc.
  assert (Hm : c ∈ missing_headers df).
  { apply elem_of_missing_headers. split; assumption. }
  split; [|by apply elem_of_sorted].
  rewrite collect_errors_eq, elem_of_app. left.
  unfold check_headers. rewrite decide_True; [by left|].
  intros He. rewrite He in Hm. by apply not_elem_of_empty in Hm.
Qed.

Lemma value_problem_reported (df : dataframe) (field expected : string)
    (p : problem) :
  (field, expected) ∈ REQUIRED_VALUES →
  p ∈ value_problems df (field, expected) →
  p ∈ collect_errors df.
Proof.
  intros Hitem Hp. rewrite collect_errors_eq, elem_of_app. right.
  apply list_elem_of_bind. by exists (field, expected).
Qed.

Lemma token_required : "Token" ∈ REQUIRED_COLUMNS.
Proof. apply (bool_decide_unpack _). vm_compute. exact I. Qed.

Lemma sold_online_required : ("Sold Online", "Y") ∈ REQUIRED_VALUES.
Proof. apply (bool_decide_unpack _). vm_compute. exact I. Qed.

(** C9. The validator runs both checks to the end and keeps every problem
    in one list: the missing-header problem names every required column the
    table lacks; each of the four required values whose column exists
    without the expected text among its distinct non-null stripped values,
    and each whose column is missing, adds its own problem; all problems are
    printed.  A table without a Token column whose Sold Online column holds
    only N is reported for both. *)
Theorem validator_reports_all (df : dataframe) :
  (∀ c, c ∈ REQUIRED_COLUMNS → c ∉ columns df →
        MissingHeaders (sorted (missing_headers df)) ∈ collect_errors df
        ∧ c ∈ sorted (missing_headers df))
  ∧ (∀ field expected,
        (field, expected) ∈ REQUIRED_VALUES →
        field ∈ columns df → expected ∉ values df field →
        UnexpectedValue expected field (values df field) ∈ collect_errors df)
  ∧ (∀ field expected,
        (field, expected) ∈ REQUIRED_VALUES → field ∉ columns df →
        MissingColumn field ∈ collect_errors df)
  ∧ (∀ p, p ∈ collect_errors df → Problem p ∈ validate_values df)
  ∧ ("Token" ∉ columns df → "Sold Online" ∈ columns df →
     (∀ v, v ∈ values df "Sold Online" → v = "N") →
     Problem (MissingHeaders (sorted (missing_headers df)))
       ∈ validate_values df
     ∧ "Token" ∈ sorted (missing_headers df)
     ∧ Problem (UnexpectedValue "Y" "Sold Online" (values df "Sold Online"))
         ∈ validate_values df).
Proof.
  assert (Hunexpected : ∀ field expected,
    (field, expected) ∈ REQUIRED_VALUES →
    field ∈ columns df → expected ∉ values df field →
    UnexpectedValue expected field (values df field) ∈ collect_errors df).
  { intros field expected Hitem Hcol Hval.
    apply (value_problem_reported df field expected); [done|].
    unfold value_problems, check_value.
    rewrite decide_True, decide_False by done. by left. }
  assert (Hprinted : ∀ p, p ∈ collect_errors df →
                          Problem p ∈ validate_values df).
  { intros p Hp. unfold validate_values.
    rewrite decide_True.
    - apply list_elem_of_fmap. by exists p.
    - intros He. rewrite He in Hp. by apply elem_of_nil in Hp. }
  split; [apply missing_header_reported|].
  split; [done|]. split; [|split; [done|]].
  - intros field expected Hitem Hcol.
    apply (value_problem_reported df field expected); [done|].
    unfold value_problems, check_value.
    rewrite decide_False by done. by left.
  - intros Htoken Hsold Honly.
    destruct (missing_header_reported df "Token" token_required Htoken)
      as [Hm Ht].
    split; [by apply Hprinted|]. split; [done|].
    apply Hprinted, Hunexpected; [apply sold_online_required|done|].
    intros HY. by apply Honly in HY.
Qed.

(** Witness of [validator_reports_all]: the sample table lacks Token and
    sells nothing online; both problems are printed. *)
Lemma validator_reports_all_witness :
  Problem (MissingHeaders (sorted (missing_headers Samples.not_sold_online)))
    ∈ validate_values Samples.not_sold_online
  ∧ "Token" ∈ sorted (missing_headers Samples.not_sold_online)
  ∧ Problem (UnexpectedValue "Y" "Sold Online"
               (values Samples.not_sold_online "Sold Online"))
      ∈ validate_values Samples.not_sold_online.
Proof.
  apply (validator_reports_all Samples.not_sold_online).
  - apply (bool_decide_unpack _). vm_compute. exact I.
  - apply (bool_decide_unpack _). vm_compute. exact I.
  - assert (values Samples.not_sold_online "Sold Online" = ["N"]) as ->
      by reflexivity.
    by intros v ->%list_elem_of_singleton.
Defined.

(** ** The manual SEO patch *)

Import ManualSeo.

Lemma mask_rows (df : dataframe) (name : string) :
  "Item Name" ∈ columns df →
  mask df name
  = Some ((λ r, bool_decide (names_product name r)) <$> rows df).
Proof.
  intros Hcol. unfold mask, column. rewrite decide_True by done.
  by rewrite <-list_fmap_compose.
Qed.

Lemma first_index_find {A : Type} (P : A → Prop) `{!∀ x, Decision (P x)}
    (l : list A) :
  first_index ((λ x, bool_decide (P x)) <$> l) = fst <$> list_find P l.
Proof.
  unfold first_index. rewrite list_find_fmap.
  induction l as [|x l IH]; [done|]. csimpl.
  destruct (decide (P x)) as [HP|HP].
  - rewrite decide_True; [done|]. by apply bool_decide_eq_true_2.
  - rewrite decide_False; [|by rewrite bool_decide_eq_false_2].
    revert IH.
    destruct (list_find _ l) as [[i y]|], (list_find P l) as [[j z]|];
      simpl; intros [=]; by subst.
Qed.

Lemma patch_frame (now : string) (update : seo_update) (r : row)
    (f : string) :
  f ∉ seo_columns → patch now update r !! f = r !! f.
Proof.
  unfold seo_columns. rewrite !not_elem_of_cons.
  intros (? & ? & ? & ? & _). unfold patch.
  by rewrite !lookup_insert_ne.
Qed.

Lemma rows_set_cell (df : dataframe) (idx : nat) (c : string) (v : cell) :
  rows (set_cell df idx c v) = alter (λ r : row, <[c := v]> r) idx (rows df).
Proof. done. Qed.

Lemma columns_set_cell (df : dataframe) (idx : nat) (c c' : string)
    (v : cell) :
  c' ∈ columns df → c' ∈ columns (set_cell df idx c v).
Proof.
  intros Hc. unfold set_cell; simpl. case_decide; [done|].
  apply elem_of_app. by left.
Qed.

(** An entry that names some row patches the first such row. *)
Lemma apply_update_found (now : string) (df : dataframe) (count : nat)
    (out : list report) (u : seo_update) (i : nat) (r : row) :
  "Item Name" ∈ columns df →
  list_find (names_product (name u)) (rows df) = Some (i, r) →
  ∃ df', apply_update now (df, count, out) u
         = Some (df', S count,
                 out ++ [Updated (name u) (seo_title u) (seo_description u)])
         ∧ rows df' = alter (patch now u) i (rows df)
         ∧ ∀ c, c ∈ columns df → c ∈ columns df'.
Proof.
  intros Hcol Hfind. unfold apply_update.
  rewrite (mask_rows df (name u) Hcol), first_index_find, Hfind. simpl.
  eexists. split; [reflexivity|]. split.
  - rewrite !rows_set_cell, !list_alter_alter_eq. done.
  - intros c Hc. by do 4 apply columns_set_cell.
Qed.

(** An entry that names no row leaves the table as it is. *)
Lemma apply_update_not_found (now : string) (df : dataframe) (count : nat)
    (out : list report) (u : seo_update) :
  "Item Name" ∈ columns df →
  list_find (names_product (name u)) (rows df) = None →
  apply_update now (df, count, out) u
  = Some (df, count, out ++ [NotFound (name u)]).
Proof.
  intros Hcol Hfind. unfold apply_update.
  by rewrite (mask_rows df (name u) Hcol), first_index_find, Hfind.
Qed.

(** C10. One entry of the update list, on a table with an Item Name column:
    when no row's Item Name is exactly the entry's name the table is
    unchanged and the miss is printed; otherwise only the first such row
    changes, and in it only SEO Title, SEO Description, _seo_keywords and
    _seo_updated, which receive the entry's values and the time stamp; all
    other rows and all other cells of that row are as before, no row or
    column is lost, and the update is printed and counted. *)
Theorem seo_patch_frame (now : string) (df : dataframe) (count : nat)
    (out : list report) (u : seo_update) :
  "Item Name" ∈ columns df →
  ∃ df' count' out',
    apply_update now (df, count, out) u = Some (df', count', out')
    ∧ ((∀ r, r ∈ rows df → ¬ names_product (name u) r) →
       df' = df ∧ count' = count ∧ out' = out ++ [NotFound (name u)])
    ∧ (∀ i r,
         rows df !! i = Some r →
         names_product (name u) r →
         (∀ j r', rows df !! j = Some r' → (j < i)%nat →
                  ¬ names_product (name u) r') →
         length (rows df') = length (rows df)
         ∧ (∀ j, j ≠ i → rows df' !! j = rows df !! j)
         ∧ (∃ r', rows df' !! i = Some r'
                  ∧ (∀ f, f ∉ seo_columns → r' !! f = r !! f)
                  ∧ r' !! "SEO Title" = Some (Str (seo_title u))
                  ∧ r' !! "SEO Description" = Some (Str (seo_description u))
                  ∧ r' !! "_seo_keywords" = Some (Str (keywords u))
                  ∧ r' !! "_seo_updated" = Some (Str now))
         ∧ (∀ c, c ∈ columns df → c ∈ columns df')
         ∧ count' = S count
         ∧ out' = out ++ [Updated (name u) (seo_title u)
                            (seo_description u)]).
Proof.
  intros Hcol.
  destruct (list_find (names_product (name u)) (rows df)) as [[i0 r0]|]
    eqn:Hfind.
  - destruct (apply_update_found now df count out u i0 r0 Hcol Hfind)
      as (df' & Happly & Hrows & Hcols).
    exists df', (S count),
      (out ++ [Updated (name u) (seo_title u) (seo_description u)]).
    split; [done|].
    apply list_find_Some in Hfind as (Hi0 & Hr0 & Hfirst).
    split.
    + intros Hnone. destruct (Hnone r0); [|done].
      by apply list_elem_of_lookup_2 with i0.
    + intros i r Hi Hr Hmin.
      assert (i = i0) as ->.
      { destruct (Nat.lt_trichotomy i i0) as [Hlt|[?|Hlt]]; [|done|].
        - by destruct (Hfirst i r Hi Hlt).
        - by destruct (Hmin i0 r0 Hi0 Hlt). }
      assert (r0 = r) as -> by congruence.
      rewrite Hrows. split; [apply length_alter|].
      split; [intros j Hj; by apply list_lookup_alter_ne|].
      split; [|done].
      exists (patch now u r). rewrite list_lookup_alter_eq, Hi.
      split; [done|]. split; [intros f Hf; by apply patch_frame|].
      unfold patch. repeat split.
      * by rewrite !lookup_insert_ne, lookup_insert_eq by done.
      * by rewrite !lookup_insert_ne, lookup_insert_eq by done.
      * by rewrite !lookup_insert_ne, lookup_insert_eq by done.
      * by rewrite lookup_insert_eq.
  - exists df, count, (out ++ [NotFound (name u)]).
    split; [by apply apply_update_not_found|].
    split; [done|].
    intros i r Hi Hr _. apply list_find_None in Hfind.
    rewrite Forall_forall in Hfind. destruct (Hfind r); [|done].
    by apply list_elem_of_lookup_2 with i.
Qed.

(** Witness of [seo_patch_frame]: patching the sample catalog with the
    sunset-lamp entry succeeds. *)
Lemma seo_patch_frame_witness :
  ∃ st, apply_update "2025-08-03T16:27:00" (Samples.catalog, 0%nat, [])
          Samples.sunset_lamp = Some st.
Proof.
  destruct (seo_patch_frame "2025-08-03T16:27:00" Samples.catalog 0%nat []
              Samples.sunset_lamp) as (df' & count' & out' & Happly & _).
  - apply (bool_decide_unpack _). vm_compute. exact I.
  - by exists (df', count', out').
Defined.

(** The second lamp row of the sample catalog keeps its cells; the first
    one gets the new SEO title and keeps its SKU. *)
Example seo_patch_sample :
  (λ st : state,
     (λ r : row, (r !! "SKU", r !! "SEO Title")) <$> rows st.1.1)
  <$> apply_update "2025-08-03T16:27:00" (Samples.catalog, 0%nat, [])
        Samples.sunset_lamp
  = Some [ (Some (Str "P-7"), None);
           (Some (Str "L-16"),
            Some (Str "16-Color Sunset Projection Lamp | RGB Mood Lighting"));
           (Some (Str "L-16b"), None) ].
Proof. vm_compute. reflexivity. Qed.

(** The loop never raises on a table with an Item Name column. *)
Lemma run_updates_total (clock : nat → string) (updates : list seo_update)
    (i : nat) (st : state) :
  "Item Name" ∈ columns st.1.1 →
  ∃ st', run_updates clock i updates st = Some st'
         ∧ "Item Name" ∈ columns st'.1.1.
Proof.
  revert i st. induction updates as [|u updates IH]; intros i st Hcol.
  - by exists st.
  - destruct st as [[df count] out]. simpl in Hcol. cbn [run_updates].
    destruct (list_find (names_product (name u)) (rows df)) as [[j r]|]
      eqn:Hfind.
    + destruct (apply_update_found (clock i) df count out u j r Hcol Hfind)
        as (df' & -> & _ & Hcols).
      apply IH. simpl. by apply Hcols.
    + rewrite (apply_update_not_found (clock i) df count out u Hcol Hfind).
      by apply IH.
Qed.

(** * Further properties of the merge *)

(** ** What the SEO and description blocks write *)

Lemma seo_scores_nonneg (s : sources) (t : tag) : 0 ≤ seo_scores s t.
Proof.
  unfold seo_scores. rewrite evaluate_seo_parts.
  pose proof (seo_part_nonneg (MergedCatalog.seo_title s t)).
  pose proof (seo_part_nonneg (MergedCatalog.seo_desc s t)). lia.
Qed.

Lemma desc_scores_nonneg (s : sources) (t : tag) : 0 ≤ desc_scores s t.
Proof.
  unfold desc_scores, evaluate_description.
  pose proof (len_nonneg (Py.str (descriptions s t))).
  repeat case_match; lia.
Qed.

(** The SEO cells of the merged row are those the SEO block leaves. *)
Lemma merged_seo_cells (s : sources) (merged b : row) (f : string) :
  merge_product s = Some merged → base_row s = Some b →
  f = "SEO Title" ∨ f = "SEO Description" →
  merged !! f = (merge_seo s (b, [])).1 !! f.
Proof.
  intros Hm Hb Hf. apply merge_product_Some in Hm as (b' & Hb' & ->).
  assert (b' = b) as -> by congruence.
  rewrite merge_metadata_frame, merge_categories_frame
    by (destruct Hf as [-> | ->]; done).
  destruct (merge_description s (b, [])) as [r n] eqn:Hd.
  assert (Hr : r !! f = b !! f).
  { change r with (r, n).1. rewrite <-Hd.
    apply merge_description_frame. destruct Hf as [-> | ->]; done. }
  unfold merge_seo. destruct (0 <? _); simpl.
  - destruct Hf as [-> | ->].
    + rewrite !(lookup_insert_ne _ "SEO Description" "SEO Title") by done.
      by rewrite !lookup_insert_eq.
    + by rewrite !lookup_insert_eq.
  - done.
Qed.

(** X1. The SEO title and the SEO description of a merged row always come
    from one catalog: the first catalog, in the order square, palka, tbd,
    with the highest SEO score gives both when that score is positive (no
    catalog scores higher, every earlier catalog scores lower), and
    otherwise (all three scores are zero) both stay as in the base row. *)
Theorem seo_pair_copied_as_unit (s : sources) (merged b : row) :
  merge_product s = Some merged →
  base_row s = Some b →
  (0 < seo_scores s (best_seo_source s) →
     merged !! "SEO Title" = Some (MergedCatalog.seo_title s (best_seo_source s))
     ∧ merged !! "SEO Description" = Some (MergedCatalog.seo_desc s (best_seo_source s))
     ∧ (∀ t, seo_scores s t ≤ seo_scores s (best_seo_source s))
     ∧ (∀ t, (rank t < rank (best_seo_source s))%nat →
             seo_scores s t < seo_scores s (best_seo_source s))
     ∧ ∀ t, (∀ t', seo_scores s t' ≤ seo_scores s t) →
            (∀ t', (rank t' < rank t)%nat → seo_scores s t' < seo_scores s t) →
            merged !! "SEO Title" = Some (MergedCatalog.seo_title s t)
            ∧ merged !! "SEO Description" = Some (MergedCatalog.seo_desc s t))
  ∧ (seo_scores s (best_seo_source s) ≤ 0 →
     merged !! "SEO Title" = b !! "SEO Title"
     ∧ merged !! "SEO Description" = b !! "SEO Description"
     ∧ ∀ t, seo_scores s t = 0).
Proof.
  intros Hm Hb.
  pose proof (merged_seo_cells s merged b "SEO Title" Hm Hb) as Ht.
  pose proof (merged_seo_cells s merged b "SEO Description" Hm Hb) as Hd.
  rewrite Ht, Hd by auto. unfold merge_seo. split.
  - intros Hpos. apply Z.ltb_lt in Hpos as Hpos'. rewrite Hpos'. simpl.
    assert (Htitle :
      <["SEO Description" := MergedCatalog.seo_desc s (best_seo_source s)]>
        (<["SEO Title" := MergedCatalog.seo_title s (best_seo_source s)]> b)
        !! "SEO Title"
      = Some (MergedCatalog.seo_title s (best_seo_source s)))
      by (by rewrite lookup_insert_ne, lookup_insert_eq).
    assert (Hdesc :
      <["SEO Description" := MergedCatalog.seo_desc s (best_seo_source s)]>
        (<["SEO Title" := MergedCatalog.seo_title s (best_seo_source s)]> b)
        !! "SEO Description"
      = Some (MergedCatalog.seo_desc s (best_seo_source s)))
      by (by rewrite lookup_insert_eq).
    split; [exact Htitle|]. split; [exact Hdesc|].
    split; [apply best_seo_source_maximal|].
    split; [apply best_seo_source_first|].
    intros t Hmax Hfirst.
    assert (t = best_seo_source s) as ->; [|by split].
    apply (first_maximal_unique (seo_scores s)); [done..| |].
    + apply best_seo_source_maximal.
    + apply best_seo_source_first.
  - intros Hle.
    assert (Hle' : (0 <? seo_scores s (best_seo_source s)) = false)
      by (apply Z.ltb_nlt; lia).
    rewrite Hle'. simpl. split; [done|]. split; [done|]. intros t.
    pose proof (best_seo_source_maximal s t).
    pose proof (seo_scores_nonneg s t). lia.
Qed.

(** Witness of [seo_pair_copied_as_unit]: the Square-only lamp with a title
    and no SEO description; Palka and TBD, without a row, tie above Square,
    and the pair is Palka's. *)
Lemma seo_pair_copied_as_unit_witness :
  ∃ merged, merge_product Samples.titled_only = Some merged
            ∧ merged !! "SEO Title"
              = Some (MergedCatalog.seo_title Samples.titled_only Palka)
            ∧ merged !! "SEO Description"
              = Some (MergedCatalog.seo_desc Samples.titled_only Palka).
Proof.
  eexists. split; [reflexivity|].
  apply (proj1 (seo_pair_copied_as_unit Samples.titled_only _ Samples.titled
                  eq_refl eq_refl)); [reflexivity|..].
  - intros []; vm_compute; discriminate.
  - intros []; vm_compute; first [reflexivity | intros H; inversion H; fail | lia].
Defined.

(** The description cell of the merged row is the one the description block
    leaves. *)
Lemma merged_description_cell (s : sources) (merged b : row) :
  merge_product s = Some merged → base_row s = Some b →
  merged !! "Description" = (merge_description s (b, [])).1 !! "Description".
Proof.
  intros Hm Hb. apply merge_product_Some in Hm as (b' & Hb' & ->).
  assert (b' = b) as -> by congruence.
  by rewrite merge_metadata_frame, merge_categories_frame, merge_seo_frame.
Qed.

(** A catalog without a row for the product offers the empty description,
    which scores nothing. *)
Lemma desc_scores_absent (s : sources) (t : tag) :
  best t s = None → desc_scores s t = 0.
Proof.
  intros Hb. unfold desc_scores, descriptions. by rewrite Hb.
Qed.

(** X2. The description of a merged row is the best-scoring candidate of
    the first catalog that has it: when some catalog's description scores
    above zero, the merged row takes the description of the first catalog,
    in the order square, palka, tbd, with the highest score (no catalog
    scores higher, every earlier catalog scores lower), and that catalog has
    a row for the product; when every candidate scores zero the description
    of the base row stays. *)
Theorem best_description_written (s : sources) (merged b : row) :
  merge_product s = Some merged →
  base_row s = Some b →
  (0 < desc_scores s (best_desc_source s) →
     merged !! "Description" = Some (descriptions s (best_desc_source s))
     ∧ (∀ t, evaluate_description (descriptions s t)
             ≤ evaluate_description (descriptions s (best_desc_source s)))
     ∧ (∀ t, (rank t < rank (best_desc_source s))%nat →
             evaluate_description (descriptions s t)
             < evaluate_description (descriptions s (best_desc_source s)))
     ∧ (∀ t, (∀ t', desc_scores s t' ≤ desc_scores s t) →
             (∀ t', (rank t' < rank t)%nat →
                    desc_scores s t' < desc_scores s t) →
             merged !! "Description" = Some (descriptions s t))
     ∧ ∃ r, best (best_desc_source s) s = Some r
            ∧ descriptions s (best_desc_source s) = Py.get r "Description")
  ∧ (desc_scores s (best_desc_source s) ≤ 0 →
     merged !! "Description" = b !! "Description"
     ∧ ∀ t, desc_scores s t = 0).
Proof.
  intros Hm Hb. rewrite (merged_description_cell s merged b Hm Hb).
  unfold merge_description. split.
  - intros Hpos. apply Z.ltb_lt in Hpos as Hpos'. rewrite Hpos'. simpl.
    split; [by rewrite lookup_insert_eq|].
    split; [apply best_desc_source_maximal|].
    split; [apply best_desc_source_first|].
    split.
    { intros t Hmax Hfirst.
      assert (t = best_desc_source s) as ->;
        [|by rewrite lookup_insert_eq].
      apply (first_maximal_unique (desc_scores s)); [done..| |].
      - apply best_desc_source_maximal.
      - apply best_desc_source_first. }
    destruct (best (best_desc_source s) s) as [r|] eqn:Hr.
    + exists r. split; [done|]. unfold descriptions. by rewrite Hr.
    + apply desc_scores_absent in Hr. lia.
  - intros Hle.
    assert (Hle' : (0 <? desc_scores s (best_desc_source s)) = false)
      by (apply Z.ltb_nlt; lia).
    rewrite Hle'. simpl. split; [done|]. intros t.
    pose proof (best_desc_source_maximal s t).
    pose proof (desc_scores_nonneg s t). lia.
Qed.

(** Witness of [best_description_written]: Square and Palka describe the
    lamp alike, their scores tie, and the description written is Square's. *)
Lemma best_description_written_witness :
  ∃ merged, merge_product Samples.lamp_twice = Some merged
            ∧ merged !! "Description"
              = Some (descriptions Samples.lamp_twice Square).
Proof.
  eexists. split; [reflexivity|].
  apply (proj1 (best_description_written Samples.lamp_twice _ Samples.lamp
                  eq_refl eq_refl)); [reflexivity|..].
  - intros []; vm_compute; discriminate.
  - intros [] H; simpl in H; lia.
Defined.

(** ** Catalogs without a row for the product *)

(** A catalog without a row offers the pair of empty texts, and
    [evaluate_seo] counts each of them as present. *)
Lemma seo_scores_absent (s : sources) (t : tag) :
  best t s = None → seo_scores s t = 200.
Proof.
  intros Hb. unfold seo_scores, MergedCatalog.seo_title,
    MergedCatalog.seo_desc. by rewrite Hb.
Qed.

Lemma best_None_rows (t : tag) (s : sources) :
  best t s = None ↔ rows_of t s = [].
Proof. unfold best. apply head_None. Qed.

(** X3. When some catalog has no row for a product, that catalog enters the
    SEO contest with 200 points.  The SEO block then always assigns: the
    winner scores at least 200, a catalog whose own pair scores less than
    200 never wins, and when the winner is a catalog without a row the
    merged row gets the empty text as SEO title and as SEO description. *)
Theorem absent_catalog_in_seo_contest (s : sources) (t : tag)
    (merged : row) :
  merge_product s = Some merged →
  rows_of t s = [] →
  seo_scores s t = 200
  ∧ 200 ≤ seo_scores s (best_seo_source s)
  ∧ (∀ t', seo_scores s t' < 200 → best_seo_source s ≠ t')
  ∧ merged !! "SEO Title"
    = Some (MergedCatalog.seo_title s (best_seo_source s))
  ∧ merged !! "SEO Description"
    = Some (MergedCatalog.seo_desc s (best_seo_source s))
  ∧ (rows_of (best_seo_source s) s = [] →
     merged !! "SEO Title" = Some (Str "")
     ∧ merged !! "SEO Description" = Some (Str "")).
Proof.
  intros Hm Ht. apply best_None_rows in Ht.
  pose proof (seo_scores_absent s t Ht) as H200.
  pose proof (best_seo_source_maximal s t) as Hmax.
  assert (Hpos : (0 <? seo_scores s (best_seo_source s)) = true)
    by (apply Z.ltb_lt; lia).
  apply merge_product_Some in Hm as (b & Hb & Hmerged).
  assert (Hm : merge_product s = Some merged)
    by (apply merge_product_Some; by exists b).
  assert (Htitle : merged !! "SEO Title"
                   = Some (MergedCatalog.seo_title s (best_seo_source s))).
  { rewrite (merged_seo_cells s merged b "SEO Title" Hm Hb) by auto.
    unfold merge_seo. rewrite Hpos. simpl.
    by rewrite lookup_insert_ne, lookup_insert_eq. }
  assert (Hdesc : merged !! "SEO Description"
                  = Some (MergedCatalog.seo_desc s (best_seo_source s))).
  { rewrite (merged_seo_cells s merged b "SEO Description" Hm Hb) by auto.
    unfold merge_seo. rewrite Hpos. simpl. by rewrite lookup_insert_eq. }
  split; [done|]. split; [lia|].
  split; [intros t' Hlt Heq; subst t'; lia|].
  split; [done|]. split; [done|].
  intros Hw. apply best_None_rows in Hw. rewrite Htitle, Hdesc.
  unfold MergedCatalog.seo_title, MergedCatalog.seo_desc. by rewrite Hw.
Qed.

(** Witness of [absent_catalog_in_seo_contest]: Palka has no row for the
    lamp that only Square lists. *)
Lemma absent_catalog_in_seo_contest_witness :
  seo_scores Samples.titled_only Palka = 200.
Proof.
  refine (proj1 (absent_catalog_in_seo_contest Samples.titled_only Palka
                   (merged_of Samples.titled_only) _ eq_refl)).
  reflexivity.
Defined.

(** ** The provenance cells *)

#[local] Instance tag_name_inj : Inj (=) (=) tag_name.
Proof. by intros [] [] H. Qed.

Lemma elem_of_present_tags (s : sources) (t : tag) :
  tag_name t ∈ present_tags s ↔ rows_of t s ≠ [].
Proof.
  unfold present_tags. rewrite (list_elem_of_fmap_inj tag_name).
  rewrite list_elem_of_filter. split; [by intros [? _]|].
  intros Hne. split; [done|]. destruct t; set_solver.
Qed.

Lemma present_tags_sublist (s : sources) :
  present_tags s `sublist_of` ["square"; "palka"; "tbd"].
Proof.
  unfold present_tags.
  change ["square"; "palka"; "tbd"] with (tag_name <$> [Square; Palka; Tbd]).
  apply fmap_sublist, sublist_filter.
Qed.

(** X4. The _merge_sources cell of the merged row of a product is the
    comma-separated list of the catalogs that have a row with the product's
    normalized name: a catalog's tag is listed exactly when the catalog has
    such a row, at least one tag is listed, and the tags come in the order
    square, palka, tbd. *)
Theorem merge_sources_lists_catalogs (sq pk tb : list row) (k : string)
    (s : sources) :
  build_index sq pk tb !! k = Some s →
  ∃ merged,
    merge_product s = Some merged
    ∧ merged !! "_merge_sources" = Some (Str (Py.join ", " (present_tags s)))
    ∧ (∀ t, tag_name t ∈ present_tags s ↔ k ∈ key_of <$> table sq pk tb t)
    ∧ present_tags s `sublist_of` ["square"; "palka"; "tbd"]
    ∧ present_tags s ≠ [].
Proof.
  intros Hks.
  destruct (index_entry_base _ _ _ _ _ Hks)
    as (Hk & Hs & b & t0 & Hb & Ht0 & _).
  exists (merged_of s). split; [by apply merge_product_base with b|].
  split; [by apply merged_of_sources with b|].
  split; [|split; [apply present_tags_sublist|]].
  - intros t. rewrite elem_of_present_tags, <-rows_with_key_nonempty.
    subst s. by destruct t.
  - assert (Hin : tag_name t0 ∈ present_tags s).
    { apply elem_of_present_tags. unfold best in Ht0.
      intros Hnil. by rewrite Hnil in Ht0. }
    intros Hnil. rewrite Hnil in Hin. by apply elem_of_nil in Hin.
Qed.

(** Witness of [merge_sources_lists_catalogs]: the crystal that all three
    catalogs list. *)
Lemma merge_sources_lists_catalogs_witness :
  ∃ merged,
    merge_product
      (Sources (rows_with_key "crystal" [Samples.crystal_square])
         (rows_with_key "crystal" [Samples.crystal_palka])
         (rows_with_key "crystal" [Samples.crystal_tbd])) = Some merged.
Proof.
  destruct (merge_sources_lists_catalogs [Samples.crystal_square]
              [Samples.crystal_palka] [Samples.crystal_tbd] "crystal"
              (Sources (rows_with_key "crystal" [Samples.crystal_square])
                 (rows_with_key "crystal" [Samples.crystal_palka])
                 (rows_with_key "crystal" [Samples.crystal_tbd])))
    as (merged & Hm & _).
  - rewrite build_index_lookup. apply decide_True.
    split; [done|]. left. apply rows_with_key_nonempty, list_elem_of_fmap.
    exists Samples.crystal_square. split; [reflexivity|left].
  - by exists merged.
Defined.

(** ** The counters of the merge loop *)

Lemma fold_merge_iteration (l : list (string * sources)) (cat : list row)
    (count processed : nat) :
  (∀ item, item ∈ l → merge_product item.2 = Some (merged_of item.2)) →
  fold_left merge_iteration l (cat, count, processed)
  = (cat ++ ((λ item, merged_of item.2) <$> l),
     (count + length (filter (λ item : string * sources,
                                1 < length (square item.2)
                                    + length (palka item.2)
                                    + length (tbd item.2))%nat l))%nat,
     (processed + length l)%nat).
Proof.
  revert cat count processed.
  induction l as [|item l IH]; intros cat count processed Hl.
  - simpl. by rewrite app_nil_r, !Nat.add_0_r.
  - cbn [fold_left]. unfold merge_iteration at 2.
    rewrite (Hl item) by left.
    rewrite IH by (intros item' Hitem'; apply Hl; by right).
    rewrite fmap_cons, filter_cons, <-app_assoc. simpl.
    case_decide; simpl; repeat f_equal; lia.
Qed.

Lemma length_filter_fmap {A B : Type} (f : A → B) (P : B → Prop)
    (Q : A → Prop) `{!∀ y, Decision (P y)} `{!∀ x, Decision (Q x)}
    (l : list A) :
  (∀ x, x ∈ l → P (f x) ↔ Q x) →
  length (filter P (f <$> l)) = length (filter Q l).
Proof.
  induction l as [|x l IH]; intros Hl; [done|].
  rewrite fmap_cons, !filter_cons.
  assert (IH' : length (filter P (f <$> l)) = length (filter Q l)).
  { apply IH. intros y Hy. apply Hl. by right. }
  destruct (decide (P (f x))) as [HP|HP], (decide (Q x)) as [HQ|HQ];
    simpl; rewrite ?IH'; try done.
  - destruct HQ. apply Hl; [left|done].
  - destruct HP. apply Hl; [left|done].
Qed.

Lemma rows_total_gt_1 (sq pk tb : list row) (k : string) :
  (1 < rows_total sq pk tb k)%nat ↔
  (∃ t1 t2, t1 ≠ t2 ∧ k ∈ key_of <$> table sq pk tb t1
            ∧ k ∈ key_of <$> table sq pk tb t2)
  ∨ (∃ t, (1 < length (rows_with_key k (table sq pk tb t)))%nat).
Proof.
  unfold rows_total. split.
  - intros Hgt.
    destruct (rows_with_key k sq) as [|a [|a' sq']] eqn:Ha;
      [| |right; exists Square; simpl; rewrite Ha; simpl; lia];
      (destruct (rows_with_key k pk) as [|b [|b' pk']] eqn:Hb;
        [| |right; exists Palka; simpl; rewrite Hb; simpl; lia]);
      (destruct (rows_with_key k tb) as [|c [|c' tb']] eqn:Hc;
        [| |right; exists Tbd; simpl; rewrite Hc; simpl; lia]);
      simpl in Hgt; try lia; left.
    + exists Palka, Tbd. split; [done|].
      rewrite <-!rows_with_key_nonempty. simpl. by rewrite Hb, Hc.
    + exists Square, Tbd. split; [done|].
      rewrite <-!rows_with_key_nonempty. simpl. by rewrite Ha, Hc.
    + exists Square, Palka. split; [done|].
      rewrite <-!rows_with_key_nonempty. simpl. by rewrite Ha, Hb.
    + exists Square, Palka. split; [done|].
      rewrite <-!rows_with_key_nonempty. simpl. by rewrite Ha, Hb.
  - assert (Hpos : ∀ t, k ∈ key_of <$> table sq pk tb t →
                        (0 < length (rows_with_key k (table sq pk tb t)))%nat).
    { intros t Ht%rows_with_key_nonempty.
      destruct (rows_with_key k (table sq pk tb t)); [done|simpl; lia]. }
    intros [(t1 & t2 & Hne & H1%Hpos & H2%Hpos)|[t Ht]].
    + destruct t1, t2; simpl in *; try done; lia.
    + destruct t; simpl in *; lia.
Qed.

(** X5. The merge loop never takes its [continue] branch: it appends one
    row per entry of the index, and products_processed ends as the number of
    merged rows.  merge_count ends as the number of merged rows whose
    normalized name has more than one row in the three catalogs together,
    which is the case when two catalogs list the name or when one catalog
    lists it twice. *)
Theorem merge_loop_counters (sq pk tb : list row) :
  run_merge_loop (build_index sq pk tb)
  = (merged_catalog sq pk tb,
     length (filter (λ m, (1 < rows_total sq pk tb (key_of m))%nat)
               (merged_catalog sq pk tb)),
     length (merged_catalog sq pk tb))
  ∧ ∀ k, (1 < rows_total sq pk tb k)%nat ↔
         (∃ t1 t2, t1 ≠ t2 ∧ k ∈ key_of <$> table sq pk tb t1
                   ∧ k ∈ key_of <$> table sq pk tb t2)
         ∨ (∃ t, (1 < length (rows_with_key k (table sq pk tb t)))%nat).
Proof.
  split; [|apply rows_total_gt_1].
  unfold run_merge_loop. rewrite fold_merge_iteration.
  - rewrite merged_catalog_fmap, length_fmap. simpl. f_equal. f_equal.
    symmetry. apply length_filter_fmap.
    intros [k s] Hks. simpl. apply elem_of_sorted_items in Hks.
    rewrite (merged_of_key _ _ _ _ _ Hks).
    apply index_entry_base in Hks as (_ & -> & _). done.
  - intros [k s] Hks. simpl. apply elem_of_sorted_items in Hks.
    apply index_entry_base in Hks as (_ & _ & b & t & Hb & _).
    by apply merge_product_base with b.
Qed.

(** A lamp that Square lists twice and no other catalog lists counts as a
    product merged from multiple sources. *)
Example merge_count_same_catalog :
  (run_merge_loop (build_index [Samples.lamp; Samples.lamp_again] [] [])).1.2
  = 1%nat
  ∧ (λ m : row, m !! "_merge_sources")
    <$> merged_catalog [Samples.lamp; Samples.lamp_again] [] []
    = [Some (Str "square")].
Proof. split; vm_compute; reflexivity. Qed.

(** ** The final order *)

#[local] Instance name_le_trans : Transitive name_le.
Proof.
  intros x y z. unfold name_le.
  destruct (cell_of x "Item Name"), (cell_of y "Item Name"),
    (cell_of z "Item Name"); try done.
  apply transitivity.
Qed.

#[local] Instance name_le_total : Total name_le.
Proof.
  intros x y. unfold name_le.
  destruct (cell_of x "Item Name"), (cell_of y "Item Name"); auto.
  apply total, _.
Qed.

Lemma key_of_cell (r : row) : key_of r = clean_name (cell_of r "Item Name").
Proof.
  unfold key_of, Py.get, cell_of. by destruct (r !! "Item Name").
Qed.

(** No two merged rows have the same item name. *)
Lemma merged_catalog_names_NoDup (sq pk tb : list row) :
  NoDup ((λ r, cell_of r "Item Name") <$> merged_catalog sq pk tb).
Proof.
  apply (NoDup_fmap_1 clean_name). rewrite <-list_fmap_compose.
  assert ((clean_name ∘ (λ r : row, cell_of r "Item Name")
           <$> merged_catalog sq pk tb)
          = key_of <$> merged_catalog sq pk tb) as ->.
  { apply list_fmap_ext. intros i r _. simpl. by rewrite key_of_cell. }
  rewrite merged_catalog_keys, sorted_items_perm.
  apply NoDup_fst_map_to_list.
Qed.

Lemma merged_catalog_named (sq pk tb : list row) (m : row) :
  m ∈ merged_catalog sq pk tb → ∃ n, m !! "Item Name" = Some (Str n).
Proof.
  rewrite merged_catalog_fmap. intros ([k s] & -> & Hks)%list_elem_of_fmap.
  simpl. apply elem_of_sorted_items in Hks.
  apply merged_of_item_name in Hks as (b & t & n & _ & _ & _ & _ & Hm & _).
  by exists n.
Qed.

Lemma NoDup_fmap_elem_inj {A B : Type} (f : A → B) (l : list A) (x y : A) :
  NoDup (f <$> l) → x ∈ l → y ∈ l → f x = f y → x = y.
Proof.
  induction l as [|z l IH]; [by intros _ ?%elem_of_nil|].
  rewrite fmap_cons, NoDup_cons.
  intros [Hz Hnd] [->|Hx]%elem_of_cons [->|Hy]%elem_of_cons Hf; [done|..].
  - destruct Hz. rewrite Hf. by apply list_elem_of_fmap_2.
  - destruct Hz. rewrite <-Hf. by apply list_elem_of_fmap_2.
  - by apply IH.
Qed.

Lemma name_le_antisym (x y : row) (a b : string) :
  x !! "Item Name" = Some (Str a) → y !! "Item Name" = Some (Str b) →
  name_le x y → name_le y x → a = b.
Proof.
  intros Hx Hy. unfold name_le, cell_of. rewrite Hx, Hy. simpl.
  apply (anti_symm String.le).
Qed.

Lemma final_catalog_perm (sq pk tb catalog : list row) :
  final_catalog sq pk tb = Some catalog →
  catalog ≡ₚ merged_catalog sq pk tb.
Proof.
  unfold final_catalog. case_decide; [|discriminate].
  intros [= <-]. apply merge_sort_Permutation.
Qed.

Lemma final_catalog_sort (sq pk tb catalog : list row) :
  final_catalog sq pk tb = Some catalog →
  catalog = merge_sort name_le (merged_catalog sq pk tb).
Proof.
  unfold final_catalog. case_decide; [|discriminate]. by intros [= <-].
Qed.

(** Sorting fails exactly when the merge loop appended no row. *)
Lemma final_catalog_None (sq pk tb : list row) :
  final_catalog sq pk tb = None ↔ merged_catalog sq pk tb = [].
Proof.
  unfold final_catalog. split.
  - case_decide as He; [discriminate|]. intros _.
    destruct (merged_catalog sq pk tb) as [|m l] eqn:Hm; [done|].
    destruct He. apply Exists_exists. exists m. split; [left|].
    destruct (merged_catalog_named sq pk tb m) as [n Hn].
    + rewrite Hm. left.
    + by rewrite Hn.
  - intros ->. rewrite decide_False; [done|]. by intros ?%Exists_nil.
Qed.

(** The merge loop appends no row exactly when no row of the three catalogs
    has a non-empty normalized name. *)
Lemma merged_catalog_nil (sq pk tb : list row) :
  merged_catalog sq pk tb = []
  ↔ ∀ r, r ∈ sq ++ pk ++ tb → key_of r = "".
Proof.
  split.
  - intros Hnil r Hr.
    destruct (decide (key_of r = "")) as [|Hk]; [done|]. exfalso.
    assert (Hin : key_of r ∈ normalized_names sq pk tb).
    { unfold normalized_names. rewrite elem_of_list_to_set.
      by apply list_elem_of_fmap_2. }
    apply elem_of_normalized_names in Hin.
    pose proof (build_index_lookup sq pk tb (key_of r)) as Hl.
    rewrite decide_True in Hl by done.
    apply elem_of_sorted_items in Hl.
    assert (Hm : merged_of (Sources (rows_with_key (key_of r) sq)
                              (rows_with_key (key_of r) pk)
                              (rows_with_key (key_of r) tb))
                 ∈ merged_catalog sq pk tb).
    { rewrite merged_catalog_fmap. apply list_elem_of_fmap.
      eexists. split; [|exact Hl]. done. }
    rewrite Hnil in Hm. by apply elem_of_nil in Hm.
  - intros Hall.
    destruct (merged_catalog sq pk tb) as [|m l] eqn:Hm; [done|]. exfalso.
    assert (Hin : m ∈ merged_catalog sq pk tb) by (rewrite Hm; left).
    rewrite merged_catalog_fmap in Hin.
    apply list_elem_of_fmap in Hin as ([k s] & _ & Hks).
    apply elem_of_sorted_items in Hks.
    rewrite build_index_lookup in Hks.
    case_decide as Hd; [|discriminate]. destruct Hd as [Hk Hrows].
    apply elem_of_normalized_names in Hrows.
    unfold normalized_names in Hrows. rewrite elem_of_list_to_set in Hrows.
    apply list_elem_of_fmap in Hrows as (r & -> & Hr).
    by apply Hk, Hall.
Qed.

(** X6. Sorting the merged rows into the final table fails with a KeyError
    exactly when the merge loop appended no row, that is when no row of the
    three catalogs has a non-empty normalized name: the table built from no
    rows has no Item Name column.  Otherwise the final table holds the
    merged rows, each once, in strictly increasing order of their item names
    (by code points).  As no two merged rows share an item name and none
    lacks one, this order is the only arrangement of the merged rows that is
    sorted by item name, whatever the sorting algorithm does with equal
    names. *)
Theorem final_catalog_sorted (sq pk tb : list row) :
  (final_catalog sq pk tb = None ↔ merged_catalog sq pk tb = [])
  ∧ (final_catalog sq pk tb = None
     ↔ ∀ r, r ∈ sq ++ pk ++ tb → key_of r = "")
  ∧ ∀ catalog, final_catalog sq pk tb = Some catalog →
      catalog ≡ₚ merged_catalog sq pk tb
      ∧ StronglySorted name_lt catalog
      ∧ ∀ l, l ≡ₚ merged_catalog sq pk tb → Sorted name_le l →
             l = catalog.
Proof.
  split; [apply final_catalog_None|].
  split; [by rewrite final_catalog_None, merged_catalog_nil|].
  intros catalog Hfinal.
  pose proof (final_catalog_perm sq pk tb catalog Hfinal) as Hperm.
  pose proof (final_catalog_sort sq pk tb catalog Hfinal) as Hsort.
  split; [exact Hperm|]. split.
  - assert (Hss : StronglySorted name_le catalog)
      by (rewrite Hsort; apply (StronglySorted_merge_sort name_le)).
    assert (Hnd : NoDup ((λ r, cell_of r "Item Name") <$> catalog))
      by (rewrite Hperm; apply merged_catalog_names_NoDup).
    assert (Hnamed : ∀ m, m ∈ catalog →
                          ∃ n, m !! "Item Name" = Some (Str n)).
    { intros m Hm. rewrite Hperm in Hm.
      by apply merged_catalog_named in Hm. }
    clear Hfinal Hperm Hsort.
    induction Hss as [|x l Hss IH Hx]; [constructor|].
    rewrite fmap_cons, NoDup_cons in Hnd. destruct Hnd as [Hxl Hnd].
    constructor.
    + apply IH; [done|]. intros m Hm. apply Hnamed. by right.
    + apply Forall_forall. intros y Hy.
      destruct (Hnamed x) as [a Ha]; [left|].
      destruct (Hnamed y) as [b Hb]; [by right|].
      exists a, b. split; [done|]. split; [done|].
      rewrite Forall_forall in Hx. specialize (Hx y Hy).
      split.
      * unfold name_le, cell_of in Hx. by rewrite Ha, Hb in Hx.
      * intros ->. destruct Hxl. apply list_elem_of_fmap.
        exists y. split; [|done]. unfold cell_of. by rewrite Ha, Hb.
  - intros l Hl Hsorted.
    apply (Sorted_unique_strong name_le); [|done| |].
    + intros x y Hx Hy Hxy Hyx.
      rewrite Hl in Hx. rewrite Hperm in Hy.
      destruct (merged_catalog_named _ _ _ _ Hx) as [a Ha].
      destruct (merged_catalog_named _ _ _ _ Hy) as [b Hb].
      apply (NoDup_fmap_elem_inj (λ r, cell_of r "Item Name")
               (merged_catalog sq pk tb));
        [apply merged_catalog_names_NoDup|done..|].
      unfold cell_of. rewrite Ha, Hb.
      by rewrite (name_le_antisym x y a b Ha Hb Hxy Hyx).
    + rewrite Hsort. apply (Sorted_merge_sort name_le).
    + by rewrite Hl, Hperm.
Qed.

(** The loop visits the names in the order of their normalized forms, the
    final table lists them by their original spelling: capitals first.  A
    catalog whose only row is named by a blank has no final table. *)
Example final_catalog_order :
  (λ m : row, m !! "Item Name")
  <$> merged_catalog [Samples.apple] [Samples.zebra] []
  = [Some (Str "apple"); Some (Str "Zebra")]
  ∧ (λ catalog : list row, (λ m : row, m !! "Item Name") <$> catalog)
    <$> final_catalog [Samples.apple] [Samples.zebra] []
    = Some [Some (Str "Zebra"); Some (Str "apple")]
  ∧ final_catalog [Samples.unnamed] [] [] = None.
Proof. split; [|split]; vm_compute; reflexivity. Qed.

(** ** The merge statistics *)

Lemma statistic_filter (field source : string) (catalog : list row) :
  statistic field source catalog
  = length (filter (counted field source) catalog).
Proof.
  unfold statistic, Py.count, note_sources.
  induction catalog as [|m catalog IH]; [done|].
  rewrite fmap_cons, !filter_cons. unfold counted at 1.
  destruct (decide (Py.contains field _ = true)) as [Hc|Hc].
  - rewrite fmap_cons, filter_cons.
    destruct (decide (default "" _ = source)) as [Hs|Hs].
    + rewrite decide_True by done. simpl. by rewrite IH.
    + rewrite decide_False by (by intros [_ ?]). done.
  - rewrite decide_False by (by intros [? _]). done.
Qed.

(** The notes of an iteration: at most one note per block, in the order
    description, SEO, category. *)
Lemma merge_notes_shape (s : sources) (b : row) :
  ∃ d e c, merge_notes_of s b = notes_from d e c.
Proof.
  unfold merge_notes_of, merge_description.
  destruct (0 <? desc_scores s (best_desc_source s));
    [set (d := Some (best_desc_source s))|set (d := @None tag)];
    (unfold merge_seo;
     destruct (0 <? seo_scores s (best_seo_source s));
       [set (e := Some (best_seo_source s))|set (e := @None tag)];
       (unfold merge_categories;
        destruct (has_categories (best Palka s));
          [exists d, e, (Some Palka)
          |destruct (has_categories (best Square s));
             [exists d, e, (Some Square)|exists d, e, None]];
        simpl; unfold notes_from; simpl;
        by rewrite <-?app_assoc, ?app_nil_r)).
Qed.

Lemma merged_of_notes (s : sources) (b : row) :
  base_row s = Some b →
  merged_of s !! "_merge_notes"
  = Some (Str (Py.join ", " (merge_notes_of s b))).
Proof.
  intros Hb. pose proof (merge_product_base s b Hb) as Hm.
  apply merge_product_Some in Hm as (b' & Hb' & ->).
  assert (b' = b) as -> by congruence. unfold merge_notes_of.
  destruct (merge_categories _ _) as [r n]. unfold merge_metadata.
  by rewrite lookup_insert_eq.
Qed.

(** For notes of that shape, [split(':')[1]] is a catalog's tag only when
    the notes are one single note. *)
Lemma counted_single_note (d e c : option tag) (field : string) (t : tag) :
  field ∈ ["desc:"; "seo:"; "cat:"] →
  (Py.contains field (Py.join ", " (notes_from d e c)) = true
   ∧ default "" (Py.split ":" (Py.join ", " (notes_from d e c)) !! 1%nat)
     = tag_name t)
  ↔ Py.join ", " (notes_from d e c) = field +:+ tag_name t.
Proof.
  intros Hfield.
  assert (Hcheck :
    bool_decide
      (Py.contains field (Py.join ", " (notes_from d e c)) = true
       ∧ default ""
           (Py.split ":" (Py.join ", " (notes_from d e c)) !! 1%nat)
         = tag_name t)
    = bool_decide
        (Py.join ", " (notes_from d e c) = field +:+ tag_name t)).
  { repeat (apply elem_of_cons in Hfield as [->|Hfield]);
      [..|by apply elem_of_nil in Hfield];
      destruct d as [[]|], e as [[]|], c as [[]|], t;
      vm_compute; reflexivity. }
  split; intros H.
  - eapply bool_decide_eq_true_1. rewrite <-Hcheck.
    by apply bool_decide_eq_true_2.
  - eapply bool_decide_eq_true_1. rewrite Hcheck.
    by apply bool_decide_eq_true_2.
Qed.

Lemma length_filter_ext {A : Type} (P Q : A → Prop)
    `{!∀ x, Decision (P x)} `{!∀ x, Decision (Q x)} (l : list A) :
  (∀ x, x ∈ l → P x ↔ Q x) →
  length (filter P l) = length (filter Q l).
Proof.
  intros Hl. rewrite <-(list_fmap_id l) at 1.
  by apply (length_filter_fmap id P Q).
Qed.

Lemma merged_row_counted (sq pk tb : list row) (m : row) (field : string)
    (t : tag) :
  field ∈ ["desc:"; "seo:"; "cat:"] →
  m ∈ merged_catalog sq pk tb →
  counted field (tag_name t) m
  ↔ m !! "_merge_notes" = Some (Str (field +:+ tag_name t)).
Proof.
  intros Hfield Hm. rewrite merged_catalog_fmap in Hm.
  apply list_elem_of_fmap in Hm as ([k s] & -> & Hks). simpl.
  apply elem_of_sorted_items in Hks.
  apply index_entry_base in Hks as (_ & _ & b & t0 & Hb & _).
  pose proof (merged_of_notes s b Hb) as Hnotes.
  destruct (merge_notes_shape s b) as (d & e & c & Hshape).
  rewrite Hshape in Hnotes. unfold counted, cell_of. rewrite Hnotes. simpl.
  rewrite (counted_single_note d e c field t Hfield).
  split; [by intros ->|]. intros Heq. congruence.
Qed.

(** X7. In the merge statistics, which are printed only when the final
    table could be sorted, the number printed for a catalog in the
    description, SEO or category block is the number of merged rows whose
    merge notes consist of that one note alone: a row whose notes name
    several fields is counted for no catalog in any block, because the text
    between the first two colons of its notes is not a catalog's tag. *)
Theorem merge_statistics_single_notes (sq pk tb catalog : list row)
    (field : string) (t : tag) :
  final_catalog sq pk tb = Some catalog →
  field ∈ ["desc:"; "seo:"; "cat:"] →
  statistic field (tag_name t) catalog
  = length (filter (λ m : row,
                      m !! "_merge_notes"
                      = Some (Str (field +:+ tag_name t)))
              catalog)
  ∧ statistic field (tag_name t) catalog
    = length (filter (λ m : row,
                        m !! "_merge_notes"
                        = Some (Str (field +:+ tag_name t)))
                (merged_catalog sq pk tb)).
Proof.
  intros Hfinal Hfield.
  pose proof (final_catalog_perm sq pk tb catalog Hfinal) as Hperm.
  assert (Hcount :
    statistic field (tag_name t) catalog
    = length (filter (λ m : row,
                        m !! "_merge_notes"
                        = Some (Str (field +:+ tag_name t)))
                catalog)).
  { rewrite statistic_filter.
    apply length_filter_ext. intros m Hm.
    rewrite Hperm in Hm.
    by apply (merged_row_counted sq pk tb). }
  split; [exact Hcount|].
  rewrite Hcount. by rewrite Hperm.
Qed.

(** Witness of [merge_statistics_single_notes]: the crystal gets its
    category from Palka and its SEO pair from Square, so the category block
    counts nothing for Palka. *)
Lemma merge_statistics_single_notes_witness :
  ∃ catalog,
    final_catalog [Samples.crystal_square] [Samples.crystal_palka] []
    = Some catalog
    ∧ statistic "cat:" (tag_name Palka) catalog
      = length (filter (λ m : row,
                          m !! "_merge_notes"
                          = Some (Str ("cat:" +:+ tag_name Palka)))
                  catalog).
Proof.
  eexists. split; [reflexivity|].
  apply (merge_statistics_single_notes [Samples.crystal_square]
           [Samples.crystal_palka] [] _ "cat:" Palka).
  - reflexivity.
  - apply (bool_decide_unpack _). vm_compute. exact I.
Defined.

Example merge_statistics_sample :
  (λ catalog : list row, (λ m : row, m !! "_merge_notes") <$> catalog)
  <$> final_catalog [Samples.crystal_square] [Samples.crystal_palka] []
  = Some [Some (Str "seo:square, cat:palka")]
  ∧ statistic "cat:" "palka"
    <$> final_catalog [Samples.crystal_square] [Samples.crystal_palka] []
    = Some 0%nat
  ∧ statistic "seo:" "square"
    <$> final_catalog [Samples.crystal_square] [Samples.crystal_palka] []
    = Some 0%nat.
Proof. repeat split; vm_compute; reflexivity. Qed.

(** * Further properties of the value validator *)

Lemma elem_of_unique_go (seen l : list string) (x : string) :
  x ∈ Py.unique_go seen l ↔ x ∈ l ∧ x ∉ seen.
Proof.
  revert seen. induction l as [|y l IH]; intros seen; simpl.
  - split; [by intros ?%elem_of_nil|by intros [?%elem_of_nil _]].
  - case_bool_decide as Hy.
    + rewrite IH, elem_of_cons. split; [by intros [? ?]; auto|].
      intros [[->|?] ?]; done.
    + rewrite !elem_of_cons, IH, not_elem_of_cons. split.
      * intros [->|[? [? ?]]]; auto.
      * intros [[->|?] ?]; [by left|].
        destruct (decide (x = y)) as [->|?]; [by left|by right].
Qed.

Lemma NoDup_unique_go (seen l : list string) : NoDup (Py.unique_go seen l).
Proof.
  revert seen. induction l as [|y l IH]; intros seen; simpl.
  - constructor.
  - case_bool_decide; [done|]. constructor; [|done].
    rewrite elem_of_unique_go, not_elem_of_cons. by intros [_ [? _]].
Qed.

Lemma elem_of_unique (l : list string) (x : string) :
  x ∈ Py.unique l ↔ x ∈ l.
Proof.
  unfold Py.unique. rewrite elem_of_unique_go. split; [by intros [? _]|].
  intros ?. split; [done|]. apply not_elem_of_nil.
Qed.

(** X8. The distinct values the validator looks through: a text is among
    them exactly when some row has, under the field, a text cell that equals
    it once surrounding white space is stripped (missing cells are skipped);
    no value is listed twice. *)
Theorem values_are_stripped_cells (df : dataframe) (field expected : string) :
  (expected ∈ values df field ↔
   ∃ r s, r ∈ rows df ∧ cell_of r field = Str s ∧ Py.strip s = expected)
  ∧ NoDup (values df field).
Proof.
  split; [|apply NoDup_unique_go].
  unfold values, column.
  rewrite elem_of_unique, !list_elem_of_fmap. split.
  - intros (x & -> & (v & -> & Hv)%list_elem_of_fmap).
    apply list_elem_of_filter in Hv as [Hna Hv].
    apply list_elem_of_fmap in Hv as (r & -> & Hr).
    destruct (cell_of r field) as [|s] eqn:Hc; [done|].
    by exists r, s.
  - intros (r & s & Hr & Hc & <-). exists s. split; [done|].
    apply list_elem_of_fmap. exists (Str s). split; [done|].
    apply list_elem_of_filter. split; [done|].
    apply list_elem_of_fmap. by exists r.
Qed.

Lemma check_headers_nil (df : dataframe) :
  check_headers df [] = [] ↔ ∀ c, c ∈ REQUIRED_COLUMNS → c ∈ columns df.
Proof.
  unfold check_headers.
  destruct (decide (missing_headers df ≠ ∅)) as [Hm|Hm]; simpl.
  - split; [intros H; discriminate H|].
    intros Hall. exfalso. apply Hm. apply set_eq. intros c.
    rewrite elem_of_missing_headers. split.
    + intros [Hc Hn]. exfalso. apply Hn, Hall, Hc.
    + intros Hc. exfalso. exact (not_elem_of_empty c Hc).
  - split; [|reflexivity]. intros _ c Hc.
    destruct (decide (c ∈ columns df)) as [Hin|Hn]; [exact Hin|].
    exfalso. apply Hm. intros He.
    assert (c ∈ missing_headers df) as Hin
      by (apply elem_of_missing_headers; split; assumption).
    rewrite He in Hin. exact (not_elem_of_empty c Hin).
Qed.

Lemma value_problems_nil (df : dataframe) (field expected : string) :
  value_problems df (field, expected) = [] ↔
  field ∈ columns df ∧ expected ∈ values df field.
Proof.
  unfold value_problems, check_value. simpl.
  repeat case_decide; split; try done; by intros [? ?].
Qed.

Lemma bind_nil_iff {A B : Type} (f : A → list B) (l : list A) :
  l ≫= f = [] ↔ ∀ x, x ∈ l → f x = [].
Proof.
  induction l as [|x l IH]; simpl.
  - split; [by intros _ ? ?%elem_of_nil|done].
  - rewrite app_nil, IH. split.
    + intros [Hx Hl] y [->|Hy]%elem_of_cons; auto.
    + intros Hall. split; [apply Hall; left|].
      intros y Hy. apply Hall. by right.
Qed.

Lemma required_values_columns (field expected : string) :
  (field, expected) ∈ REQUIRED_VALUES → field ∈ REQUIRED_COLUMNS.
Proof.
  unfold REQUIRED_VALUES. intros H.
  repeat (apply elem_of_cons in H as [[= -> ->]|H]);
    [..|by apply elem_of_nil in H];
    apply (bool_decide_unpack _); vm_compute; exact I.
Qed.

(** X9. The validator prints its success line exactly when the table has
    all fourteen required columns and each of the four checked columns holds
    its expected text in some cell (up to surrounding white space);
    otherwise it prints problems only, at most five of them. *)
Theorem validator_verdict (df : dataframe) :
  (validate_values df = [AllCorrect] ↔
   (∀ c, c ∈ REQUIRED_COLUMNS → c ∈ columns df)
   ∧ (∀ field expected, (field, expected) ∈ REQUIRED_VALUES →
                        expected ∈ values df field))
  ∧ (validate_values df ≠ [AllCorrect] →
     validate_values df = Problem <$> collect_errors df
     ∧ collect_errors df ≠ [])
  ∧ (length (collect_errors df) ≤ 5)%nat.
Proof.
  assert (Hnil : collect_errors df = [] ↔
    (∀ c, c ∈ REQUIRED_COLUMNS → c ∈ columns df)
    ∧ (∀ field expected, (field, expected) ∈ REQUIRED_VALUES →
                         expected ∈ values df field)).
  { rewrite collect_errors_eq, app_nil, check_headers_nil, bind_nil_iff.
    split.
    - intros [Hcols Hvals]. split; [done|]. intros field expected Hitem.
      by apply (value_problems_nil df field expected), Hvals.
    - intros [Hcols Hvals]. split; [done|]. intros [field expected] Hitem.
      apply value_problems_nil. split; [|by apply Hvals].
      by apply Hcols, (required_values_columns field expected). }
  split; [|split].
  - rewrite <-Hnil. unfold validate_values.
    case_decide as He.
    + split; [|done]. destruct (collect_errors df) as [|p l]; [done|].
      by intros [=].
    + split; [|done]. intros _.
      destruct (collect_errors df); [done|]. by destruct He.
  - unfold validate_values. case_decide; [done|]. by intros [].
  - assert (length (REQUIRED_VALUES ≫= value_problems df) ≤ 4)%nat.
    { unfold REQUIRED_VALUES, value_problems, check_value. simpl.
      rewrite !length_app. repeat case_decide; simpl; lia. }
    assert (length (check_headers df []) ≤ 1)%nat
      by (unfold check_headers; case_decide; simpl; lia).
    rewrite collect_errors_eq, length_app. lia.
Qed.

(** * Further properties of the manual SEO patch *)

Lemma item_name_not_seo : "Item Name" ∉ seo_columns.
Proof. apply (bool_decide_unpack _). vm_compute. exact I. Qed.

Lemma cell_of_patch (now : string) (u : seo_update) (r : row) (f : string) :
  f ∉ seo_columns → cell_of (patch now u r) f = cell_of r f.
Proof. intros Hf. unfold cell_of. by rewrite patch_frame. Qed.

(** The Item Name column is the same before and after an iteration. *)
Lemma column_patch_rows (now : string) (u : seo_update) (rs : list row)
    (f : string) :
  f ∉ seo_columns →
  (λ r, cell_of r f) <$> patch_rows now u rs = (λ r, cell_of r f) <$> rs.
Proof.
  intros Hf. unfold patch_rows.
  destruct (list_find _ rs) as [[j r]|]; [|done].
  apply list_eq. intros i. rewrite !list_lookup_fmap, list_lookup_alter.
  case_decide as Hij; [|done]. subst i.
  destruct (rs !! j); simpl; [|done]. by rewrite cell_of_patch.
Qed.

Lemma column_patch_all (clock : nat → string) (i : nat)
    (updates : list seo_update) (rs : list row) (f : string) :
  f ∉ seo_columns →
  (λ r, cell_of r f) <$> patch_all clock i updates rs
  = (λ r, cell_of r f) <$> rs.
Proof.
  intros Hf. revert i rs. induction updates as [|u updates IH]; intros i rs.
  - done.
  - simpl. by rewrite IH, column_patch_rows.
Qed.

(** Where the first row with a name is depends on the Item Name column
    only. *)
Lemma first_row_by_column (n : string) (rs : list row) :
  fst <$> list_find (names_product n) rs
  = fst <$> list_find (λ c, c = Str n) ((λ r, cell_of r "Item Name") <$> rs).
Proof.
  rewrite list_find_fmap.
  by destruct (list_find _ rs) as [[j r]|].
Qed.

Lemma first_row_patch_all (clock : nat → string) (i : nat)
    (updates : list seo_update) (rs : list row) (n : string) :
  fst <$> list_find (names_product n) (patch_all clock i updates rs)
  = fst <$> list_find (names_product n) rs.
Proof.
  rewrite !first_row_by_column, column_patch_all; [done|].
  apply item_name_not_seo.
Qed.

Lemma listed_find (n : string) (rs : list row) :
  listed n rs ↔ is_Some (list_find (names_product n) rs).
Proof.
  split.
  - intros (r & Hr & Hn). by apply list_find_elem_of with r.
  - intros [[j r] (Hj & Hr & _)%list_find_Some].
    exists r. split; [by apply list_elem_of_lookup_2 with j|done].
Qed.

Lemma listed_patch_all (clock : nat → string) (i : nat)
    (updates : list seo_update) (rs : list row) (n : string) :
  listed n (patch_all clock i updates rs) ↔ listed n rs.
Proof.
  rewrite !listed_find, <-!fmap_is_Some with (f := fst).
  by rewrite first_row_patch_all.
Qed.

Lemma columns_set_cell_inv (df : dataframe) (idx : nat) (c c' : string)
    (v : cell) :
  c' ∈ columns (set_cell df idx c v) → c' ∈ columns df ∨ c' = c.
Proof.
  unfold set_cell; simpl. case_decide; [by left|].
  rewrite elem_of_app, list_elem_of_singleton. tauto.
Qed.

(** One iteration, on a table with an Item Name column. *)
Lemma apply_update_step (now : string) (df : dataframe) (count : nat)
    (out : list report) (u : seo_update) :
  "Item Name" ∈ columns df →
  ∃ df',
    apply_update now (df, count, out) u
    = Some (df',
            if decide (listed (name u) (rows df)) then S count else count,
            out ++ [report_of (rows df) u])
    ∧ rows df' = patch_rows now u (rows df)
    ∧ (∀ c, c ∈ columns df → c ∈ columns df')
    ∧ (∀ c, c ∈ columns df' → c ∈ columns df ∨ c ∈ seo_columns).
Proof.
  intros Hcol. unfold apply_update, patch_rows, report_of.
  rewrite (mask_rows df (name u) Hcol), first_index_find.
  destruct (list_find (names_product (name u)) (rows df)) as [[j r]|]
    eqn:Hfind; simpl.
  - rewrite !decide_True by (apply listed_find; by rewrite Hfind).
    eexists. split; [reflexivity|]. split; [|split].
    + by rewrite !rows_set_cell, !list_alter_alter_eq.
    + intros c Hc. by do 4 apply columns_set_cell.
    + intros c Hc. unfold seo_columns.
      apply columns_set_cell_inv in Hc as [Hc| ->]; [|set_solver].
      apply columns_set_cell_inv in Hc as [Hc| ->]; [|set_solver].
      apply columns_set_cell_inv in Hc as [Hc| ->]; [|set_solver].
      apply columns_set_cell_inv in Hc as [Hc| ->]; [by left|set_solver].
  - rewrite !decide_False
      by (rewrite listed_find, Hfind; by intros [? ?]).
    exists df. split; [done|]. split; [done|]. split; [done|]. by left.
Qed.

Lemma listed_patch_rows (now : string) (u : seo_update) (rs : list row)
    (n : string) :
  listed n (patch_rows now u rs) ↔ listed n rs.
Proof. apply (listed_patch_all (λ _, now) 0 [u] rs n). Qed.

Lemma report_of_ext (rs rs' : list row) (u : seo_update) :
  (listed (name u) rs ↔ listed (name u) rs') →
  report_of rs u = report_of rs' u.
Proof.
  intros H. unfold report_of.
  destruct (decide (listed (name u) rs)) as [Hl|Hl].
  - by rewrite decide_True by (by apply H).
  - by rewrite decide_False by (by rewrite <-H).
Qed.

(** The whole loop, on a table with an Item Name column: it never raises,
    and its three results are given by the rows of the table. *)
Lemma run_updates_spec (clock : nat → string) (updates : list seo_update)
    (i : nat) (df : dataframe) (count : nat) (out : list report) :
  "Item Name" ∈ columns df →
  ∃ df',
    run_updates clock i updates (df, count, out)
    = Some (df',
            (count + length (filter (λ u, listed (name u) (rows df))
                               updates))%nat,
            out ++ (report_of (rows df) <$> updates))
    ∧ rows df' = patch_all clock i updates (rows df)
    ∧ (∀ c, c ∈ columns df → c ∈ columns df')
    ∧ (∀ c, c ∈ columns df' → c ∈ columns df ∨ c ∈ seo_columns).
Proof.
  revert i df count out.
  induction updates as [|u updates IH]; intros i df count out Hcol.
  - exists df. simpl. rewrite app_nil_r, Nat.add_0_r.
    split; [done|]. split; [done|]. split; [done|]. by left.
  - destruct (apply_update_step (clock i) df count out u Hcol)
      as (df1 & Hstep & Hrows1 & Hcols1 & Hnew1).
    destruct (IH (S i) df1
                (if decide (listed (name u) (rows df))
                 then S count else count)
                (out ++ [report_of (rows df) u]) (Hcols1 _ Hcol))
      as (df' & Hrun & Hrows & Hcols & Hnew).
    exists df'. cbn [run_updates]. rewrite Hstep, Hrun.
    assert (Hl : ∀ n, listed n (rows df1) ↔ listed n (rows df))
      by (intros n; rewrite Hrows1; apply listed_patch_rows).
    split; [|split; [|split]].
    + f_equal. f_equal; [f_equal|].
      * rewrite filter_cons.
        rewrite (list_filter_iff (λ u0, listed (name u0) (rows df1))
                   (λ u0, listed (name u0) (rows df)))
          by (intros u0; apply Hl).
        destruct (decide (listed (name u) (rows df))); simpl; lia.
      * rewrite fmap_cons, <-app_assoc. simpl. f_equal. f_equal.
        apply list_fmap_ext. intros _ u0 _. apply report_of_ext, Hl.
    + by rewrite Hrows, Hrows1.
    + intros c Hc. by apply Hcols, Hcols1.
    + intros c Hc. apply Hnew in Hc as [Hc|Hc]; [|by right].
      by apply Hnew1.
Qed.

(** A row that no entry of the list names is never patched. *)
Lemma patch_rows_other (now : string) (u : seo_update) (rs : list row)
    (j : nat) (r : row) :
  rs !! j = Some r → ¬ names_product (name u) r →
  patch_rows now u rs !! j = Some r.
Proof.
  intros Hj Hr. unfold patch_rows.
  destruct (list_find _ rs) as [[j' r']|] eqn:Hfind; [|done].
  apply list_find_Some in Hfind as (Hj' & Hr' & _).
  rewrite list_lookup_alter_ne; [done|]. intros ->. congruence.
Qed.

(** A row that has an earlier row of the same name is never patched. *)
Lemma patch_rows_later (now : string) (u : seo_update) (rs : list row)
    (j j0 : nat) (r r0 : row) :
  rs !! j = Some r → rs !! j0 = Some r0 → (j0 < j)%nat →
  cell_of r0 "Item Name" = cell_of r "Item Name" →
  patch_rows now u rs !! j = Some r.
Proof.
  intros Hj Hj0 Hlt Hsame. unfold patch_rows.
  destruct (list_find _ rs) as [[j' r']|] eqn:Hfind; [|done].
  apply list_find_Some in Hfind as (Hj' & Hr' & Hfirst).
  rewrite list_lookup_alter_ne; [done|]. intros ->.
  assert (r' = r) as -> by congruence.
  apply (Hfirst j0 r0 Hj0 Hlt). unfold names_product in *. congruence.
Qed.

Lemma patch_rows_lookup (now : string) (u : seo_update) (rs : list row)
    (j : nat) (r : row) :
  rs !! j = Some r →
  ∃ r', patch_rows now u rs !! j = Some r'
        ∧ ∀ f, f ∉ seo_columns → r' !! f = r !! f.
Proof.
  intros Hj. unfold patch_rows.
  destruct (list_find _ rs) as [[j' r']|]; [|by exists r].
  rewrite list_lookup_alter. case_decide; [subst j'|by exists r].
  rewrite Hj. simpl.
  exists (patch now u r). split; [done|]. intros f Hf.
  by apply patch_frame.
Qed.

Lemma length_patch_rows (now : string) (u : seo_update) (rs : list row) :
  length (patch_rows now u rs) = length rs.
Proof.
  unfold patch_rows. destruct (list_find _ rs) as [[j r]|]; [|done].
  apply length_alter.
Qed.

Lemma length_patch_all (clock : nat → string) (i : nat)
    (updates : list seo_update) (rs : list row) :
  length (patch_all clock i updates rs) = length rs.
Proof.
  revert i rs. induction updates as [|u updates IH]; intros i rs; [done|].
  simpl. by rewrite IH, length_patch_rows.
Qed.

Lemma patch_all_lookup (clock : nat → string) (i : nat)
    (updates : list seo_update) (rs : list row) (j : nat) (r : row) :
  rs !! j = Some r →
  ∃ r', patch_all clock i updates rs !! j = Some r'
        ∧ ∀ f, f ∉ seo_columns → r' !! f = r !! f.
Proof.
  revert i rs r. induction updates as [|u updates IH]; intros i rs r Hj.
  - by exists r.
  - destruct (patch_rows_lookup (clock i) u rs j r Hj) as (r1 & Hr1 & Hf1).
    destruct (IH (S i) _ r1 Hr1) as (r' & Hr' & Hf').
    exists r'. split; [done|]. intros f Hf. by rewrite Hf', Hf1.
Qed.

Lemma patch_all_other (clock : nat → string) (i : nat)
    (updates : list seo_update) (rs : list row) (j : nat) (r : row) :
  rs !! j = Some r →
  (∀ u, u ∈ updates → ¬ names_product (name u) r) →
  patch_all clock i updates rs !! j = Some r.
Proof.
  revert i rs. induction updates as [|u updates IH]; intros i rs Hj Hno.
  - done.
  - simpl. apply IH.
    + apply patch_rows_other; [done|]. apply Hno. left.
    + intros u' Hu'. apply Hno. by right.
Qed.

Lemma patch_all_later (clock : nat → string) (i : nat)
    (updates : list seo_update) (rs : list row) (j j0 : nat) (r r0 : row) :
  rs !! j = Some r → rs !! j0 = Some r0 → (j0 < j)%nat →
  cell_of r0 "Item Name" = cell_of r "Item Name" →
  patch_all clock i updates rs !! j = Some r.
Proof.
  revert i rs r0.
  induction updates as [|u updates IH]; intros i rs r0 Hj Hj0 Hlt Hsame.
  - done.
  - simpl.
    destruct (patch_rows_lookup (clock i) u rs j0 r0 Hj0) as (r1 & Hr1 & Hf1).
    apply (IH (S i) _ r1); [|done|done|].
    + by apply patch_rows_later with j0 r0.
    + unfold cell_of in *. rewrite Hf1; [done|]. apply item_name_not_seo.
Qed.

Lemma patch_all_app (clock : nat → string) (i : nat)
    (l1 l2 : list seo_update) (rs : list row) :
  patch_all clock i (l1 ++ l2) rs
  = patch_all clock (i + length l1) l2 (patch_all clock i l1 rs).
Proof.
  revert i rs. induction l1 as [|u l1 IH]; intros i rs; simpl.
  - by rewrite Nat.add_0_r.
  - rewrite IH. f_equal. lia.
Qed.

Lemma patch_cells (now : string) (u : seo_update) (r : row) :
  patch now u r !! "SEO Title" = Some (Str (seo_title u))
  ∧ patch now u r !! "SEO Description" = Some (Str (seo_description u))
  ∧ patch now u r !! "_seo_keywords" = Some (Str (keywords u))
  ∧ patch now u r !! "_seo_updated" = Some (Str now).
Proof.
  unfold patch. repeat split.
  - by rewrite !lookup_insert_ne, lookup_insert_eq by done.
  - by rewrite !lookup_insert_ne, lookup_insert_eq by done.
  - by rewrite !lookup_insert_ne, lookup_insert_eq by done.
  - by rewrite lookup_insert_eq.
Qed.

(** X10. On a table with an Item Name column the update loop runs to its
    end without error and keeps the table's shape: the same number of rows;
    in every row all cells outside SEO Title, SEO Description, _seo_keywords
    and _seo_updated as before; a row that no entry names, and a row that
    follows another row with the same Item Name, entirely as before; every
    old column still present and no new column other than those four. *)
Theorem update_loop_frame (clock : nat → string) (updates : list seo_update)
    (i : nat) (df : dataframe) (count : nat) (out : list report) :
  "Item Name" ∈ columns df →
  ∃ df' count' out',
    run_updates clock i updates (df, count, out) = Some (df', count', out')
    ∧ length (rows df') = length (rows df)
    ∧ (∀ j r, rows df !! j = Some r →
         ∃ r', rows df' !! j = Some r'
               ∧ (∀ f, f ∉ seo_columns → r' !! f = r !! f)
               ∧ ((∀ u, u ∈ updates → ¬ names_product (name u) r) → r' = r)
               ∧ ((∃ j0 r0, (j0 < j)%nat ∧ rows df !! j0 = Some r0
                            ∧ cell_of r0 "Item Name" = cell_of r "Item Name")
                  → r' = r))
    ∧ (∀ c, c ∈ columns df → c ∈ columns df')
    ∧ (∀ c, c ∈ columns df' → c ∈ columns df ∨ c ∈ seo_columns).
Proof.
  intros Hcol.
  destruct (run_updates_spec clock updates i df count out Hcol)
    as (df' & Hrun & Hrows & Hcols & Hnew).
  eexists df', _, _. split; [exact Hrun|].
  rewrite Hrows. split; [apply length_patch_all|].
  split; [|done].
  intros j r Hj.
  destruct (patch_all_lookup clock i updates (rows df) j r Hj)
    as (r' & Hr' & Hf).
  exists r'. split; [done|]. split; [done|]. split.
  - intros Hno.
    pose proof (patch_all_other clock i updates (rows df) j r Hj Hno).
    congruence.
  - intros (j0 & r0 & Hlt & Hj0 & Hsame).
    pose proof (patch_all_later clock i updates (rows df) j j0 r r0
                  Hj Hj0 Hlt Hsame).
    congruence.
Qed.

(** Witness of [update_loop_frame]: the sample catalog has an Item Name
    column. *)
Lemma update_loop_frame_witness :
  ∃ st, run_updates (λ _, "2025-08-03T16:27:00") 0
          [Samples.sunset_lamp; Samples.sunset_lamp]
          (Samples.catalog, 0%nat, []) = Some st.
Proof.
  destruct (update_loop_frame (λ _, "2025-08-03T16:27:00")
              [Samples.sunset_lamp; Samples.sunset_lamp] 0
              Samples.catalog 0%nat [])
    as (df' & count' & out' & Hrun & _).
  - apply (bool_decide_unpack _). vm_compute. exact I.
  - by exists (df', count', out').
Defined.

(** X11. The loop prints one line per entry of the update list, in the
    order of the list: the update line when some row of the table as it was
    loaded carries exactly the entry's name, the not-found line otherwise.
    updated_count grows by the number of update lines, so an entry is
    counted each time it occurs in the list even though it patches the same
    row, and the counted and the missed entries together are all entries. *)
Theorem update_loop_accounting (clock : nat → string)
    (updates : list seo_update) (i : nat) (df : dataframe) (count : nat)
    (out : list report) :
  "Item Name" ∈ columns df →
  ∃ df',
    run_updates clock i updates (df, count, out)
    = Some (df',
            (count + length (filter (λ u, listed (name u) (rows df))
                               updates))%nat,
            out ++ (report_of (rows df) <$> updates))
    ∧ (length (filter (λ u, listed (name u) (rows df)) updates)
       + length (filter (λ u, ¬ listed (name u) (rows df)) updates)
       = length updates)%nat
    ∧ ∀ u, u ∈ updates →
           (listed (name u) (rows df) →
            report_of (rows df) u
            = Updated (name u) (seo_title u) (seo_description u))
           ∧ (¬ listed (name u) (rows df) →
              report_of (rows df) u = NotFound (name u)).
Proof.
  intros Hcol.
  destruct (run_updates_spec clock updates i df count out Hcol)
    as (df' & Hrun & _).
  exists df'. split; [done|]. split.
  - rewrite <-length_app.
    by rewrite (filter_app_complement
                  (λ u, listed (name u) (rows df)) updates).
  - intros u _. unfold report_of. split; intros Hl.
    + by rewrite decide_True.
    + by rewrite decide_False.
Qed.

(** Witness of [update_loop_accounting]: the sunset lamp entry given twice
    is counted twice. *)
Lemma update_loop_accounting_witness :
  ∃ df', run_updates (λ _, "2025-08-03T16:27:00") 0
           [Samples.sunset_lamp; Samples.sunset_lamp]
           (Samples.catalog, 0%nat, [])
         = Some (df',
                 (0 + length (filter
                                (λ u, listed (name u) (rows Samples.catalog))
                                [Samples.sunset_lamp; Samples.sunset_lamp]))%nat,
                 [] ++ (report_of (rows Samples.catalog)
                        <$> [Samples.sunset_lamp; Samples.sunset_lamp])).
Proof.
  destruct (update_loop_accounting (λ _, "2025-08-03T16:27:00")
              [Samples.sunset_lamp; Samples.sunset_lamp] 0
              Samples.catalog 0%nat [])
    as (df' & Hrun & _).
  - apply (bool_decide_unpack _). vm_compute. exact I.
  - by exists df'.
Defined.

Example update_loop_counts_twice :
  (λ st : state, (st.1.2, length st.2))
  <$> run_updates (λ _, "2025-08-03T16:27:00") 0
        [Samples.sunset_lamp; Samples.sunset_lamp]
        (Samples.catalog, 0%nat, [])
  = Some (2%nat, 2%nat).
Proof. vm_compute. reflexivity. Qed.

(** X12. When the update list names a product several times, the last of
    these entries decides: after the loop the first row of the table with
    that Item Name holds the SEO title, SEO description and keywords of the
    last entry with that name, and the time stamp read in that entry's
    iteration. *)
Theorem last_entry_wins (clock : nat → string) (l1 l2 : list seo_update)
    (u : seo_update) (i : nat) (df : dataframe) (count : nat)
    (out : list report) (j : nat) (r : row) :
  "Item Name" ∈ columns df →
  (∀ u', u' ∈ l2 → name u' ≠ name u) →
  list_find (names_product (name u)) (rows df) = Some (j, r) →
  ∃ df' count' out' r',
    run_updates clock i (l1 ++ u :: l2) (df, count, out)
    = Some (df', count', out')
    ∧ rows df' !! j = Some r'
    ∧ r' !! "SEO Title" = Some (Str (seo_title u))
    ∧ r' !! "SEO Description" = Some (Str (seo_description u))
    ∧ r' !! "_seo_keywords" = Some (Str (keywords u))
    ∧ r' !! "_seo_updated" = Some (Str (clock (i + length l1)%nat))
    ∧ ∀ f, f ∉ seo_columns → r' !! f = r !! f.
Proof.
  intros Hcol Hlast Hfind.
  destruct (run_updates_spec clock (l1 ++ u :: l2) i df count out Hcol)
    as (df' & Hrun & Hrows & _).
  set (rs1 := patch_all clock i l1 (rows df)).
  assert (Hfind1 : ∃ r1, list_find (names_product (name u)) rs1
                         = Some (j, r1)).
  { pose proof (first_row_patch_all clock i l1 (rows df) (name u)) as Hf.
    rewrite Hfind in Hf. fold rs1 in Hf.
    destruct (list_find _ rs1) as [[j1 r1]|]; [|done].
    simpl in Hf. exists r1. congruence. }
  destruct Hfind1 as [r1 Hfind1].
  pose proof Hfind1 as (Hj1 & Hn1 & _)%list_find_Some.
  pose proof Hfind as (Hj & _ & _)%list_find_Some.
  set (r' := patch (clock (i + length l1)%nat) u r1).
  eexists df', _, _, r'. split; [exact Hrun|].
  rewrite Hrows, patch_all_app. fold rs1. cbn [patch_all].
  assert (Hstep : patch_rows (clock (i + length l1)%nat) u rs1 !! j
                  = Some r').
  { unfold patch_rows. rewrite Hfind1, list_lookup_alter_eq, Hj1. done. }
  split.
  - apply patch_all_other; [done|].
    intros u' Hu' Hn'. apply (Hlast u' Hu').
    unfold names_product in Hn', Hn1. unfold r' in Hn'.
    rewrite cell_of_patch in Hn' by apply item_name_not_seo.
    congruence.
  - destruct (patch_cells (clock (i + length l1)%nat) u r1)
      as (Ht & Hd & Hk & Hu).
    split; [done|]. split; [done|]. split; [done|]. split; [done|].
    intros f Hf. unfold r'. rewrite patch_frame by done.
    destruct (patch_all_lookup clock i l1 (rows df) j r Hj)
      as (r1' & Hr1' & Hframe).
    fold rs1 in Hr1'. assert (r1' = r1) as -> by congruence.
    by apply Hframe.
Qed.

(** Witness of [last_entry_wins]: the update list names the sunset lamp
    twice, first with a draft and then with the entry of the script, and
    ends with the entry of the selenite plate.  The second row of the sample
    catalog, the first that carries the lamp's name, ends with the title,
    the description and the keywords of the later lamp entry and the time of
    the second iteration. *)
Lemma last_entry_wins_witness :
  ∃ df' count' out' r',
    run_updates
      (λ i, if decide (i = 1%nat) then "2025-08-03T16:27:01"
            else "2025-08-03T16:27:00")
      0 ([Samples.sunset_lamp_draft]
         ++ Samples.sunset_lamp :: [Samples.selenite_plate])
      (Samples.catalog, 0%nat, [])
    = Some (df', count', out')
    ∧ rows df' !! 1%nat = Some r'
    ∧ r' !! "SEO Title"
      = Some (Str "16-Color Sunset Projection Lamp | RGB Mood Lighting")
    ∧ r' !! "_seo_updated" = Some (Str "2025-08-03T16:27:01")
    ∧ r' !! "SKU" = Some (Str "L-16").
Proof.
  destruct (last_entry_wins
              (λ i, if decide (i = 1%nat) then "2025-08-03T16:27:01"
                    else "2025-08-03T16:27:00")
              [Samples.sunset_lamp_draft] [Samples.selenite_plate]
              Samples.sunset_lamp 0 Samples.catalog 0%nat [] 1
              (default ∅ (rows Samples.catalog !! 1%nat)))
    as (df' & count' & out' & r' & Hrun & Hrow & Htitle & _ & _ & Hnow
        & Hframe).
  - apply (bool_decide_unpack _). vm_compute. exact I.
  - intros u' ->%list_elem_of_singleton. vm_compute. discriminate.
  - reflexivity.
  - exists df', count', out', r'.
    split; [exact Hrun|]. split; [exact Hrow|]. split; [exact Htitle|].
    split; [exact Hnow|].
    rewrite Hframe; [reflexivity|].
    apply (bool_decide_unpack _). vm_compute. exact I.
Defined.

(** * Texts and white space *)

Lemma text_chars (s : string) : text (chars s) = s.
Proof. apply String.string_of_list_ascii_of_string. Qed.

Lemma chars_text (l : list ascii) : chars (text l) = l.
Proof. apply String.list_ascii_of_string_of_list_ascii. Qed.

Lemma chars_inj (s1 s2 : string) : chars s1 = chars s2 → s1 = s2.
Proof. intros H. by rewrite <-(text_chars s1), H, text_chars. Qed.

Lemma chars_rev_app (s t : string) :
  chars (String.rev_app s t) = reverse (chars s) ++ chars t.
Proof.
  revert t. induction s as [|c s IH]; intros t; simpl; [done|].
  rewrite IH, reverse_cons, <-app_assoc. done.
Qed.

Lemma chars_rev (s : string) : chars (String.rev s) = reverse (chars s).
Proof. unfold String.rev. by rewrite chars_rev_app, app_nil_r. Qed.

Lemma chars_lstrip (s : string) :
  chars (Py.lstrip s) = lstrip_chars (chars s).
Proof.
  induction s as [|c s IH]; simpl; [done|]. by destruct (Py.isspace c).
Qed.

Lemma chars_rstrip (s : string) :
  chars (Py.rstrip s) = rstrip_chars (chars s).
Proof.
  unfold Py.rstrip, rstrip_chars. by rewrite chars_rev, chars_lstrip, chars_rev.
Qed.

Lemma chars_strip (s : string) : chars (Py.strip s) = strip_chars (chars s).
Proof.
  unfold Py.strip, strip_chars. by rewrite chars_rstrip, chars_lstrip.
Qed.

Lemma chars_append (s t : string) : chars (s +:+ t) = chars s ++ chars t.
Proof. induction s as [|c s IH]; simpl; [done|]. by rewrite IH. Qed.

Lemma lstrip_chars_idem (l : list ascii) :
  lstrip_chars (lstrip_chars l) = lstrip_chars l.
Proof.
  induction l as [|c l IH]; simpl; [done|].
  destruct (Py.isspace c) eqn:Hc; [done|]. simpl. by rewrite Hc.
Qed.

Lemma lstrip_chars_snoc (l : list ascii) (c : ascii) :
  Py.isspace c = false → lstrip_chars (l ++ [c]) = lstrip_chars l ++ [c].
Proof.
  intros Hc. induction l as [|a l IH]; simpl.
  - by rewrite Hc.
  - by destruct (Py.isspace a).
Qed.

Lemma rstrip_chars_cons (c : ascii) (l : list ascii) :
  Py.isspace c = false → rstrip_chars (c :: l) = c :: rstrip_chars l.
Proof.
  intros Hc. unfold rstrip_chars.
  by rewrite reverse_cons, lstrip_chars_snoc, reverse_snoc.
Qed.

Lemma rstrip_chars_idem (l : list ascii) :
  rstrip_chars (rstrip_chars l) = rstrip_chars l.
Proof.
  unfold rstrip_chars. by rewrite reverse_involutive, lstrip_chars_idem.
Qed.

Lemma length_lstrip_chars (l : list ascii) :
  (length (lstrip_chars l) ≤ length l)%nat.
Proof.
  induction l as [|a l IH]; simpl; [done|].
  destruct (Py.isspace a); simpl; lia.
Qed.

Lemma lstrip_rstrip_chars (l : list ascii) :
  lstrip_chars l = l → lstrip_chars (rstrip_chars l) = rstrip_chars l.
Proof.
  destruct l as [|c l]; [done|]. simpl.
  destruct (Py.isspace c) eqn:Hc.
  - intros Hl. exfalso.
    pose proof (length_lstrip_chars l) as Hlen.
    rewrite Hl in Hlen. simpl in Hlen. lia.
  - intros _. rewrite rstrip_chars_cons by done. simpl. by rewrite Hc.
Qed.

(** What [strip] returns has no white space at either end. *)
Lemma strip_chars_trimmed (l : list ascii) : trimmed (strip_chars l).
Proof.
  unfold trimmed, strip_chars. split.
  - apply lstrip_rstrip_chars, lstrip_chars_idem.
  - apply rstrip_chars_idem.
Qed.

Lemma strip_chars_fixed (l : list ascii) : trimmed l → strip_chars l = l.
Proof. intros [Hl Hr]. unfold strip_chars. by rewrite Hl, Hr. Qed.

Lemma strip_idem (s : string) : Py.strip (Py.strip s) = Py.strip s.
Proof.
  apply chars_inj. rewrite !chars_strip.
  apply strip_chars_fixed, strip_chars_trimmed.
Qed.

Lemma elem_of_lstrip_chars (l : list ascii) (c : ascii) :
  c ∈ lstrip_chars l → c ∈ l.
Proof.
  induction l as [|a l IH]; simpl; [done|].
  destruct (Py.isspace a); [|done]. intros H. right. by apply IH.
Qed.

(** Stripping adds no character. *)
Lemma elem_of_strip_chars (l : list ascii) (c : ascii) :
  c ∈ strip_chars l → c ∈ l.
Proof.
  unfold strip_chars, rstrip_chars. rewrite elem_of_reverse.
  intros H%elem_of_lstrip_chars. rewrite elem_of_reverse in H.
  by apply elem_of_lstrip_chars.
Qed.

(** * safe_excel_write.py *)

Section safe_excel_write.
Import SafeExcelWrite.

Lemma elem_of_keep_first_go (seen : list string) (df : table)
    (col : string * list cell) :
  col ∈ keep_first_go seen df → col ∈ df ∧ col.1 ∉ seen.
Proof.
  revert seen. induction df as [|x df IH]; intros seen; cbn [keep_first_go].
  - by intros ?%elem_of_nil.
  - case_decide as Hx.
    + intros [? ?]%IH. split; [by right|done].
    + intros [->|[? Hs]%IH]%elem_of_cons; [split; [left|done]|].
      split; [by right|]. by apply not_elem_of_cons in Hs as [_ ?].
Qed.

Lemma labels_keep_first_go (seen : list string) (df : table) (c : string) :
  c ∈ (keep_first_go seen df).*1 ↔ c ∈ df.*1 ∧ c ∉ seen.
Proof.
  revert seen. induction df as [|x df IH]; intros seen; cbn [keep_first_go].
  - split; [by intros ?%elem_of_nil|by intros [?%elem_of_nil _]].
  - case_decide as Hx.
    + rewrite IH, fmap_cons, elem_of_cons. split; [by intros [? ?]; auto|].
      intros [[->|?] ?]; done.
    + rewrite !fmap_cons, !elem_of_cons, IH, not_elem_of_cons. split.
      * intros [->|[? [? ?]]]; auto.
      * intros [[->|?] ?]; [by left|].
        destruct (decide (c = x.1)) as [->|?]; [by left|by right].
Qed.

Lemma NoDup_keep_first_go (seen : list string) (df : table) :
  NoDup (keep_first_go seen df).*1.
Proof.
  revert seen. induction df as [|x df IH]; intros seen; cbn [keep_first_go].
  - constructor.
  - case_decide; [done|]. rewrite fmap_cons. constructor; [|done].
    rewrite labels_keep_first_go, not_elem_of_cons. by intros [_ [? _]].
Qed.

(** A column that stays is the leftmost one with its label. *)
Lemma keep_first_go_leftmost (seen : list string) (df : table)
    (col : string * list cell) :
  col ∈ keep_first_go seen df →
  ∃ j, list_find (λ x : string * list cell, x.1 = col.1) df
       = Some (j, col).
Proof.
  revert seen. induction df as [|x df IH]; intros seen; cbn [keep_first_go].
  - by intros ?%elem_of_nil.
  - destruct (decide (x.1 ∈ seen)) as [Hx|Hx].
    + intros Hcol. pose proof Hcol as [_ Hs]%elem_of_keep_first_go.
      apply IH in Hcol as [j Hj].
      simpl. rewrite decide_False by (intros Heq; by rewrite Heq in Hx).
      rewrite Hj. by exists (S j).
    + intros [->|Hcol]%elem_of_cons.
      * simpl. rewrite decide_True by done. by exists 0%nat.
      * pose proof Hcol as [_ Hs]%elem_of_keep_first_go.
        apply not_elem_of_cons in Hs as [Hne _].
        apply IH in Hcol as [j Hj].
        simpl. rewrite decide_False by done. rewrite Hj. by exists (S j).
Qed.

Lemma keep_first_go_fixed (seen : list string) (df : table) :
  NoDup df.*1 → (∀ c, c ∈ df.*1 → c ∉ seen) →
  keep_first_go seen df = df.
Proof.
  revert seen. induction df as [|x df IH]; intros seen; cbn [keep_first_go]; [done|].
  rewrite fmap_cons, NoDup_cons. intros [Hx Hnd] Hseen.
  rewrite decide_False by (apply Hseen; left). f_equal.
  apply IH; [done|]. intros c Hc. rewrite not_elem_of_cons. split.
  - intros ->. done.
  - apply Hseen. by right.
Qed.

Lemma drop_unnamed_filter (df : table) :
  drop_unnamed df
  = filter (λ col : string * list cell, col.1 ≠ "Unnamed: 0") df.
Proof.
  unfold drop_unnamed. case_decide as Hu; [done|].
  induction df as [|x df IH]; [done|].
  rewrite fmap_cons, not_elem_of_cons in Hu. destruct Hu as [Hx Hu].
  rewrite filter_cons, decide_True by done. f_equal. by apply IH.
Qed.

Lemma list_find_filter {A : Type} (P Q : A → Prop)
    `{!∀ x, Decision (P x)} `{!∀ x, Decision (Q x)} (l : list A)
    (j : nat) (x : A) :
  (∀ y, Q y → P y) →
  list_find Q (filter P l) = Some (j, x) →
  ∃ j', list_find Q l = Some (j', x).
Proof.
  intros HQP. revert j. induction l as [|y l IH]; intros j; [done|].
  rewrite filter_cons. simpl.
  destruct (decide (Q y)) as [Hy|Hy].
  - rewrite decide_True by (by apply HQP). simpl.
    rewrite decide_True by done. intros [= <- <-]. by exists 0%nat.
  - destruct (decide (P y)) as [HPy|HPy].
    + simpl. rewrite decide_False by done.
      destruct (list_find Q (filter P l)) as [[j0 x0]|] eqn:Hf; [|done].
      simpl. intros [= <- <-].
      destruct (IH j0 eq_refl) as [j' ->]. by exists (S j').
    + intros Hf. destruct (IH j Hf) as [j' ->]. by exists (S j').
Qed.

(** The table before the two column filters. *)
Lemma cleaned_table (df : table) :
  clean_cells (clean_headers df)
  = (λ col : string * list cell,
       (Py.strip col.1, strip_cell <$> (fill_str <$> col.2))) <$> df.
Proof. unfold clean_cells, clean_headers. by rewrite <-list_fmap_compose. Qed.

Lemma written_eq (df : table) :
  written df
  = keep_first
      (filter (λ col : string * list cell, col.1 ≠ "Unnamed: 0")
         ((λ col : string * list cell,
             (Py.strip col.1, strip_cell <$> (fill_str <$> col.2)))
          <$> df)).
Proof.
  unfold written, safe_excel_write. simpl.
  by rewrite drop_unnamed_filter, cleaned_table.
Qed.

Lemma strip_fill_clean (v : cell) : clean_cell (strip_cell (fill_str v)).
Proof.
  destruct v as [|s]; simpl.
  - by exists "".
  - exists (Py.strip s). split; [done|]. apply strip_idem.
Qed.

Lemma written_clean (df : table) : Forall clean_column (written df).
Proof.
  rewrite written_eq. apply Forall_forall. intros col Hcol.
  apply elem_of_keep_first_go in Hcol as [Hcol _].
  apply list_elem_of_filter in Hcol as [_ Hcol].
  apply list_elem_of_fmap in Hcol as (col0 & -> & _).
  split; simpl; [apply strip_idem|].
  apply Forall_forall. intros v Hv.
  apply list_elem_of_fmap in Hv as (v1 & -> & Hv1).
  apply list_elem_of_fmap in Hv1 as (v0 & -> & _).
  apply strip_fill_clean.
Qed.

(** X13. The table [safe_excel_write] hands to the writer has pairwise
    different column labels, none of them Unnamed: 0; its labels are the
    stripped labels of the input other than Unnamed: 0; each of its
    columns comes from the leftmost input column with that stripped label
    (later ones are dropped) and has as many cells; and every cell is a
    text without white space at either end, a missing cell having become
    the empty text. *)
Theorem safe_excel_write_output (df : table) :
  NoDup (written df).*1
  ∧ (∀ c, c ∈ (written df).*1 ↔ c ≠ "Unnamed: 0" ∧ c ∈ Py.strip <$> df.*1)
  ∧ (∀ c col, (c, col) ∈ written df →
       ∃ j c0 col0,
         list_find (λ x : string * list cell, Py.strip x.1 = c) df
         = Some (j, (c0, col0))
         ∧ col = strip_cell <$> (fill_str <$> col0)
         ∧ length col = length col0)
  ∧ (∀ c col v, (c, col) ∈ written df → v ∈ col →
       ∃ s, v = Str s ∧ Py.strip s = s).
Proof.
  split; [|split; [|split]].
  - rewrite written_eq. apply NoDup_keep_first_go.
  - intros c. rewrite written_eq. unfold keep_first.
    rewrite labels_keep_first_go.
    rewrite !list_elem_of_fmap. split.
    + intros [([c' col] & -> & Hcol) _]. simpl.
      apply list_elem_of_filter in Hcol as [Hne Hcol]. split; [done|].
      apply list_elem_of_fmap in Hcol as (col0 & [= -> _] & Hcol0).
      exists col0.1. split; [done|]. apply list_elem_of_fmap.
      by exists col0.
    + intros [Hne (c0 & -> & (col0 & -> & Hcol0)%list_elem_of_fmap)].
      split; [|apply not_elem_of_nil].
      exists (Py.strip col0.1, strip_cell <$> (fill_str <$> col0.2)).
      split; [done|]. apply list_elem_of_filter. split; [done|].
      apply list_elem_of_fmap. by exists col0.
  - intros c col Hcol. rewrite written_eq in Hcol.
    pose proof Hcol as [Hin _]%elem_of_keep_first_go.
    apply list_elem_of_filter in Hin as [Hne _].
    apply keep_first_go_leftmost in Hcol as [j Hj]. simpl in Hj.
    apply list_find_filter in Hj as [j' Hj'];
      [|intros y Hy; simpl in *; by rewrite Hy].
    rewrite list_find_fmap in Hj'.
    destruct (list_find _ df) as [[j0 [c0 col0]]|] eqn:Hf; [|done].
    simpl in Hj'. injection Hj' as _ Hc Hcol0.
    exists j0, c0, col0. split; [done|]. split; [done|].
    by rewrite <-Hcol0, !length_fmap.
  - intros c col v Hcol Hv.
    pose proof (written_clean df) as Hclean.
    rewrite Forall_forall in Hclean.
    destruct (Hclean _ Hcol) as [_ Hcells]. simpl in Hcells.
    rewrite Forall_forall in Hcells. by apply Hcells.
Qed.

(** X14. Cleaning is idempotent: the table [safe_excel_write] writes is
    left as it is when it is cleaned again. *)
Theorem safe_excel_write_idempotent (df : table) :
  written (written df) = written df.
Proof.
  pose proof (written_clean df) as Hclean.
  assert (Hnd : NoDup (written df).*1)
    by (rewrite written_eq; apply NoDup_keep_first_go).
  assert (Hun : "Unnamed: 0" ∉ (written df).*1).
  { rewrite written_eq. unfold keep_first.
    rewrite labels_keep_first_go, list_elem_of_fmap.
    intros [([c col] & Hc & Hcol) _]. simpl in Hc. subst c.
    by apply list_elem_of_filter in Hcol as [Hne _]. }
  set (out := written df) in *.
  rewrite (written_eq out).
  assert (Hmap : (λ col : string * list cell,
                    (Py.strip col.1, strip_cell <$> (fill_str <$> col.2)))
                 <$> out = out).
  { rewrite <-(list_fmap_id out) at 2.
    apply Forall_fmap_ext_1. eapply Forall_impl; [exact Hclean|].
    intros [c col] [Hc Hcells]. simpl in *. rewrite Hc. f_equal.
    rewrite <-list_fmap_compose. rewrite <-(list_fmap_id col) at 2.
    apply Forall_fmap_ext_1. eapply Forall_impl; [exact Hcells|].
    intros v (s & -> & Hs). simpl. by rewrite Hs. }
  rewrite Hmap.
  assert (Hfilter : filter (λ col : string * list cell,
                              col.1 ≠ "Unnamed: 0") out = out).
  { clear Hmap Hclean Hnd. induction out as [|x out IH]; [done|].
    rewrite fmap_cons, not_elem_of_cons in Hun. destruct Hun as [Hx Hun].
    rewrite filter_cons, decide_True by done. f_equal. by apply IH. }
  rewrite Hfilter. apply keep_first_go_fixed; [done|].
  intros c _. apply not_elem_of_nil.
Qed.

End safe_excel_write.

(** Two columns whose labels differ in white space only: the left one is
    written, with its missing cell as the empty text; the index column is
    dropped. *)
Example safe_excel_write_sample :
  SafeExcelWrite.written
    [("Unnamed: 0", [Str "0"; Str "1"]);
     (" SKU", [Str " A-1 "; NaN]);
     ("SKU ", [Str "B-1"; Str "B-2"])]
  = [("SKU", [Str "A-1"; Str ""])].
Proof. vm_compute. reflexivity. Qed.

(** * compare-products-for-merge.py *)

Lemma collect_row_lookup (t : tag) (m : gmap string CompareProducts.product)
    (r : row) (k : string) :
  CompareProducts.collect_row t m r !! k =
    if decide (key_of r = k ∧ k ≠ "")
    then Some (CompareProducts.add_row t r
                 (default CompareProducts.no_product (m !! k)))
    else m !! k.
Proof.
  unfold CompareProducts.collect_row. fold (key_of r).
  rewrite eqb_string_decide.
  destruct (decide (key_of r = "")) as [He|He].
  - rewrite bool_decide_eq_true_2 by done. simpl.
    rewrite decide_False; [done|]. intros [<- ?]. done.
  - rewrite bool_decide_eq_false_2 by done. simpl.
    destruct (m !! key_of r) as [p|] eqn:Hp.
    + rewrite Hp. destruct (decide (key_of r = k)) as [<-|Hk].
      * rewrite decide_True by done. by rewrite lookup_insert_eq, Hp.
      * rewrite decide_False by (by intros [? ?]).
        by rewrite lookup_insert_ne.
    + rewrite lookup_insert_eq. destruct (decide (key_of r = k)) as [<-|Hk].
      * rewrite decide_True by done. by rewrite lookup_insert_eq, Hp.
      * rewrite decide_False by (by intros [? ?]).
        by rewrite !lookup_insert_ne.
Qed.

Lemma collect_loop_lookup (t : tag) (df : list row)
    (m : gmap string CompareProducts.product) (k : string) :
  fold_left (CompareProducts.collect_row t) df m !! k =
    if decide (k = "" ∨ rows_with_key k df = [])
    then m !! k
    else Some (fold_left (λ p r, CompareProducts.add_row t r p)
                 (rows_with_key k df)
                 (default CompareProducts.no_product (m !! k))).
Proof.
  revert m. induction df as [|r df IH]; intros m.
  - simpl. by rewrite decide_True by (by right).
  - simpl. rewrite IH, collect_row_lookup.
    unfold rows_with_key. rewrite filter_cons.
    destruct (decide (k = "")) as [->|Hk].
    + rewrite !decide_True by (by left).
      rewrite decide_False; [done|]. by intros [_ ?].
    + destruct (decide (key_of r = k)) as [Hr|Hr].
      * rewrite (decide_True (P := key_of r = k ∧ k ≠ "")) by done.
        rewrite (decide_False (P := k = "" ∨ r :: _ = [])); [|by intros [?|?]].
        simpl.
        destruct (filter _ df) as [|r' l] eqn:Hf.
        -- by rewrite decide_True by (by right).
        -- rewrite decide_False; [done|]. by intros [?|?].
      * rewrite (decide_False (P := key_of r = k ∧ k ≠ "")); [|by intros [? _]].
        done.
Qed.

Lemma last_snoc_cons {A : Type} (x : A) (l : list A) :
  last (x :: l) = Some (default x (last l)).
Proof.
  revert x. induction l as [|y l IH]; intros x; [done|].
  change (last (x :: y :: l)) with (last (y :: l)). rewrite IH.
  by destruct l.
Qed.

(** Square's loop on the rows of one name. *)
Lemma add_rows_square (new : list row) (p : CompareProducts.product) :
  fold_left (λ p r, CompareProducts.add_row Square r p) new p
  = CompareProducts.Product
      (CompareProducts.sources p ++ replicate (length new) "square")
      (match last new with
       | Some r => Some r | None => CompareProducts.square p end)
      (CompareProducts.palka p) (CompareProducts.tbd p).
Proof.
  revert p. induction new as [|r new IH]; intros p.
  - simpl. rewrite app_nil_r. by destruct p.
  - cbn [fold_left]. rewrite IH. simpl.
    rewrite <-app_assoc. f_equal.
    rewrite last_snoc_cons. by destruct (last new).
Qed.

(** Palka's loop on the rows of one name. *)
Lemma add_rows_palka (new : list row) (p : CompareProducts.product) :
  new ≠ [] →
  fold_left (λ p r, CompareProducts.add_row Palka r p) new p
  = CompareProducts.Product
      (if decide ("palka" ∈ CompareProducts.sources p)
       then CompareProducts.sources p
       else CompareProducts.sources p ++ ["palka"])
      (CompareProducts.square p) (last new) (CompareProducts.tbd p).
Proof.
  revert p. induction new as [|r new IH]; intros p Hne; [done|].
  cbn [fold_left]. destruct new as [|r' new'].
  - done.
  - rewrite IH by done. simpl. f_equal.
    destruct (decide ("palka" ∈ CompareProducts.sources p)) as [Hin|Hin].
    + by rewrite decide_True.
    + rewrite decide_True; [done|]. apply elem_of_app. right. by left.
Qed.

(** TBD's loop on the rows of one name. *)
Lemma add_rows_tbd (new : list row) (p : CompareProducts.product) :
  new ≠ [] →
  fold_left (λ p r, CompareProducts.add_row Tbd r p) new p
  = CompareProducts.Product
      (if decide ("tbd" ∈ CompareProducts.sources p)
       then CompareProducts.sources p
       else CompareProducts.sources p ++ ["tbd"])
      (CompareProducts.square p) (CompareProducts.palka p) (last new).
Proof.
  revert p. induction new as [|r new IH]; intros p Hne; [done|].
  cbn [fold_left]. destruct new as [|r' new'].
  - done.
  - rewrite IH by done. simpl. f_equal.
    destruct (decide ("tbd" ∈ CompareProducts.sources p)) as [Hin|Hin].
    + by rewrite decide_True.
    + rewrite decide_True; [done|]. apply elem_of_app. right. by left.
Qed.

Lemma not_elem_of_replicate_square (n : nat) (x : string) :
  x ≠ "square" → x ∉ replicate n "square".
Proof. intros Hx [-> _]%elem_of_replicate. done. Qed.

Lemma last_or {A : Type} (l : list A) :
  match last l with Some r => Some r | None => None end = last l.
Proof. by destruct (last l). Qed.

(** The dictionary after the loop over Square. *)
Lemma collect_square_lookup (sq : list row) (k : string) :
  fold_left (CompareProducts.collect_row Square) sq ∅ !! k
  = if decide (k = "" ∨ rows_with_key k sq = []) then None
    else Some (CompareProducts.Product
                 (replicate (length (rows_with_key k sq)) "square")
                 (last (rows_with_key k sq)) None None).
Proof.
  rewrite collect_loop_lookup, lookup_empty.
  case_decide; [done|]. rewrite add_rows_square. simpl.
  by rewrite last_or.
Qed.

(** The dictionary after the loops over Square and Palka. *)
Lemma collect_palka_lookup (sq pk : list row) (k : string) :
  fold_left (CompareProducts.collect_row Palka) pk
    (fold_left (CompareProducts.collect_row Square) sq ∅) !! k
  = if decide (k = "" ∨ (rows_with_key k sq = [] ∧ rows_with_key k pk = []))
    then None
    else Some (CompareProducts.Product
                 (replicate (length (rows_with_key k sq)) "square"
                  ++ (if decide (rows_with_key k pk = []) then []
                      else ["palka"]))
                 (last (rows_with_key k sq)) (last (rows_with_key k pk))
                 None).
Proof.
  rewrite collect_loop_lookup, collect_square_lookup.
  destruct (decide (k = "")) as [->|Hk].
  { by rewrite !decide_True by (by left). }
  destruct (decide (rows_with_key k pk = [])) as [Hpk|Hpk].
  - rewrite (decide_True (P := k = "" ∨ rows_with_key k pk = [])) by (by right).
    rewrite Hpk. destruct (decide (rows_with_key k sq = [])) as [Hsq|Hsq].
    + rewrite !decide_True; [done|by right|by right].
    + rewrite !decide_False;
        [by rewrite app_nil_r|by intros [?|[? _]]|by intros [?|?]].
  - rewrite (decide_False (P := k = "" ∨ rows_with_key k pk = []))
      by (by intros [?|?]).
    rewrite (decide_False (P := k = "" ∨ _ ∧ _)) by (by intros [?|[_ ?]]).
    rewrite add_rows_palka by done.
    destruct (decide (rows_with_key k sq = [])) as [Hsq|Hsq].
    + rewrite (decide_True (P := k = "" ∨ rows_with_key k sq = []))
        by (by right).
      rewrite Hsq. simpl. done.
    + rewrite (decide_False (P := k = "" ∨ rows_with_key k sq = []))
        by (by intros [?|?]).
      simpl.
      rewrite decide_False by (by apply not_elem_of_replicate_square). done.
Qed.

(** The dictionary after the three loops. *)
Lemma collect_lookup (sq pk tb : list row) (k : string) :
  CompareProducts.collect sq pk tb !! k
  = if decide (k = "" ∨ (rows_with_key k sq = [] ∧ rows_with_key k pk = []
                         ∧ rows_with_key k tb = []))
    then None
    else Some (compared sq pk tb k).
Proof.
  unfold CompareProducts.collect, compared.
  rewrite collect_loop_lookup, collect_palka_lookup.
  destruct (decide (k = "")) as [->|Hk].
  { by rewrite !decide_True by (by left). }
  destruct (decide (rows_with_key k tb = [])) as [Htb|Htb].
  - rewrite (decide_True (P := k = "" ∨ rows_with_key k tb = [])) by (by right).
    rewrite Htb, app_nil_r.
    destruct (decide (rows_with_key k sq = [] ∧ rows_with_key k pk = []))
      as [[Hsq Hpk]|Hn].
    + rewrite !decide_True; [done|by right|by right].
    + rewrite (decide_False (P := k = "" ∨ _ ∧ _ ∧ _)).
      2:{ intros [?|(? & ? & _)]; [done|]. by apply Hn. }
      rewrite (decide_False (P := k = "" ∨ _ ∧ _)) by (by intros [?|?]).
      done.
  - rewrite (decide_False (P := k = "" ∨ rows_with_key k tb = []))
      by (by intros [?|?]).
    rewrite (decide_False (P := k = "" ∨ _ ∧ _ ∧ _))
      by (by intros [?|(_ & _ & ?)]).
    rewrite add_rows_tbd by done. f_equal.
    destruct (decide (rows_with_key k sq = [] ∧ rows_with_key k pk = []))
      as [[Hsq Hpk]|Hn].
    + rewrite (decide_True (P := k = "" ∨ _ ∧ _)) by (by right).
      rewrite Hsq, Hpk. simpl. done.
    + rewrite (decide_False (P := k = "" ∨ _ ∧ _)) by (by intros [?|?]).
      simpl.
      rewrite decide_False; [by rewrite <-app_assoc|].
      intros [Hin|Hin]%elem_of_app.
      * by apply not_elem_of_replicate_square in Hin.
      * destruct (decide (rows_with_key k pk = [])).
        -- by apply not_elem_of_nil in Hin.
        -- apply list_elem_of_singleton in Hin. done.
Qed.

(** X15. What the three collecting loops leave in [all_products]: an entry
    for every non-empty normalized name of the three catalogs and for nothing
    else.  The entry lists 'square' once for every Square row with that name,
    then 'palka' and 'tbd' once each if the catalog has such a row, and keeps
    for each catalog the last of its rows with that name (the merge script
    takes the first). *)
Theorem compare_index_entry (sq pk tb : list row) (k : string) :
  CompareProducts.collect sq pk tb !! k
  = if decide (k ≠ "" ∧ k ∈ normalized_names sq pk tb)
    then Some (compared sq pk tb k) else None.
Proof.
  rewrite collect_lookup.
  destruct (decide (k = "")) as [->|Hk].
  { rewrite decide_True by (by left).
    rewrite decide_False; [done|]. by intros [? _]. }
  destruct (decide (k ∈ normalized_names sq pk tb)) as [Hin|Hin].
  - rewrite (decide_True (P := k ≠ "" ∧ _)) by done.
    rewrite decide_False; [done|].
    apply elem_of_normalized_names in Hin.
    intros [?|(? & ? & ?)]; [done|]. by destruct Hin as [?|[?|?]].
  - rewrite (decide_False (P := k ≠ "" ∧ _)) by (by intros [_ ?]).
    rewrite decide_True; [done|]. right.
    rewrite elem_of_normalized_names in Hin.
    split; [|split].
    + destruct (decide (rows_with_key k sq = [])); [done|].
      destruct Hin. by left.
    + destruct (decide (rows_with_key k pk = [])); [done|].
      destruct Hin. by right; left.
    + destruct (decide (rows_with_key k tb = [])); [done|].
      destruct Hin. by right; right.
Qed.

Lemma collect_dom (sq pk tb : list row) :
  dom (CompareProducts.collect sq pk tb) = dom (build_index sq pk tb).
Proof.
  apply set_eq. intros k. rewrite !elem_of_dom.
  rewrite collect_lookup, build_index_lookup.
  destruct (decide (k = "")) as [->|Hk].
  - rewrite decide_True by (by left).
    rewrite decide_False; [done|]. by intros [? _].
  - destruct (decide (rows_with_key k sq = [] ∧ rows_with_key k pk = []
                      ∧ rows_with_key k tb = [])) as [(H1 & H2 & H3)|Hn].
    + rewrite decide_True by (by right).
      rewrite decide_False; [done|]. intros [_ [?|[?|?]]]; done.
    + rewrite decide_False by (by intros [?|?]).
      rewrite decide_True; [by split; eauto|].
      split; [done|].
      destruct (decide (rows_with_key k sq = [])); [|by left].
      destruct (decide (rows_with_key k pk = [])); [|by right; left].
      destruct (decide (rows_with_key k tb = [])); [|by right; right].
      destruct Hn. done.
Qed.

(** X16. The compare script and the merge script see the same products: for
    the same three catalogs [all_products] has the keys of the merge's
    [product_index], and the total the compare script prints as the number of
    unique products is the number of rows of the merged catalog. *)
Theorem compare_counts_merged_rows (sq pk tb : list row) :
  dom (CompareProducts.collect sq pk tb) = dom (build_index sq pk tb)
  ∧ (CompareProducts.distribution (CompareProducts.collect sq pk tb)).2
    = length (merged_catalog sq pk tb).
Proof.
  split; [apply collect_dom|].
  unfold CompareProducts.distribution. cbn [snd].
  rewrite merged_catalog_fmap, length_fmap, sorted_items_perm.
  rewrite length_map_to_list, <-!size_dom. by rewrite collect_dom.
Qed.

Lemma compared_listings (sq pk tb : list row) (k : string) :
  length (CompareProducts.sources (compared sq pk tb k)) = listings sq pk tb k.
Proof.
  unfold compared, listings. cbn [CompareProducts.sources].
  rewrite !length_app, length_replicate.
  do 2 case_decide; simpl; lia.
Qed.

Lemma three_bins_le {A : Type} (f : A → nat) (l : list A) :
  (length (filter (λ x, f x = 1%nat) l) + length (filter (λ x, f x = 2%nat) l)
   + length (filter (λ x, f x = 3%nat) l) ≤ length l)%nat.
Proof.
  induction l as [|x l IH]; [done|].
  rewrite !filter_cons. repeat case_decide; simpl; lia.
Qed.

Lemma three_bins_eq {A : Type} (f : A → nat) (l : list A) :
  (length (filter (λ x, f x = 1%nat) l) + length (filter (λ x, f x = 2%nat) l)
   + length (filter (λ x, f x = 3%nat) l))%nat = length l
  ↔ Forall (λ x, (1 ≤ f x ≤ 3)%nat) l.
Proof.
  induction l as [|x l IH]; [by split; [constructor|]|].
  rewrite Forall_cons, <-IH. pose proof (three_bins_le f l) as Hle.
  rewrite !filter_cons. repeat case_decide; simpl; lia.
Qed.

(** X17. The three counts of the product distribution add up to the total of
    unique products exactly when no name is noted more than three times, that
    is when no name has so many Square rows that, with Palka's and TBD's one
    note each, its list of sources is longer than three. *)
Theorem distribution_adds_up (sq pk tb : list row) :
  (CompareProducts.count_with 1 (CompareProducts.collect sq pk tb)
   + CompareProducts.count_with 2 (CompareProducts.collect sq pk tb)
   + CompareProducts.count_with 3 (CompareProducts.collect sq pk tb))%nat
  = size (CompareProducts.collect sq pk tb)
  ↔ ∀ k, k ≠ "" → (listings sq pk tb k ≤ 3)%nat.
Proof.
  unfold CompareProducts.count_with.
  rewrite <-length_map_to_list.
  rewrite (three_bins_eq (λ item : string * CompareProducts.product,
                            length (CompareProducts.sources item.2))).
  rewrite Forall_forall. split.
  - intros Hall k Hk.
    destruct (decide (rows_with_key k sq = [] ∧ rows_with_key k pk = []
                      ∧ rows_with_key k tb = [])) as [(H1 & H2 & H3)|Hn].
    + unfold listings. rewrite H1, H2, H3. simpl. lia.
    + assert (Hin : (k, compared sq pk tb k)
                      ∈ map_to_list (CompareProducts.collect sq pk tb)).
      { apply elem_of_map_to_list. rewrite collect_lookup.
        by rewrite decide_False by (by intros [?|?]). }
      apply Hall in Hin. cbn [snd] in Hin.
      rewrite compared_listings in Hin. apply Hin.
  - intros Hall [k p] Hin. cbn [snd].
    apply elem_of_map_to_list in Hin. rewrite collect_lookup in Hin.
    case_decide as Hd; [done|]. apply (inj Some) in Hin as <-.
    rewrite compared_listings.
    assert (Hk : k ≠ "") by (intros ->; apply Hd; by left).
    split; [|by apply Hall].
    unfold listings.
    destruct (rows_with_key k sq) as [|? ?] eqn:H1; [|simpl; lia].
    destruct (decide (rows_with_key k pk = [])) as [H2|H2]; [|simpl; lia].
    destruct (decide (rows_with_key k tb = [])) as [H3|H3]; [|simpl; lia].
    destruct Hd. by right.
Qed.

(** * validate_square_headers.py *)

Lemma count_pos (x : string) (l : list string) :
  (0 < Py.count x l)%nat ↔ x ∈ l.
Proof.
  unfold Py.count. induction l as [|y l IH]; simpl.
  - split; [lia|]. by intros ?%elem_of_nil.
  - rewrite filter_cons, elem_of_cons. case_decide as Hy; simpl.
    + subst. split; [intros _; by left|lia].
    + rewrite IH. split; [intros ?; by right|]. intros [?|?]; [by subst|done].
Qed.

Lemma count_cons (x y : string) (l : list string) :
  Py.count x (y :: l)
  = ((if decide (y = x) then 1 else 0) + Py.count x l)%nat.
Proof. unfold Py.count. rewrite filter_cons. by case_decide. Qed.

Lemma NoDup_count (l : list string) :
  NoDup l ↔ ∀ x, (Py.count x l ≤ 1)%nat.
Proof.
  induction l as [|y l IH].
  - split; [intros _ x; cbv; lia|]. intros _. constructor.
  - rewrite NoDup_cons, IH. split.
    + intros [Hy Hl] x. rewrite count_cons. case_decide as Hx.
      * subst. assert (Py.count x l = 0%nat); [|lia].
        destruct (Py.count x l) eqn:Hc; [done|].
        destruct Hy. apply count_pos. lia.
      * apply Hl.
    + intros Hall. split.
      * intros Hy%count_pos. specialize (Hall y).
        rewrite count_cons, decide_True in Hall by done. lia.
      * intros x. specialize (Hall x). rewrite count_cons in Hall. lia.
Qed.

Lemma elem_of_duplicates (headers : list string) (x : string) :
  x ∈ HeaderValidator.duplicates headers ↔ (2 ≤ Py.count x headers)%nat.
Proof.
  unfold HeaderValidator.duplicates.
  rewrite elem_of_list_to_set, list_elem_of_filter. split; [lia|].
  intros H. split; [lia|]. apply count_pos. lia.
Qed.

Lemma duplicates_empty (headers : list string) :
  HeaderValidator.duplicates headers = ∅ ↔ NoDup headers.
Proof.
  rewrite NoDup_count. split.
  - intros He x. destruct (decide (2 ≤ Py.count x headers)%nat) as [H|H]; [|lia].
    apply elem_of_duplicates in H. rewrite He in H.
    by apply not_elem_of_empty in H.
  - intros Hall. apply set_eq. intros x. rewrite elem_of_duplicates.
    split; [|by intros ?%not_elem_of_empty].
    specialize (Hall x). lia.
Qed.

Lemma NoDup_sorted (names : gset string) : NoDup (ValueValidator.sorted names).
Proof.
  unfold ValueValidator.sorted. rewrite merge_sort_Permutation.
  apply NoDup_elements.
Qed.

Lemma sorted_nil (names : gset string) :
  ValueValidator.sorted names = [] ↔ names = ∅.
Proof.
  split.
  - intros H. apply set_eq. intros x. rewrite <-elem_of_sorted, H.
    split; [by intros ?%elem_of_nil|by intros ?%not_elem_of_empty].
  - intros ->. reflexivity.
Qed.

Lemma elem_of_missing (headers : list string) (c : string) :
  c ∈ HeaderValidator.missing headers
  ↔ c ∈ HeaderValidator.REQUIRED_FIELDS ∧ c ∉ headers.
Proof.
  unfold HeaderValidator.missing.
  by rewrite elem_of_difference, elem_of_list_to_set.
Qed.

Lemma missing_empty (headers : list string) :
  HeaderValidator.missing headers = ∅
  ↔ ∀ c, c ∈ HeaderValidator.REQUIRED_FIELDS → c ∈ headers.
Proof.
  split.
  - intros He c Hc. destruct (decide (c ∈ headers)) as [Hin|Hn]; [exact Hin|].
    exfalso. apply (not_elem_of_empty (C := gset string) c).
    rewrite <-He. apply elem_of_missing. split; assumption.
  - intros Hall. apply set_eq. intros c. rewrite elem_of_missing. split.
    + intros [Hc Hn]. exfalso. apply Hn, Hall, Hc.
    + intros Hc. exfalso. exact (not_elem_of_empty c Hc).
Qed.

Lemma elem_of_header_report (headers : list string) (l : HeaderValidator.line) :
  l ∈ HeaderValidator.validate_square_import headers
  ↔ l = (if decide (HeaderValidator.duplicates headers ≠ ∅)
         then HeaderValidator.DuplicateHeaders
                (ValueValidator.sorted (HeaderValidator.duplicates headers))
         else HeaderValidator.NoDuplicateHeaders)
    ∨ l = (if decide (HeaderValidator.missing headers ≠ ∅)
           then HeaderValidator.MissingRequired
                  (ValueValidator.sorted (HeaderValidator.missing headers))
           else HeaderValidator.AllRequiredPresent)
    ∨ l = HeaderValidator.CheckComplete.
Proof.
  unfold HeaderValidator.validate_square_import.
  rewrite !elem_of_cons. split.
  - intros [?|[?|[?|?%elem_of_nil]]]; [by left|by right; left|by right; right|done].
  - intros [?|[?|?]]; [by left|by right; left|by right; right; left].
Qed.

(** X18. What the header check prints: the line for no duplicates exactly
    when no header occurs twice, the line for all required headers exactly
    when each of the fourteen required fields is a header.  A report of
    duplicates names, once each, the headers that occur at least twice; a
    report of missing headers names, once each, the required fields that are
    no header; neither report is ever empty. *)
Theorem header_check_report (headers : list string) :
  (HeaderValidator.NoDuplicateHeaders
     ∈ HeaderValidator.validate_square_import headers ↔ NoDup headers)
  ∧ (HeaderValidator.AllRequiredPresent
       ∈ HeaderValidator.validate_square_import headers
     ↔ ∀ c, c ∈ HeaderValidator.REQUIRED_FIELDS → c ∈ headers)
  ∧ (∀ names,
       HeaderValidator.DuplicateHeaders names
         ∈ HeaderValidator.validate_square_import headers →
       names ≠ [] ∧ NoDup names
       ∧ ∀ x, x ∈ names ↔ (2 ≤ Py.count x headers)%nat)
  ∧ (∀ names,
       HeaderValidator.MissingRequired names
         ∈ HeaderValidator.validate_square_import headers →
       names ≠ [] ∧ NoDup names
       ∧ ∀ c, c ∈ names ↔ c ∈ HeaderValidator.REQUIRED_FIELDS ∧ c ∉ headers).
Proof.
  split; [|split; [|split]].
  - rewrite elem_of_header_report, <-duplicates_empty.
    destruct (decide (HeaderValidator.duplicates headers ≠ ∅)) as [Hd|Hd],
             (decide (HeaderValidator.missing headers ≠ ∅)) as [Hm|Hm].
    all: split; [intros [H|[H|H]]; try discriminate H|intros H].
    all: try (by destruct Hd).
    all: try (by apply dec_stable).
    all: by left.
  - rewrite elem_of_header_report, <-missing_empty.
    destruct (decide (HeaderValidator.duplicates headers ≠ ∅)) as [Hd|Hd],
             (decide (HeaderValidator.missing headers ≠ ∅)) as [Hm|Hm].
    all: split; [intros [H|[H|H]]; try discriminate H|intros H].
    all: try (by destruct Hm).
    all: try (by apply dec_stable).
    all: by right; left.
  - intros names [H|[H|H]]%elem_of_header_report.
    + case_decide as Hd; [|discriminate H]. injection H as ->.
      split; [by rewrite sorted_nil|]. split; [apply NoDup_sorted|].
      intros x. by rewrite elem_of_sorted, elem_of_duplicates.
    + case_decide; discriminate H.
    + discriminate H.
  - intros names [H|[H|H]]%elem_of_header_report.
    + case_decide; discriminate H.
    + case_decide as Hd; [|discriminate H]. injection H as ->.
      split; [by rewrite sorted_nil|]. split; [apply NoDup_sorted|].
      intros x. by rewrite elem_of_sorted, elem_of_missing.
    + discriminate H.
Qed.

Lemma required_fields_columns :
  HeaderValidator.REQUIRED_FIELDS = ValueValidator.REQUIRED_COLUMNS.
Proof. reflexivity. Qed.

Lemma missing_missing_headers (df : dataframe) :
  HeaderValidator.missing (columns df) = missing_headers df.
Proof. reflexivity. Qed.

Lemma missing_headers_problem (df : dataframe) (names : list string) :
  MissingHeaders names ∈ collect_errors df
  ↔ missing_headers df ≠ ∅ ∧ names = ValueValidator.sorted (missing_headers df).
Proof.
  rewrite collect_errors_eq, elem_of_app. split.
  - intros [H|H].
    + unfold check_headers in H. case_decide as Hm.
      * apply list_elem_of_singleton in H. injection H as ->. done.
      * by apply elem_of_nil in H.
    + apply list_elem_of_bind in H as ([field expected] & Hp & _).
      unfold value_problems, check_value in Hp. exfalso.
      repeat case_decide.
      * by apply elem_of_nil in Hp.
      * apply list_elem_of_singleton in Hp. discriminate Hp.
      * apply list_elem_of_singleton in Hp. discriminate Hp.
  - intros [Hm ->]. left. unfold check_headers.
    rewrite decide_True by exact Hm. by left.
Qed.

(** X19. The header validator and the value validator agree on the headers
    of a table: one reports a list of missing required headers exactly when
    the other reports the same list, and a table that the value validator
    finds all correct passes the required-headers check. *)
Theorem validators_agree_on_headers (df : dataframe) :
  (∀ names,
     HeaderValidator.MissingRequired names
       ∈ HeaderValidator.validate_square_import (columns df)
     ↔ Problem (MissingHeaders names) ∈ validate_values df)
  ∧ (validate_values df = [AllCorrect] →
     HeaderValidator.AllRequiredPresent
       ∈ HeaderValidator.validate_square_import (columns df)).
Proof.
  assert (Hprinted : ∀ names,
    Problem (MissingHeaders names) ∈ validate_values df
    ↔ MissingHeaders names ∈ collect_errors df).
  { intros names. unfold validate_values. case_decide as He.
    - rewrite list_elem_of_fmap. split.
      + intros (p & [= <-] & Hp). exact Hp.
      + intros Hp. by exists (MissingHeaders names).
    - rewrite He. split.
      + intros H%list_elem_of_singleton. discriminate H.
      + by intros ?%elem_of_nil. }
  split.
  - intros names. rewrite Hprinted, missing_headers_problem.
    rewrite elem_of_header_report, missing_missing_headers. split.
    + intros [H|[H|H]].
      * case_decide; discriminate H.
      * case_decide as Hm; [|discriminate H]. injection H as ->. done.
      * discriminate H.
    + intros [Hm ->]. right; left. by rewrite decide_True by exact Hm.
  - intros Hok. apply elem_of_header_report. right; left.
    rewrite missing_missing_headers.
    destruct (decide (missing_headers df ≠ ∅)) as [Hm|Hm]; [|done].
    exfalso.
    assert (Hp : Problem (MissingHeaders (ValueValidator.sorted (missing_headers df)))
                 ∈ validate_values df).
    { apply Hprinted, missing_headers_problem. done. }
    rewrite Hok in Hp. apply list_elem_of_singleton in Hp. discriminate Hp.
Qed.

(** * normalize_categories.py *)

Lemma chars_remove_char (c : ascii) (s : string) :
  chars (Py.remove_char c s) = filter (λ a, a ≠ c) (chars s).
Proof.
  induction s as [|a s IH]; simpl; [done|].
  rewrite filter_cons. destruct (Ascii.eqb_spec a c) as [->|Hne].
  - by rewrite decide_False by (by intros ?).
  - rewrite decide_True by done. simpl. by rewrite IH.
Qed.

Lemma remove_char_fixed (c : ascii) (s : string) :
  c ∉ chars s → Py.remove_char c s = s.
Proof.
  induction s as [|a s IH]; simpl; [done|].
  intros Hc. apply not_elem_of_cons in Hc as [Hne Hc].
  destruct (Ascii.eqb_spec a c) as [->|_]; [done|]. by rewrite IH.
Qed.

(** The pieces of a split hold no separator and no new character. *)
Lemma elem_of_split_go (sep : ascii) (piece s q : string) (c : ascii) :
  q ∈ Py.split_go sep piece s → c ∈ chars q →
  (c ∈ chars piece ∨ (c ≠ sep ∧ c ∈ chars s)).
Proof.
  revert piece q. induction s as [|a s IH]; intros piece q; simpl.
  - intros ->%list_elem_of_singleton. rewrite chars_rev, elem_of_reverse.
    by left.
  - destruct (Ascii.eqb_spec a sep) as [->|Hne].
    + intros [->|Hq]%elem_of_cons Hc.
      * rewrite chars_rev, elem_of_reverse in Hc. by left.
      * destruct (IH _ _ Hq Hc) as [H|[? ?]]; [by apply elem_of_nil in H|].
        right. split; [done|]. by right.
    + intros Hq Hc. destruct (IH _ _ Hq Hc) as [H|[? ?]].
      * simpl in H. apply elem_of_cons in H as [->|H]; [|by left].
        right. split; [done|]. by left.
      * right. split; [done|]. by right.
Qed.

Lemma elem_of_split (sep : ascii) (s q : string) (c : ascii) :
  q ∈ Py.split sep s → c ∈ chars q → c ≠ sep ∧ c ∈ chars s.
Proof.
  intros Hq Hc. destruct (elem_of_split_go sep "" s q c Hq Hc) as [H|H].
  - by apply elem_of_nil in H.
  - done.
Qed.

(** Splitting a text without separator gives the text. *)
Lemma split_go_none (sep : ascii) (piece s : string) :
  sep ∉ chars s → Py.split_go sep piece s = [String.rev piece +:+ s].
Proof.
  revert piece. induction s as [|a s IH]; intros piece Hs; simpl.
  - f_equal. apply chars_inj. by rewrite chars_append, app_nil_r.
  - apply not_elem_of_cons in Hs as [Hne Hs].
    destruct (Ascii.eqb_spec a sep) as [->|_]; [done|].
    rewrite IH by done. f_equal. apply chars_inj.
    rewrite !chars_append, !chars_rev. simpl.
    by rewrite reverse_cons, <-app_assoc.
Qed.

Lemma split_go_app (sep : ascii) (piece s t : string) :
  sep ∉ chars s →
  Py.split_go sep piece (s +:+ String sep t)
  = (String.rev piece +:+ s) :: Py.split_go sep "" t.
Proof.
  revert piece. induction s as [|a s IH]; intros piece Hs; simpl.
  - rewrite Ascii.eqb_refl. f_equal.
    apply chars_inj. by rewrite chars_append, app_nil_r.
  - apply not_elem_of_cons in Hs as [Hne Hs].
    destruct (Ascii.eqb_spec a sep) as [->|_]; [done|].
    rewrite IH by done. f_equal. apply chars_inj.
    rewrite !chars_append, !chars_rev. simpl.
    by rewrite reverse_cons, <-app_assoc.
Qed.

Lemma append_assoc (s t u : string) : (s +:+ t) +:+ u = s +:+ (t +:+ u).
Proof. apply chars_inj. by rewrite !chars_append, app_assoc. Qed.

(** Splitting a joined list at the commas gives the names back, all but the
    first behind the blank of the separator. *)
Lemma split_join (w x : string) (l : list string) :
  (","%char ∉ chars w) → Forall (λ p, ","%char ∉ chars p) (x :: l) →
  Py.split "," (w +:+ Py.join ", " (x :: l))
  = (w +:+ x) :: (String " " <$> l).
Proof.
  revert w x. induction l as [|y l IH]; intros w x Hw Hl.
  - apply Forall_cons in Hl as [Hx _]. unfold Py.split. simpl.
    rewrite split_go_none; [done|].
    rewrite chars_append, elem_of_app. by intros [?|?].
  - apply Forall_cons in Hl as [Hx Hl].
    change (Py.join ", " (x :: y :: l))
      with (x +:+ String "," (" " +:+ Py.join ", " (y :: l))).
    rewrite <-append_assoc. unfold Py.split.
    rewrite split_go_app.
    2:{ rewrite chars_append, elem_of_app. by intros [?|?]. }
    simpl. f_equal. apply (IH " " y); [|done].
    simpl. rewrite elem_of_cons. intros [H|H]; [discriminate H|].
    by apply elem_of_nil in H.
Qed.

Lemma strip_blank (p : string) : Py.strip (String " " p) = Py.strip p.
Proof. reflexivity. Qed.

Lemma lstrip_chars_fixed (l : list ascii) :
  lstrip_chars l = l ↔ ∀ c, head l = Some c → Py.isspace c = false.
Proof.
  destruct l as [|a l]; simpl; [done|].
  destruct (Py.isspace a) eqn:Ha.
  - split.
    + intros Hl. exfalso. pose proof (length_lstrip_chars l) as Hlen.
      rewrite Hl in Hlen. simpl in Hlen. lia.
    + intros Hc. specialize (Hc a eq_refl). congruence.
  - split; [|done]. intros _ c [= <-]. done.
Qed.

Lemma rstrip_chars_fixed (l : list ascii) :
  rstrip_chars l = l ↔ ∀ c, last l = Some c → Py.isspace c = false.
Proof.
  unfold rstrip_chars. rewrite <-head_reverse, <-lstrip_chars_fixed. split.
  - intros H. rewrite <-H at 2. by rewrite reverse_involutive.
  - intros H. by rewrite H, reverse_involutive.
Qed.

Lemma edged_strip (s : string) : edged s → Py.strip s = s.
Proof.
  intros [(a & Ha & Hsa) (b & Hb & Hsb)]. apply chars_inj.
  rewrite chars_strip. apply strip_chars_fixed. split.
  - apply lstrip_chars_fixed. intros c Hc. congruence.
  - apply rstrip_chars_fixed. intros c Hc. congruence.
Qed.

Lemma strip_edged (s : string) : Py.strip s = s → s ≠ "" → edged s.
Proof.
  intros Hs Hne.
  assert (Ht : trimmed (chars s)).
  { rewrite <-Hs, chars_strip. apply strip_chars_trimmed. }
  destruct Ht as [Hl Hr].
  assert (Hc : chars s ≠ []).
  { intros He. apply Hne, chars_inj. by rewrite He. }
  split.
  - destruct (chars s) as [|a l] eqn:Hs'; [done|]. exists a. split; [done|].
    by apply (proj1 (lstrip_chars_fixed (a :: l))).
  - destruct (last (chars s)) as [b|] eqn:Hb.
    + exists b. split; [done|].
      by apply (proj1 (rstrip_chars_fixed (chars s))).
    + by apply last_None in Hb.
Qed.

Lemma edged_append (s m t : string) :
  edged s → edged t → edged (s +:+ m +:+ t).
Proof.
  intros [(a & Ha & Hsa) _] [_ (b & Hb & Hsb)]. split.
  - exists a. split; [|done]. rewrite chars_append.
    destruct (chars s); [done|]. done.
  - exists b. split; [|done]. rewrite !chars_append, !last_app. by rewrite Hb.
Qed.

Lemma join_edged (x : string) (l : list string) :
  Forall edged (x :: l) → edged (Py.join ", " (x :: l)).
Proof.
  revert x. induction l as [|y l IH]; intros x Hl.
  - by apply Forall_cons in Hl as [? _].
  - apply Forall_cons in Hl as [Hx Hl].
    change (Py.join ", " (x :: y :: l))
      with (x +:+ ", " +:+ Py.join ", " (y :: l)).
    apply edged_append; [done|]. by apply IH.
Qed.

Lemma elem_of_chars_join (c : ascii) (l : list string) :
  c ∈ chars (Py.join ", " l) →
  c = ","%char ∨ c = " "%char ∨ ∃ x, x ∈ l ∧ c ∈ chars x.
Proof.
  induction l as [|x l IH]; [by intros ?%elem_of_nil|].
  destruct l as [|y l].
  - intros Hc. right; right. exists x. split; [by left|done].
  - change (Py.join ", " (x :: y :: l))
      with (x +:+ ", " +:+ Py.join ", " (y :: l)).
    rewrite !chars_append, !elem_of_app. intros [Hc|[Hc|Hc]].
    + right; right. exists x. split; [by left|done].
    + simpl in Hc. apply elem_of_cons in Hc as [->|Hc]; [by left|].
      apply elem_of_cons in Hc as [->|Hc]; [by right; left|].
      by apply elem_of_nil in Hc.
    + destruct (IH Hc) as [?|[?|(z & Hz & Hcz)]]; [by left|by right; left|].
      right; right. exists z. split; [by right|done].
Qed.

Lemma filter_all {A : Type} (P : A → Prop) `{!∀ x, Decision (P x)}
    (l : list A) :
  Forall P l → filter P l = l.
Proof.
  induction 1 as [|x l Hx Hl IH]; [done|].
  by rewrite filter_cons, decide_True, IH.
Qed.

(** The names of a joined list of names are the list. *)
Lemma category_parts_join (l : list string) :
  Forall part_like l → category_parts (Py.join ", " l) = l.
Proof.
  intros Hl. unfold category_parts. destruct l as [|x l]; [done|].
  rewrite remove_char_fixed.
  2:{ intros [H|[H|(z & Hz & Hc)]]%elem_of_chars_join;
        [discriminate H|discriminate H|].
      rewrite Forall_forall in Hl. by destruct (Hl z Hz) as (_ & _ & _ & ?). }
  rewrite edged_strip.
  2:{ apply join_edged. eapply Forall_impl; [exact Hl|].
      intros p (? & ? & _). by apply strip_edged. }
  assert (Hsp : Py.split "," (Py.join ", " (x :: l))
                = x :: (String " " <$> l)).
  { apply (split_join "" x l); [by intros ?%elem_of_nil|].
    eapply Forall_impl; [exact Hl|]. by intros p (_ & _ & ? & _). }
  rewrite Hsp.
  assert (Hs : Py.strip <$> x :: (String " " <$> l) = x :: l).
  { rewrite fmap_cons, <-list_fmap_compose.
    apply Forall_cons in Hl as [(Hx & _) Hl]. rewrite Hx. f_equal.
    rewrite <-(list_fmap_id l) at 2. apply Forall_fmap_ext_1.
    eapply Forall_impl; [exact Hl|]. intros p (Hp & _). simpl.
    by rewrite strip_blank. }
  rewrite Hs. apply filter_all.
  eapply Forall_impl; [exact Hl|]. by intros p (_ & ? & _).
Qed.

Lemma category_parts_like (s : string) : Forall part_like (category_parts s).
Proof.
  apply Forall_forall. intros p Hp. unfold category_parts in Hp.
  apply list_elem_of_filter in Hp as [Hne Hp].
  apply list_elem_of_fmap in Hp as (q & -> & Hq).
  split; [apply strip_idem|]. split; [exact Hne|]. split.
  - intros Hc. rewrite chars_strip in Hc. apply elem_of_strip_chars in Hc.
    by destruct (elem_of_split _ _ _ _ Hq Hc).
  - intros Hc. rewrite chars_strip in Hc. apply elem_of_strip_chars in Hc.
    destruct (elem_of_split _ _ _ _ Hq Hc) as [_ Hc'].
    rewrite chars_strip in Hc'. apply elem_of_strip_chars in Hc'.
    rewrite chars_remove_char in Hc'.
    by apply list_elem_of_filter in Hc' as [? _].
Qed.

Lemma apothecary_name : category_name "The Apothecary Cabinet".
Proof.
  split; [reflexivity|]. split; [discriminate|].
  split; [apply (bool_decide_unpack _); vm_compute; exact I|].
  split; [apply (bool_decide_unpack _); vm_compute; exact I|].
  split; discriminate.
Qed.

Lemma curated_labz_name : category_name "Curated Labz".
Proof.
  split; [reflexivity|]. split; [discriminate|].
  split; [apply (bool_decide_unpack _); vm_compute; exact I|].
  split; [apply (bool_decide_unpack _); vm_compute; exact I|].
  split; discriminate.
Qed.

Lemma fix_part_name (p : string) :
  part_like p → category_name (NormalizeCategories.fix_part p).
Proof.
  intros (Hs & Hne & Hc & Hb). unfold NormalizeCategories.fix_part.
  destruct (decide (p = "TRTR Curated")) as [_|H1]; [apply apothecary_name|].
  destruct (decide (p = "Labz")) as [_|H2]; [apply curated_labz_name|].
  repeat split; assumption.
Qed.

Lemma fix_part_fixed (p : string) :
  category_name p → NormalizeCategories.fix_part p = p.
Proof.
  intros (_ & _ & _ & _ & H1 & H2). unfold NormalizeCategories.fix_part.
  by rewrite !decide_False.
Qed.

Lemma elem_of_category_names (s n : string) :
  n ∈ category_names s
  ↔ ∃ p, p ∈ category_parts s ∧ n = NormalizeCategories.fix_part p.
Proof.
  unfold category_names.
  rewrite elem_of_sorted, elem_of_list_to_set, list_elem_of_fmap.
  split; intros (p & ? & ?); by exists p.
Qed.

Lemma category_names_ok (s : string) : Forall category_name (category_names s).
Proof.
  apply Forall_forall. intros n (p & Hp & ->)%elem_of_category_names.
  apply fix_part_name.
  by apply (proj1 (Forall_forall _ _) (category_parts_like s)).
Qed.

Lemma sorted_sorted (names : gset string) :
  ValueValidator.sorted (list_to_set (ValueValidator.sorted names))
  = ValueValidator.sorted names.
Proof.
  f_equal. apply set_eq. intros x.
  by rewrite elem_of_list_to_set, elem_of_sorted.
Qed.

(** X20. What the normalisation writes into a text cell: the category
    names of the text (the stripped, non-empty pieces between its commas,
    backslashes removed, with the two old names replaced), joined by a comma
    and a blank, in ascending order and each one once.  No name written is
    empty, has white space at an end, holds a comma or a backslash, or is
    one of the two old names; reading the cell back at its commas gives the
    very names that were written. *)
Theorem normalized_cell_names (s : string) :
  NormalizeCategories.normalize_multi_category_cell (Str s)
  = Str (Py.join ", " (category_names s))
  ∧ Sorted String.le (category_names s)
  ∧ NoDup (category_names s)
  ∧ Forall category_name (category_names s)
  ∧ category_parts (Py.join ", " (category_names s)) = category_names s.
Proof.
  split; [reflexivity|]. split.
  { apply (Sorted_merge_sort String.le). }
  split; [apply NoDup_sorted|]. split; [apply category_names_ok|].
  apply category_parts_join.
  eapply Forall_impl; [apply category_names_ok|].
  intros p (? & ? & ? & ? & _). repeat split; assumption.
Qed.

Lemma cell_of_insert (r : row) (c : string) (v : cell) :
  cell_of (<[c := v]> r) c = v.
Proof. unfold cell_of. by rewrite lookup_insert_eq. Qed.

Lemma cell_of_insert_ne (r : row) (c c' : string) (v : cell) :
  c ≠ c' → cell_of (<[c := v]> r) c' = cell_of r c'.
Proof. intros Hc. unfold cell_of. by rewrite lookup_insert_ne. Qed.

(** X21. Normalising twice is normalising once, for a cell and for the
    column of a table (where a table without the column fails both
    times). *)
Theorem normalize_idempotent (cat : cell) (df : dataframe) (c : string) :
  NormalizeCategories.normalize_multi_category_cell
    (NormalizeCategories.normalize_multi_category_cell cat)
  = NormalizeCategories.normalize_multi_category_cell cat
  ∧ NormalizeCategories.normalize_categories_column df c
      ≫= (λ df', NormalizeCategories.normalize_categories_column df' c)
    = NormalizeCategories.normalize_categories_column df c.
Proof.
  assert (Hcell : ∀ v,
    NormalizeCategories.normalize_multi_category_cell
      (NormalizeCategories.normalize_multi_category_cell v)
    = NormalizeCategories.normalize_multi_category_cell v).
  { intros [|s]; [reflexivity|].
    change (NormalizeCategories.normalize_multi_category_cell (Str s))
      with (Str (Py.join ", " (category_names s))).
    change (NormalizeCategories.normalize_multi_category_cell
              (Str (Py.join ", " (category_names s))))
      with (Str (Py.join ", "
                   (category_names (Py.join ", " (category_names s))))).
    do 2 f_equal. unfold category_names at 1.
    rewrite category_parts_join.
    2:{ eapply Forall_impl; [apply category_names_ok|].
        intros p (? & ? & ? & ? & _). repeat split; assumption. }
    assert (Hfix : NormalizeCategories.fix_part <$> category_names s
                   = category_names s).
    { rewrite <-(list_fmap_id (category_names s)) at 2.
      apply Forall_fmap_ext_1.
      eapply Forall_impl; [apply category_names_ok|].
      intros p Hp. by apply fix_part_fixed. }
    rewrite Hfix. apply sorted_sorted. }
  split; [apply Hcell|].
  unfold NormalizeCategories.normalize_categories_column.
  case_decide as Hc; [|reflexivity].
  cbn [mbind option_bind columns rows]. rewrite decide_True by exact Hc.
  do 2 f_equal. rewrite <-list_fmap_compose.
  apply list_fmap_ext. intros i r _. simpl.
  rewrite cell_of_insert, Hcell. apply insert_insert_eq.
Qed.

(** X22. Normalising a column fails exactly when the table has no such
    column; otherwise the header and the number of rows stay, the column
    holds the normalised cells of the old column, row by row, and the cells
    of every other column are the old ones. *)
Theorem normalize_column_frame (df : dataframe) (c : string) :
  (NormalizeCategories.normalize_categories_column df c = None
   ↔ c ∉ columns df)
  ∧ (∀ df', NormalizeCategories.normalize_categories_column df c = Some df' →
       columns df' = columns df
       ∧ length (rows df') = length (rows df)
       ∧ column df' c
         = NormalizeCategories.normalize_multi_category_cell <$> column df c
       ∧ (∀ c', c' ≠ c → column df' c' = column df c')).
Proof.
  unfold NormalizeCategories.normalize_categories_column. split.
  - case_decide as Hc; split; try done; intros Hn; by destruct Hn.
  - intros df' Hdf. case_decide as Hc; [|discriminate Hdf].
    apply (inj Some) in Hdf as <-. cbn [columns rows].
    split; [done|]. split; [by rewrite length_fmap|]. split.
    + unfold column. cbn [rows]. rewrite <-!list_fmap_compose.
      apply list_fmap_ext. intros i r _. simpl. apply cell_of_insert.
    + intros c' Hne. unfold column. cbn [rows]. rewrite <-list_fmap_compose.
      apply list_fmap_ext. intros i r _. simpl.
      by apply cell_of_insert_ne.
Qed.

(** * manual-seo-updates.py: the SEO status *)

Lemma filled_column (df : dataframe) (f : string) :
  length (filter (λ v, Py.isna v = false) (column df f)) = filled f (rows df).
Proof.
  unfold filled, column. induction (rows df) as [|r rs IH]; [done|].
  rewrite fmap_cons, !filter_cons. case_decide; simpl; by rewrite IH.
Qed.

Lemma filled_empty (df : dataframe) (f : string) :
  (filled f (rows df)
   + length (filter (λ v, Py.isna v = true) (column df f)))%nat
  = length (rows df).
Proof.
  unfold filled, column. induction (rows df) as [|r rs IH]; [done|].
  rewrite fmap_cons, !filter_cons.
  destruct (Py.isna (cell_of r f)) eqn:Hna.
  - rewrite decide_False by done. rewrite decide_True by done. simpl. lia.
  - rewrite decide_True by done. rewrite decide_False by done. simpl. lia.
Qed.

Lemma patch_keeps_value (now : string) (u : seo_update) (r : row)
    (f : string) :
  Py.isna (cell_of r f) = false → Py.isna (cell_of (patch now u r) f) = false.
Proof.
  intros Hr. destruct (decide (f ∈ seo_columns)) as [Hf|Hf].
  - destruct (patch_cells now u r) as (H1 & H2 & H3 & H4).
    unfold seo_columns in Hf. unfold cell_of.
    repeat (apply elem_of_cons in Hf as [->|Hf]);
      [by rewrite H1|by rewrite H2|by rewrite H3|by rewrite H4|].
    by apply elem_of_nil in Hf.
  - by rewrite cell_of_patch.
Qed.

Lemma filled_alter (g : row → row) (f : string) (j : nat) (rs : list row) :
  (∀ r, Py.isna (cell_of r f) = false → Py.isna (cell_of (g r) f) = false) →
  (filled f rs ≤ filled f (alter g j rs) ≤ filled f rs + 1)%nat.
Proof.
  intros Hg. unfold filled. revert j.
  induction rs as [|r rs IH]; intros j; [simpl; lia|].
  destruct j as [|j]; simpl.
  - rewrite !filter_cons.
    destruct (decide (Py.isna (cell_of r f) = false)) as [Hr|Hr].
    + rewrite decide_True by (by apply Hg). simpl. lia.
    + case_decide; simpl; lia.
  - specialize (IH j). change (list_alter g j rs) with (alter g j rs).
    rewrite !filter_cons. case_decide; simpl; lia.
Qed.

Lemma filled_patch_rows (now : string) (u : seo_update) (f : string)
    (rs : list row) :
  (filled f rs ≤ filled f (patch_rows now u rs)
   ≤ filled f rs + (if decide (listed (name u) rs) then 1 else 0))%nat.
Proof.
  unfold patch_rows.
  destruct (list_find (names_product (name u)) rs) as [[j r]|] eqn:Hfind.
  - rewrite decide_True by (apply listed_find; by rewrite Hfind).
    apply filled_alter. intros r'. apply patch_keeps_value.
  - lia.
Qed.

Lemma filled_patch_all (clock : nat → string) (i : nat)
    (updates : list seo_update) (f : string) (rs : list row) :
  (filled f rs ≤ filled f (patch_all clock i updates rs)
   ≤ filled f rs + length (filter (λ u, listed (name u) rs) updates))%nat.
Proof.
  revert i rs. induction updates as [|u updates IH]; intros i rs.
  - simpl. lia.
  - cbn [patch_all]. specialize (IH (S i) (patch_rows (clock i) u rs)).
    pose proof (filled_patch_rows (clock i) u f rs) as Hstep.
    rewrite (list_filter_iff
               (λ u0, listed (name u0) (patch_rows (clock i) u rs))
               (λ u0, listed (name u0) rs)) in IH
      by (intros u0; apply listed_patch_rows).
    rewrite filter_cons. case_decide; simpl; lia.
Qed.

Lemma columns_set_cell_new (df : dataframe) (idx : nat) (c : string)
    (v : cell) :
  c ∈ columns (set_cell df idx c v).
Proof.
  unfold set_cell; simpl. case_decide; [done|].
  apply elem_of_app. right. by left.
Qed.

(** The columns after one iteration. *)
Lemma apply_update_columns (now : string) (df df' : dataframe)
    (count count' : nat) (out out' : list report) (u : seo_update) :
  "Item Name" ∈ columns df →
  apply_update now (df, count, out) u = Some (df', count', out') →
  (listed (name u) (rows df) → ∀ c, c ∈ seo_columns → c ∈ columns df')
  ∧ (¬ listed (name u) (rows df) → df' = df).
Proof.
  intros Hcol. unfold apply_update.
  rewrite (mask_rows df (name u) Hcol), first_index_find.
  destruct (list_find (names_product (name u)) (rows df)) as [[j r]|]
    eqn:Hfind; simpl.
  - intros [= <- _ _]. split.
    + intros _ c Hc. unfold seo_columns in Hc.
      repeat (apply elem_of_cons in Hc as [->|Hc]).
      * do 3 apply columns_set_cell. apply columns_set_cell_new.
      * do 2 apply columns_set_cell. apply columns_set_cell_new.
      * apply columns_set_cell. apply columns_set_cell_new.
      * apply columns_set_cell_new.
      * by apply elem_of_nil in Hc.
    + intros Hn. destruct Hn. apply listed_find. by rewrite Hfind.
  - intros [= <- _ _]. split; [|done].
    intros Hl. apply listed_find in Hl. rewrite Hfind in Hl.
    by destruct Hl.
Qed.

(** The columns after the loop. *)
Lemma run_updates_columns (clock : nat → string) (updates : list seo_update)
    (i : nat) (df df' : dataframe) (count count' : nat)
    (out out' : list report) :
  "Item Name" ∈ columns df →
  run_updates clock i updates (df, count, out) = Some (df', count', out') →
  ((∃ u, u ∈ updates ∧ listed (name u) (rows df)) →
   ∀ c, c ∈ seo_columns → c ∈ columns df')
  ∧ ((∀ u, u ∈ updates → ¬ listed (name u) (rows df)) → df' = df).
Proof.
  revert i df count out.
  induction updates as [|u updates IH]; intros i df count out Hcol Hrun.
  - simpl in Hrun. injection Hrun as <- _ _. split; [|done].
    intros (u & Hu & _). by apply elem_of_nil in Hu.
  - cbn [run_updates] in Hrun.
    destruct (apply_update_step (clock i) df count out u Hcol)
      as (df1 & Hstep & Hrows1 & Hcols1 & _).
    rewrite Hstep in Hrun.
    destruct (apply_update_columns _ _ _ _ _ _ _ _ Hcol Hstep)
      as [Hyes Hno].
    destruct (IH _ _ _ _ (Hcols1 _ Hcol) Hrun) as [IHyes IHno].
    destruct (run_updates_spec clock updates (S i) df1
                (if decide (listed (name u) (rows df))
                 then S count else count)
                (out ++ [report_of (rows df) u]) (Hcols1 _ Hcol))
      as (df2 & Hrun2 & _ & Hmono & _).
    rewrite Hrun in Hrun2. injection Hrun2 as <-.
    assert (Hl : ∀ n, listed n (rows df1) ↔ listed n (rows df)).
    { intros n. rewrite Hrows1. apply listed_patch_rows. }
    split.
    + intros (u0 & Hu0 & Hl0) c Hc.
      destruct (decide (listed (name u) (rows df))) as [Hlu|Hlu].
      * apply Hmono. by apply Hyes.
      * apply elem_of_cons in Hu0 as [->|Hu0]; [done|].
        apply IHyes; [|done]. exists u0. split; [done|]. by apply Hl.
    + intros Hnone.
      assert (df1 = df) as Hdf1.
      { apply Hno, Hnone. by left. }
      rewrite <-Hdf1. apply IHno. intros u0 Hu0 Hl0.
      apply (Hnone u0); [by right|]. by apply Hl.
Qed.

Lemma seo_status_None (df : dataframe) :
  seo_status df = None
  ↔ "SEO Title" ∉ columns df ∨ "SEO Description" ∉ columns df.
Proof.
  unfold seo_status, notna_sum, isna_sum.
  destruct (decide ("SEO Title" ∈ columns df)) as [Ht|Ht],
           (decide ("SEO Description" ∈ columns df)) as [Hd|Hd].
  - split; [intros H; discriminate H|]. intros [?|?]; done.
  - split; [|done]. intros _. by right.
  - split; [|done]. intros _. by left.
  - split; [|done]. intros _. by left.
Qed.

Lemma seo_status_Some (df : dataframe) (t d r : nat) :
  seo_status df = Some (t, d, r) →
  t = filled "SEO Title" (rows df)
  ∧ d = filled "SEO Description" (rows df)
  ∧ (t + r)%nat = length (rows df).
Proof.
  unfold seo_status, notna_sum, isna_sum.
  destruct (decide ("SEO Title" ∈ columns df)) as [Ht|Ht];
    [|intros H; discriminate H].
  destruct (decide ("SEO Description" ∈ columns df)) as [Hd|Hd];
    [|intros H; discriminate H].
  intros [= <- <- <-]. rewrite !filled_column.
  split; [done|]. split; [done|]. apply filled_empty.
Qed.

(** X23. The SEO status printed after the update loop, on a table with an
    Item Name column.  It fails with a KeyError exactly when the loaded
    table lacks the SEO Title or the SEO Description column and no entry of
    the update list names a row (a found entry creates the columns).
    Otherwise the products with and without SEO title are all rows of the
    table, and neither count of filled cells is below the count in the
    loaded table or above it by more than the number of updates the loop
    counted: the loop never empties a cell. *)
Theorem seo_status_after_updates (clock : nat → string)
    (updates : list seo_update) (i : nat) (df : dataframe) (count : nat)
    (out : list report) :
  "Item Name" ∈ columns df →
  ∃ df' count' out',
    run_updates clock i updates (df, count, out) = Some (df', count', out')
    ∧ (seo_status df' = None
       ↔ ("SEO Title" ∉ columns df ∨ "SEO Description" ∉ columns df)
         ∧ ∀ u, u ∈ updates → ¬ listed (name u) (rows df))
    ∧ ∀ t d r, seo_status df' = Some (t, d, r) →
        (t + r)%nat = length (rows df)
        ∧ (filled "SEO Title" (rows df) ≤ t
           ≤ filled "SEO Title" (rows df) + (count' - count))%nat
        ∧ (filled "SEO Description" (rows df) ≤ d
           ≤ filled "SEO Description" (rows df) + (count' - count))%nat.
Proof.
  intros Hcol.
  destruct (run_updates_spec clock updates i df count out Hcol)
    as (df' & Hrun & Hrows & _).
  destruct (run_updates_columns _ _ _ _ _ _ _ _ _ Hcol Hrun) as [Hyes Hno].
  eexists df', _, _. split; [exact Hrun|]. split.
  - rewrite seo_status_None.
    destruct (decide (Exists (λ u, listed (name u) (rows df)) updates))
      as [He|He].
    + apply Exists_exists in He.
      assert (Ht : "SEO Title" ∈ columns df').
      { apply Hyes; [done|]. apply (bool_decide_unpack _). vm_compute. exact I. }
      assert (Hd : "SEO Description" ∈ columns df').
      { apply Hyes; [done|]. apply (bool_decide_unpack _). vm_compute. exact I. }
      split; [intros [?|?]; done|].
      intros [_ Hnone]. destruct He as (u & Hu & Hl). by destruct (Hnone u Hu).
    + assert (Hnone : ∀ u, u ∈ updates → ¬ listed (name u) (rows df)).
      { intros u Hu Hl. apply He, Exists_exists. by exists u. }
      rewrite (Hno Hnone). split; [by intros ?|by intros [? _]].
  - intros t d r (-> & -> & Hsum)%seo_status_Some.
    rewrite Hrows, length_patch_all in Hsum. rewrite Hrows.
    replace (count + length (filter (λ u, listed (name u) (rows df)) updates)
             - count)%nat
      with (length (filter (λ u, listed (name u) (rows df)) updates)) by lia.
    split; [exact Hsum|]. split; apply filled_patch_all.
Qed.

(** Witness of [seo_status_after_updates]: the sample catalog has an Item
    Name column. *)
Lemma seo_status_after_updates_witness :
  ∃ st, run_updates (λ _, "2025-08-03T16:27:00") 0
          [Samples.sunset_lamp] (Samples.catalog, 0%nat, []) = Some st.
Proof.
  destruct (seo_status_after_updates (λ _, "2025-08-03T16:27:00")
              [Samples.sunset_lamp] 0 Samples.catalog 0%nat [])
    as (df' & count' & out' & Hrun & _).
  - apply (bool_decide_unpack _). vm_compute. exact I.
  - by exists (df', count', out').
Defined.
